(** * OpenTDF corpus builder: a shallow embedding and its properties

    The development follows [opentdf-mcp-pack/scripts/opentdf_corpus_builder.py].
    Python strings are sequences of Unicode code points; a character is
    modelled as its code point, a string as the list of its characters.
    Python integers are unbounded and are modelled by [Z]. *)

From Stdlib Require Import String Ascii.
From Stdlib Require Import ZArith NArith List Bool Lia Arith.
From Stdlib Require Import Sorting.Sorted Permutation.
Import ListNotations.

Local Open Scope Z_scope.

(* ================================================================== *)
(** * Part I: definitions *)
(* ================================================================== *)

(** ** Strings *)

Definition char := N.
Definition str := list char.

Definition LF  : char := 10%N.
Definition CR  : char := 13%N.
Definition TAB : char := 9%N.
Definition SP  : char := 32%N.
Definition SLASH : char := 47%N.
Definition STAR : char := 42%N.
Definition DOT : char := 46%N.
Definition BSLASH : char := 92%N.
Definition COLON : char := 58%N.
Definition DASH : char := 45%N.

(** Literals: the code points of an ASCII string. *)
Fixpoint lit (s : string) : str :=
  match s with
  | EmptyString => []
  | String a r => N_of_ascii a :: lit r
  end.

(** [len(s)] *)
Definition len (s : str) : Z := Z.of_nat (length s).

Definition is_nil {A : Type} (l : list A) : bool :=
  match l with [] => true | _ => false end.

Fixpoint str_eqb (a b : str) : bool :=
  match a, b with
  | [], [] => true
  | x :: a', y :: b' => N.eqb x y && str_eqb a' b'
  | _, _ => false
  end.

(** [s.startswith(p)] *)
Fixpoint startswith (p s : str) : bool :=
  match p, s with
  | [], _ => true
  | x :: p', y :: s' => N.eqb x y && startswith p' s'
  | _ :: _, [] => false
  end.

(** [s.endswith(p)] *)
Definition endswith (p s : str) : bool := startswith (rev p) (rev s).

(** [p in s] for strings: substring test. *)
Fixpoint contains (p s : str) : bool :=
  startswith p s || match s with [] => false | _ :: s' => contains p s' end.

(** [x in l] for a list or a set of strings. *)
Definition mem (x : str) (l : list str) : bool := existsb (str_eqb x) l.

(** The characters [str.strip()] removes: those for which [str.isspace()]
    holds (CPython's [_PyUnicode_IsWhitespace]). *)
Definition isspace (c : char) : bool :=
  (((9 <=? c) && (c <=? 13)) || ((28 <=? c) && (c <=? 32))
   || (c =? 133) || (c =? 160) || (c =? 5760)
   || ((8192 <=? c) && (c <=? 8202))
   || (c =? 8232) || (c =? 8233) || (c =? 8239) || (c =? 8287)
   || (c =? 12288))%N.

Fixpoint lstrip (s : str) : str :=
  match s with
  | [] => []
  | c :: t => if isspace c then lstrip t else s
  end.

Fixpoint rstrip (s : str) : str :=
  match s with
  | [] => []
  | c :: t =>
      match rstrip t with
      | [] => if isspace c then [] else [c]
      | r => c :: r
      end
  end.

(** [s.strip()] *)
Definition strip (s : str) : str := rstrip (lstrip s).

(** [sep.join(l)] *)
Fixpoint join (sep : str) (l : list str) : str :=
  match l with
  | [] => []
  | [x] => x
  | x :: r => x ++ sep ++ join sep r
  end.

(** [p[i:j]] for [0 <= i <= j]. *)
Definition slice (p : str) (i j : nat) : str := firstn (j - i) (skipn i p).

(** [range(0, stop, step)] for a positive [step]. *)
Definition range_step (stop step : nat) : list nat :=
  map (fun k => (k * step)%nat) (seq 0 ((stop + step - 1) / step)).

(** ** Text normalization: [clean_text] *)

(** [re.sub(r'\r\n?', '\n', s)] *)
Fixpoint sub_crlf (s : str) : str :=
  match s with
  | [] => []
  | c :: t =>
      if (c =? CR)%N then
        LF :: match t with
              | c2 :: t2 => if (c2 =? LF)%N then sub_crlf t2 else sub_crlf t
              | [] => []
              end
      else c :: sub_crlf t
  end.

Definition is_blank (c : char) : bool := ((c =? SP) || (c =? TAB))%N.

(** [re.sub(r'[ \t]+', ' ', s)]: every maximal run of blanks becomes one
    space.  [in_run] tells that the previous character was a blank of the
    run being replaced. *)
Fixpoint sub_blanks_from (in_run : bool) (s : str) : str :=
  match s with
  | [] => []
  | c :: t =>
      if is_blank c
      then (if in_run then sub_blanks_from true t else SP :: sub_blanks_from true t)
      else c :: sub_blanks_from false t
  end.

Definition sub_blanks (s : str) : str := sub_blanks_from false s.

(** [re.sub(r'\n{3,}', '\n\n', s)]: a maximal run of three or more
    newlines becomes two; shorter runs stay.  [k] counts the newlines of
    the current run already kept. *)
Fixpoint sub_newlines_from (k : nat) (s : str) : str :=
  match s with
  | [] => []
  | c :: t =>
      if (c =? LF)%N
      then (if (k <? 2)%nat then LF :: sub_newlines_from (S k) t
            else sub_newlines_from k t)
      else c :: sub_newlines_from 0 t
  end.

Definition sub_newlines (s : str) : str := sub_newlines_from 0 s.

Definition clean_text (s : str) : str :=
  let s := sub_crlf s in
  let s := sub_blanks s in
  let s := sub_newlines s in
  strip s.

(** Normal forms of the three substitutions: a string without blank runs
    other than single spaces ([in_run]: the previous character is a
    blank), and a string without three newlines in a row ([k]: the number
    of newlines just before). *)
Fixpoint blanks_ok (in_run : bool) (s : str) : Prop :=
  match s with
  | [] => True
  | c :: t =>
      if is_blank c then c = SP /\ in_run = false /\ blanks_ok true t
      else blanks_ok false t
  end.

Fixpoint newlines_ok (k : nat) (s : str) : Prop :=
  match s with
  | [] => True
  | c :: t =>
      if (c =? LF)%N then (k < 2)%nat /\ newlines_ok (S k) t
      else newlines_ok 0 t
  end.

Definition no_cr (s : str) : Prop := Forall (fun c => c <> CR) s.

(** ** Chunking: [split_into_chunks] *)

(** [re.split(r'\n{2,}', s)]: the pieces between maximal runs of two or
    more newlines.  The result is the current piece and the pieces after
    it; [in_sep] tells that the scan is inside a separator run. *)
Fixpoint re_split_from (in_sep : bool) (s : str) : str * list str :=
  match s with
  | [] => ([], [])
  | c :: t =>
      if in_sep then
        if (c =? LF)%N then re_split_from true t
        else let '(p, ps) := re_split_from false t in (c :: p, ps)
      else
        if ((c =? LF)%N && match t with c2 :: _ => (c2 =? LF)%N | [] => false end)%bool
        then let '(p, ps) := re_split_from true t in ([], p :: ps)
        else let '(p, ps) := re_split_from false t in (c :: p, ps)
  end.

Definition re_split_paras (s : str) : list str :=
  let '(p, ps) := re_split_from false s in p :: ps.

Definition NLNL : str := [LF; LF].

(** The loop state of [split_into_chunks]: [chunks], [buf], [cur]. *)
Record chunker := mkChunker {
  chunks : list str;
  buf : list str;
  cur : Z
}.

(** The brutal split
    [for i in range(0, len(p), hard_max): chunks.append(p[i:i+hard_max])].
    [range] raises [ValueError] on a zero step and is empty on a negative
    one. *)
Definition brutal_split (p : str) (hard_max : Z) : option (list str) :=
  if hard_max =? 0 then None
  else if hard_max <? 0 then Some []
  else let h := Z.to_nat hard_max in
       Some (map (fun i => slice p i (i + h)) (range_step (length p) h)).

(** The flush of a non-empty buffer in the [else] branch. *)
Definition flush_buf (min_chars : Z) (cs : list str) (b : list str) : list str :=
  match b with
  | [] => cs
  | _ :: _ =>
      let chunk := strip (join NLNL b) in
      if (min_chars <=? len chunk) || is_nil cs then cs ++ [chunk]
      else cs (* merge small remainder with next paragraph(s): pass *)
  end.

(** One iteration of [for p in paras]. *)
Definition chunk_step (target_chars hard_max min_chars : Z)
    (st : chunker) (p : str) : option chunker :=
  if cur st + len p + 2 <=? target_chars then
    Some (mkChunker (chunks st) (buf st ++ [p]) (cur st + len p + 2))
  else
    let cs := flush_buf min_chars (chunks st) (buf st) in
    if hard_max <? len p then
      match brutal_split p hard_max with
      | None => None
      | Some pieces => Some (mkChunker (cs ++ pieces) [] 0)
      end
    else Some (mkChunker cs [p] (len p)).

Fixpoint chunk_loop (target_chars hard_max min_chars : Z)
    (paras : list str) (st : chunker) : option chunker :=
  match paras with
  | [] => Some st
  | p :: ps =>
      match chunk_step target_chars hard_max min_chars st p with
      | None => None
      | Some st' => chunk_loop target_chars hard_max min_chars ps st'
      end
  end.

(** [split_into_chunks(text, target_chars, hard_max, min_chars)];
    [None] stands for the [ValueError] of a zero-step [range]. *)
Definition split_into_chunks (text : str) (target_chars hard_max min_chars : Z)
    : option (list str) :=
  if len text <=? hard_max then Some [text]
  else
    let paras := re_split_paras (strip text) in
    match chunk_loop target_chars hard_max min_chars paras (mkChunker [] [] 0) with
    | None => None
    | Some st =>
        match buf st with
        | [] => Some (chunks st)
        | _ :: _ => Some (chunks st ++ [strip (join NLNL (buf st))])
        end
    end.

(** ** HTTP with retries: [http_get] *)

Record response := mkResponse {
  status_code : Z;
  resp_text : str
}.

(** One call of [requests.get]: a response, or one of the exceptions of
    [requests] (connection failure, timeout, malformed URL). *)
Inductive transport_error := ConnectionFailed | TimedOut | InvalidURL.

Inductive transport_result :=
| Responded (r : response)
| Failed (e : transport_error).

Inductive exn :=
| HttpError (url : str) (status : Z)
| RequestException (e : transport_error)
| RetryError (last : exn).

(** The network as seen from one URL: the outcome of the [i]-th call of
    [requests.get] on it (counting from 0). *)
Definition transport := nat -> transport_result.

(** The body of [http_get], one attempt. *)
Definition http_get_once (url : str) (t : transport_result) : response + exn :=
  match t with
  | Failed e => inr (RequestException e)
  | Responded r =>
      if 400 <=? status_code r then inr (HttpError url (status_code r))
      else inl r
  end.

(** [retry_if_exception_type(HttpError)] *)
Definition retry_if_HttpError (e : exn) : bool :=
  match e with HttpError _ _ => true | _ => false end.

(** [stop_after_attempt(max_attempt)] *)
Definition stop_after_attempt (max_attempt attempt_number : nat) : bool :=
  (max_attempt <=? attempt_number)%nat.

(** [wait_exponential(multiplier, min, max)] with base 2 (tenacity 7 and
    later): [multiplier * 2 ** (attempt_number - 1)], kept within [min]
    and [max]. *)
Definition wait_exponential (multiplier min max : Z) (attempt_number : nat) : Z :=
  Z.max (Z.max 0 min) (Z.min (multiplier * 2 ^ (Z.of_nat attempt_number - 1)) max).

(** What a call of the decorated function amounts to: its outcome, the
    number of attempts made, and the waits between them. *)
Record retry_run := mkRun {
  outcome : response + exn;
  attempts : nat;
  sleeps : list Z
}.

(** The loop of the [@retry] decorator; [attempt_number] starts at 1.
    [fuel] bounds the iterations of its [while True]. *)
Fixpoint retry_loop (fuel : nat) (net : transport) (url : str)
    (attempt_number : nat) (slept : list Z) : option retry_run :=
  match fuel with
  | O => None
  | S fuel' =>
      match http_get_once url (net (attempt_number - 1)%nat) with
      | inl r => Some (mkRun (inl r) attempt_number slept)
      | inr e =>
          if retry_if_HttpError e then
            if stop_after_attempt 5 attempt_number
            then Some (mkRun (inr (RetryError e)) attempt_number slept)
            else retry_loop fuel' net url (S attempt_number)
                   (slept ++ [wait_exponential 1 1 10 attempt_number])
          else Some (mkRun (inr e) attempt_number slept)
      end
  end.

(** [http_get(url)] with its decorator. *)
Definition http_get (net : transport) (url : str) : option retry_run :=
  retry_loop 5 net url 1 [].

(** What the caller of [http_get] gets: the response, or [None] when it
    raises. *)
Definition http_get_result (net : transport) (url : str) : option response :=
  match http_get net url with
  | Some run => match outcome run with inl r => Some r | inr _ => None end
  | None => None
  end.

(** The failures of an attempt: the one [http_get] raises [HttpError]
    for, and the network-level ones of the transport. *)
Definition http_failure (t : transport_result) : bool :=
  match t with
  | Responded r => 400 <=? status_code r
  | Failed _ => false
  end.

Definition network_failure (t : transport_result) : bool :=
  match t with
  | Failed ConnectionFailed | Failed TimedOut => true
  | _ => false
  end.

(** ** Path exclusion: the glob check of [build_corpus] *)

Definition LBRACKET : char := 91%N.
Definition RBRACKET : char := 93%N.
Definition CARET : char := 94%N.

(** The characters [re.escape] protects (Python 3.7 and later):
    [()[]{}?*+-|^$\.&~#], space, tab, newline, return, VT, FF. *)
Definition re_special (c : char) : bool :=
  existsb (N.eqb c)
    [40; 41; 91; 93; 123; 125; 63; 42; 43; 45; 124; 94; 36; 92; 46; 38; 126; 35;
     32; 9; 10; 13; 11; 12]%N.

Definition escape_char (c : char) : str :=
  if re_special c then [BSLASH; c] else [c].

(** [re.escape(pat)] *)
Definition re_escape (pat : str) : str := flat_map escape_char pat.

(** [s.replace(old, new)] for a non-empty [old]: the occurrences of [old]
    are replaced from left to right, without overlap.  [fuel] bounds the
    recursion; the length of [s] is enough. *)
Fixpoint replace_from (fuel : nat) (old new s : str) : str :=
  match fuel with
  | O => s
  | S fuel' =>
      match s with
      | [] => []
      | c :: t =>
          if startswith old s
          then new ++ replace_from fuel' old new (skipn (length old) s)
          else c :: replace_from fuel' old new t
      end
  end.

Definition str_replace (old new s : str) : str := replace_from (length s) old new s.

(** The regular expressions the translation produces: a sequence of
    literal characters, [.*] and [[^/]*]. *)
Inductive rx_item :=
| RLit (c : char)
| RAnyStar
| RNotSlashStar.

(** The characters with a meaning of their own in a regular expression. *)
Definition rx_meta (c : char) : bool :=
  existsb (N.eqb c) [46; 94; 36; 42; 43; 63; 123; 125; 91; 93; 92; 124; 40; 41]%N.

Definition ascii_alnum (c : char) : bool :=
  (((48 <=? c) && (c <=? 57)) || ((65 <=? c) && (c <=? 90))
   || ((97 <=? c) && (c <=? 122)))%N.

(** [re.compile] on that fragment: a backslash followed by a character
    that is no letter or digit stands for the character, [.*] and [[^/]*]
    are read as such, any other character without a meaning of its own
    stands for itself.  [None]: the expression is outside the fragment. *)
Fixpoint rx_parse (rx : str) : option (list rx_item) :=
  match rx with
  | [] => Some []
  | c :: t =>
      if (c =? BSLASH)%N then
        match t with
        | c2 :: t2 =>
            if ascii_alnum c2 then None
            else option_map (cons (RLit c2)) (rx_parse t2)
        | [] => None
        end
      else if (c =? DOT)%N then
        match t with
        | c2 :: t2 =>
            if (c2 =? STAR)%N then option_map (cons RAnyStar) (rx_parse t2) else None
        | [] => None
        end
      else if (c =? LBRACKET)%N then
        match t with
        | c2 :: c3 :: c4 :: c5 :: t5 =>
            if ((c2 =? CARET) && (c3 =? SLASH) && (c4 =? RBRACKET) && (c5 =? STAR))%N
            then option_map (cons RNotSlashStar) (rx_parse t5)
            else None
        | _ => None
        end
      else if rx_meta c then None
      else option_map (cons (RLit c)) (rx_parse t)
  end.

(** [X*] followed by the rest [k] of the expression, on [s]: some prefix
    of [s] made of characters of [X], followed by a match of the rest. *)
Fixpoint rx_star (ok : char -> bool) (k : str -> bool) (s : str) : bool :=
  k s || match s with
         | [] => false
         | x :: s' => ok x && rx_star ok k s'
         end.

(** [.] matches any character but a newline (no [DOTALL] flag). *)
Definition rx_dot (c : char) : bool := negb (c =? LF)%N.
Definition rx_not_slash (c : char) : bool := negb (c =? SLASH)%N.

(** Whether the whole of [s] matches the expression. *)
Fixpoint rx_match (r : list rx_item) (s : str) : bool :=
  match r with
  | [] => is_nil s
  | RLit c :: r' =>
      match s with
      | x :: s' => (x =? c)%N && rx_match r' s'
      | [] => false
      end
  | RAnyStar :: r' => rx_star rx_dot (rx_match r') s
  | RNotSlashStar :: r' => rx_star rx_not_slash (rx_match r') s
  end.

(** [re.fullmatch(rx, path)] as a truth value. *)
Definition re_fullmatch (rx path : str) : option bool :=
  option_map (fun r => rx_match r path) (rx_parse rx).

(** [re.escape(pat).replace(r"\*\*", ".*").replace(r"\*", "[^/]*")] *)
Definition glob_to_regex (pat : str) : str :=
  str_replace (lit "\*") (lit "[^/]*")
    (str_replace (lit "\*\*") (lit ".*") (re_escape pat)).

(** [re.fullmatch(rx, path)] for the [rx] of the glob [pat]. *)
Definition glob_fullmatch (pat path : str) : option bool :=
  re_fullmatch (glob_to_regex pat) path.

(** Globs as the specification describes them: [**], [*] and literal
    characters, read from left to right. *)
Inductive glob_token :=
| GLit (c : char)
| GStar
| GStarStar.

Fixpoint glob_tokens (pat : str) : list glob_token :=
  match pat with
  | [] => []
  | c :: t =>
      if (c =? STAR)%N then
        match t with
        | c2 :: t2 =>
            if (c2 =? STAR)%N then GStarStar :: glob_tokens t2
            else GStar :: glob_tokens t
        | [] => [GStar]
        end
      else GLit c :: glob_tokens t
  end.

(** A whole path matches a glob: [**] stands for any sequence of
    characters satisfying [any], [*] for any sequence without a path
    separator, every other character for itself. *)
Inductive glob_matches (any : char -> Prop) : list glob_token -> str -> Prop :=
| gm_nil : glob_matches any [] []
| gm_lit c ts s :
    glob_matches any ts s -> glob_matches any (GLit c :: ts) (c :: s)
| gm_star ts s1 s2 :
    Forall (fun x => x <> SLASH) s1 -> glob_matches any ts s2 ->
    glob_matches any (GStar :: ts) (s1 ++ s2)
| gm_starstar ts s1 s2 :
    Forall any s1 -> glob_matches any ts s2 ->
    glob_matches any (GStarStar :: ts) (s1 ++ s2).

(** The glob semantics of the specification: [**] matches any sequence. *)
Definition glob_matches_spec (pat path : str) : Prop :=
  glob_matches (fun _ => True) (glob_tokens pat) path.

(** The same with [**] restricted to sequences without a newline. *)
Definition glob_matches_line (pat path : str) : Prop :=
  glob_matches (fun x => x <> LF) (glob_tokens pat) path.

(** ** Results of effectful code *)

(** A call returns, raises an exception, or does not end within the
    fuel given to its loops. *)
Inductive res (A : Type) : Type :=
| Ret (a : A)
| Raise
| NoFuel.

Arguments Ret {A} a.
Arguments Raise {A}.
Arguments NoFuel {A}.

Definition bind {A B : Type} (m : res A) (k : A -> res B) : res B :=
  match m with
  | Ret a => k a
  | Raise => Raise
  | NoFuel => NoFuel
  end.

Notation "x <- m ;; k" := (bind m (fun x => k))
  (at level 61, m at next level, right associativity).

(** ** Library functions and the outside world *)

(** Functions of Python libraries the builder calls and whose results are
    left open. *)
Record PyLib := mkPyLib {
  urijoin : str -> str -> str;          (* uritools.urijoin *)
  str_lower : str -> str;               (* str.lower *)
  sha256_text : str -> str;             (* hashlib.sha256(...).hexdigest() *)
  gunzip : str -> str;                  (* gzip.decompress(...).decode, or the body
                                           itself when that fails *)
  xml_loc_texts : str -> list str;      (* the text of every element whose tag ends in loc;
                                           none when the XML is malformed *)
  html_hrefs : str -> list str;         (* the href of every <a href> of a page *)
  html_title : str -> option str;       (* the title extract_doc_page selects *)
  html_blocks : str -> list str         (* the non-empty block texts it collects *)
}.

(** The web as the crawler sees it: for every URL, the outcomes of the
    successive calls of [requests.get] on it. *)
Record Web := mkWeb {
  net : str -> transport
}.

(** [_fetch_text(url)]; [None]: [http_get] raises. *)
Definition _fetch_text (web : Web) (url : str) : option str :=
  option_map resp_text (http_get_result (net web url) url).

(** [_try_parse_sitemap_xml(xml_text)] *)
Definition _try_parse_sitemap_xml (lib : PyLib) (xml_text : str) : list str :=
  map strip (filter (fun t => negb (is_nil t)) (xml_loc_texts lib xml_text)).

(** ** Sets and sorted lists of strings *)

(** [s.add(x)] on a set kept as a duplicate-free list. *)
Definition set_add (x : str) (s : list str) : list str :=
  if mem x s then s else s ++ [x].

(** [list(dict.fromkeys(l))]: first occurrences, in order. *)
Fixpoint dedupe_from (seen l : list str) : list str :=
  match l with
  | [] => []
  | x :: r => if mem x seen then dedupe_from seen r else x :: dedupe_from (x :: seen) r
  end.

Definition dedupe (l : list str) : list str := dedupe_from [] l.

(** [a <= b] on strings: lexicographic on code points. *)
Fixpoint str_leb (a b : str) : bool :=
  match a, b with
  | [], _ => true
  | _ :: _, [] => false
  | x :: a', y :: b' => (x <? y)%N || ((x =? y)%N && str_leb a' b')
  end.

Fixpoint insert_sorted (x : str) (l : list str) : list str :=
  match l with
  | [] => [x]
  | y :: r => if str_leb x y then x :: l else y :: insert_sorted x r
  end.

(** [sorted(s)] *)
Definition sorted (s : list str) : list str := fold_right insert_sorted [] s.

(** [s.rstrip(chars)] *)
Fixpoint rstrip_chars (chars : str) (s : str) : str :=
  match s with
  | [] => []
  | c :: t =>
      match rstrip_chars chars t with
      | [] => if existsb (N.eqb c) chars then [] else [c]
      | r => c :: r
      end
  end.

(** The line boundaries of [str.splitlines]: LF, VT, FF, CR, FS, GS, RS,
    NEL, LS, PS; CR LF counts as one. *)
Definition is_linebreak (c : char) : bool :=
  existsb (N.eqb c) [10; 11; 12; 13; 28; 29; 30; 133; 8232; 8233]%N.

(** [s.splitlines()]; [line] is the current line, reversed. *)
Fixpoint splitlines_from (line : str) (s : str) : list str :=
  match s with
  | [] => match line with [] => [] | _ :: _ => [rev line] end
  | c :: t =>
      if (c =? CR)%N then
        rev line :: match t with
                    | c2 :: t2 =>
                        if (c2 =? LF)%N then splitlines_from [] t2
                        else splitlines_from [] t
                    | [] => []
                    end
      else if is_linebreak c then rev line :: splitlines_from [] t
      else splitlines_from (c :: line) t
  end.

Definition splitlines (s : str) : list str := splitlines_from [] s.

(** [s.split(sep, 1)[1]] for a one-character [sep]: what follows the
    first [sep]; [None] is the [IndexError] when there is none. *)
Fixpoint after_first (sep : char) (s : str) : option str :=
  match s with
  | [] => None
  | c :: t => if (c =? sep)%N then Some t else after_first sep t
  end.

(** ** Documentation URL discovery: [discover_doc_urls] *)

Definition SITEMAP_CANDIDATES : list str :=
  [lit "/sitemap.xml"; lit "/sitemap_index.xml"; lit "/sitemap-index.xml";
   lit "/sitemap.xml.gz"; lit "/sitemap_index.xml.gz"; lit "/sitemap-index.xml.gz"].

Definition DOC_SECTION_HINTS : list str :=
  [lit "/introduction"; lit "/getting-started"; lit "/architecture";
   lit "/category/components-and-services"; lit "/components"; lit "/sdks";
   lit "/OpenAPI-clients"; lit "/spec"; lit "/appendix"; lit "/release-notes"].

Definition _is_docs_url (u base : str) : bool :=
  if negb (startswith base u) then false
  else existsb (fun h => contains h u) DOC_SECTION_HINTS.

(** The loop over the lines of [robots.txt]. *)
Fixpoint robots_sitemaps (lib : PyLib) (lines : list str) : res (list str) :=
  match lines with
  | [] => Ret []
  | line :: rest =>
      if startswith (lit "sitemap:") (str_lower lib line) then
        match after_first COLON line with
        | None => Raise
        | Some sm => maps <- robots_sitemaps lib rest ;; Ret (strip sm :: maps)
        end
      else robots_sitemaps lib rest
  end.

Definition _extract_sitemap_urls_from_robots (lib : PyLib) (web : Web) (base : str)
    : res (list str) :=
  match _fetch_text web (urijoin lib base (lit "/robots.txt")) with
  | None => Ret []
  | Some txt => robots_sitemaps lib (splitlines txt)
  end.

(** [_fetch_and_parse_sitemap(url)]; [None]: [http_get] raises. *)
Definition _fetch_and_parse_sitemap (lib : PyLib) (web : Web) (url : str)
    : option (list str) :=
  if endswith (lit ".gz") url then
    match http_get_result (net web url) url with
    | None => None
    | Some resp => Some (_try_parse_sitemap_xml lib (gunzip lib (resp_text resp)))
    end
  else
    match _fetch_text web url with
    | None => None
    | Some xml_text => Some (_try_parse_sitemap_xml lib xml_text)
    end.

(** [for loc in locs] of the sitemap loop, on the queue and the result
    set. *)
Fixpoint scan_locs (base : str) (seen_maps : list str) (locs : list str)
    (to_visit found : list str) : list str * list str :=
  match locs with
  | [] => (to_visit, found)
  | loc :: rest =>
      if endswith (lit ".xml") loc || endswith (lit ".xml.gz") loc then
        scan_locs base seen_maps rest
          (if mem loc seen_maps then to_visit else to_visit ++ [loc]) found
      else if _is_docs_url loc base then
        scan_locs base seen_maps rest to_visit (set_add loc found)
      else scan_locs base seen_maps rest to_visit found
  end.

(** [while to_visit] of the sitemap phase. *)
Fixpoint sitemap_loop (fuel : nat) (lib : PyLib) (web : Web) (base : str)
    (to_visit seen_maps found : list str) : res (list str) :=
  match fuel with
  | O => NoFuel
  | S fuel' =>
      match to_visit with
      | [] => Ret found
      | sm :: rest =>
          if mem sm seen_maps then sitemap_loop fuel' lib web base rest seen_maps found
          else
            let seen_maps := set_add sm seen_maps in
            match _fetch_and_parse_sitemap lib web sm with
            | None => sitemap_loop fuel' lib web base rest seen_maps found
            | Some locs =>
                let '(to_visit, found) := scan_locs base seen_maps locs rest found in
                sitemap_loop fuel' lib web base to_visit seen_maps found
            end
      end
  end.

(** Steps 1 and 2 of [discover_doc_urls], for the [base] already
    stripped: the set [found] when the sitemap loop ends. *)
Definition sitemap_discovery (lib : PyLib) (web : Web) (fuel : nat) (base : str)
    : res (list str) :=
  sm_urls <- _extract_sitemap_urls_from_robots lib web base ;;
  let sm_urls := sm_urls ++ map (urijoin lib base) SITEMAP_CANDIDATES in
  sitemap_loop fuel lib web base (dedupe sm_urls) [] [].

(** [for a in soup.find_all("a", href=True)] of the fallback crawl. *)
Fixpoint scan_hrefs (lib : PyLib) (base u : str) (visited : list str)
    (hrefs : list str) (dq : list str) : list str :=
  match hrefs with
  | [] => dq
  | h :: rest =>
      let href := strip h in
      if startswith (lit "#") href then scan_hrefs lib base u visited rest dq
      else
        let full := if startswith (lit "http") href then href else urijoin lib u href in
        if _is_docs_url full base && negb (mem full visited)
        then scan_hrefs lib base u visited rest (dq ++ [full])
        else scan_hrefs lib base u visited rest dq
  end.

(** [while dq] of the fallback crawl. *)
Fixpoint bfs_loop (fuel : nat) (lib : PyLib) (web : Web) (base : str)
    (dq visited found : list str) : res (list str) :=
  match fuel with
  | O => NoFuel
  | S fuel' =>
      match dq with
      | [] => Ret found
      | u :: rest =>
          if mem u visited then bfs_loop fuel' lib web base rest visited found
          else
            let visited := set_add u visited in
            match http_get_result (net web u) u with
            | None => bfs_loop fuel' lib web base rest visited found
            | Some resp =>
                let found := if _is_docs_url u base then set_add u found else found in
                let dq :=
                  scan_hrefs lib base u visited (html_hrefs lib (resp_text resp)) rest in
                bfs_loop fuel' lib web base dq visited found
            end
      end
  end.

(** Step 3 of [discover_doc_urls]: the guided breadth-first crawl from
    the seeds, entered with an empty result set. *)
Definition fallback_crawl (lib : PyLib) (web : Web) (fuel : nat) (base : str)
    (seeds : list str) : res (list str) :=
  found <- bfs_loop fuel lib web base (map (urijoin lib base) seeds) [] [] ;;
  Ret (sorted found).

Definition discover_doc_urls (lib : PyLib) (web : Web) (fuel : nat) (base : str)
    (seeds : list str) : res (list str) :=
  let base := rstrip_chars (lit "/") base in
  found <- sitemap_discovery lib web fuel base ;;
  if negb (is_nil found) then Ret (sorted found)
  else
    found <- bfs_loop fuel lib web base (map (urijoin lib base) seeds) [] found ;;
    Ret (sorted found).

(** ** The corpus: [build_corpus] *)

Inductive source_type := Docs | Repo | Release.
Inductive content_type := Text | Markdown | Code.

(** One line of the corpus file. *)
Record record := mkRecord {
  rec_id : str;
  rec_source_type : source_type;
  rec_title : option str;
  rec_section : option str;
  rec_url : option str;
  rec_repo : option str;
  rec_path : option str;
  rec_commit : option str;
  rec_license : option str;
  rec_version : option str;
  rec_fetched_at : str;
  rec_attribution : str;
  rec_content : str;
  rec_content_type : content_type;
  rec_chunk_index : nat;
  rec_chunk_count : nat;
  rec_approx_tokens : option Z;
  rec_hash : option str
}.

(** The configuration file. *)
Record Config := mkConfig {
  docs_base : str;
  doc_seeds : list str;
  target_chars : Z;
  code_target_chars : Z;
  hard_max_chars : Z;
  min_chars : Z;
  add_token_estimates : bool;
  add_hash : bool;
  org : str;
  include_repos : list str;
  exclude_repos : list str;
  include_exts : list str;
  max_file_bytes : Z;
  exclude_path_globs : list str;
  releases_include_from : list str
}.

(** Entries of the GitHub API answers. *)
Record tree_node := mkNode {
  node_type : str;
  node_path : option str;
  node_size : option Z
}.

Record release := mkRelease {
  rel_name : option str;
  rel_tag_name : option str;
  rel_body : option str;
  rel_html_url : option str;
  rel_published_at : option str
}.

(** GitHub as the builder sees it: the results of the helper functions
    of the same names, the names of the repositories on one page of
    [list_org_repos], and one page of releases.  [None]: the call raises,
    except for [get_repo_license], whose [None] is its [Optional]
    result. *)
Record GitHub := mkGitHub {
  org_repos_page : str -> nat -> option (list str);
  get_repo_license : str -> str -> option str;
  get_default_branch_sha : str -> str -> option (str * option str);
  list_repo_tree : str -> str -> option str -> option (list tree_node);
  get_raw_file : str -> str -> str -> str -> option str;
  releases_page : str -> str -> nat -> option (list release)
}.

Inductive warning :=
| WarnDocs (u : str)
| WarnRepo (name : str)
| WarnReleases (repo_name : str).

(** [str(n)] for a natural number: its decimal digits. [rev_digits] lists
    them from the units up. *)
Fixpoint rev_digits (fuel n : nat) : str :=
  match fuel with
  | O => []
  | S fuel' =>
      N.of_nat (48 + n mod 10)
      :: (if (n <? 10)%nat then [] else rev_digits fuel' (n / 10))
  end.

Definition decimal (n : nat) : str := rev (rev_digits (S n) n).

(** A value inside an f-string: [None] is printed as such. *)
Definition fmt_opt (o : option str) : str :=
  match o with Some s => s | None => lit "None" end.

(** [x or y] on optional strings: an empty string is false. *)
Definition or_else (x y : option str) : option str :=
  match x with
  | Some (_ :: _) => x
  | _ => y
  end.

(** [os.path.basename(path)] *)
Definition basename (path : str) : str :=
  fold_left (fun acc c => if (c =? SLASH)%N then [] else acc ++ [c]) path [].

(** The extension of a file name without directory: from its last dot
    on, when a character other than a dot comes before that dot. *)
Fixpoint ext_from (seen_name : bool) (name : str) : str :=
  match name with
  | [] => []
  | c :: t =>
      if (c =? DOT)%N then
        match ext_from seen_name t with
        | [] => if seen_name then name else []
        | e => e
        end
      else ext_from true t
  end.

(** [os.path.splitext(path)[1]] *)
Definition splitext_ext (path : str) : str := ext_from false (basename path).

(** [approx_tokens] *)
Definition approx_tokens (text : str) : Z := Z.max 1 (len text / 4).

(** [for idx, ch in enumerate(chunks)] building one record per chunk. *)
Definition chunk_records (mk : nat -> str -> record) (chunks : list str) : list record :=
  map (fun ic => mk (fst ic) (snd ic)) (combine (seq 0 (length chunks)) chunks).

Record page := mkPage {
  page_url : str;
  page_title : option str;
  page_content : str;
  page_license : str;
  page_attribution : str
}.

(** [extract_doc_page]; [None]: [http_get] raises. *)
Definition extract_doc_page (lib : PyLib) (web : Web) (url : str) : option page :=
  match http_get_result (net web url) url with
  | None => None
  | Some r =>
      Some (mkPage url (html_title lib (resp_text r))
              (clean_text (join NLNL (html_blocks lib (resp_text r))))
              (lit "CC-BY-SA-4.0")
              (lit "OpenTDF Documentation (opentdf/docs) " ++ [8212%N]
                 ++ lit " CC-BY-SA-4.0"))
  end.

Definition docs_record (lib : PyLib) (cfg : Config) (fetched_at : str) (u : str)
    (pg : page) (count : nat) (idx : nat) (ch : str) : record :=
  mkRecord (lit "docs::" ++ u ++ lit "::chunk-" ++ decimal (idx + 1))
    Docs (page_title pg) None (Some u) None None None
    (Some (page_license pg)) None fetched_at (page_attribution pg)
    ch Text idx count
    (if add_token_estimates cfg then Some (approx_tokens ch) else None)
    (if add_hash cfg then Some (sha256_text lib ch) else None).

(** The body of the [try] of the documentation loop, for one URL;
    [None]: it raises. *)
Definition doc_page_records (lib : PyLib) (web : Web) (cfg : Config)
    (fetched_at : str) (u : str) : option (list record) :=
  match extract_doc_page lib web u with
  | None => None
  | Some pg =>
      let text := page_content pg in
      if is_nil text || (len text <? 200) then Some []
      else
        match split_into_chunks text (target_chars cfg) (hard_max_chars cfg)
                (min_chars cfg) with
        | None => None
        | Some chunks =>
            Some (chunk_records (docs_record lib cfg fetched_at u pg (length chunks)) chunks)
        end
  end.

Fixpoint docs_phase (lib : PyLib) (web : Web) (cfg : Config) (fetched_at : str)
    (doc_urls : list str) : list record * list warning :=
  match doc_urls with
  | [] => ([], [])
  | u :: rest =>
      let '(rs, ws) := docs_phase lib web cfg fetched_at rest in
      match doc_page_records lib web cfg fetched_at u with
      | Some recs => (recs ++ rs, ws)
      | None => (rs, WarnDocs u :: ws)
      end
  end.

(** [list_org_repos], as the names of the repositories listed. *)
Fixpoint list_org_repos (fuel : nat) (gh : GitHub) (org : str) (page : nat)
    : res (list str) :=
  match fuel with
  | O => NoFuel
  | S fuel' =>
      match org_repos_page gh org page with
      | None => Raise
      | Some [] => Ret []
      | Some items =>
          rest <- list_org_repos fuel' gh org (S page) ;; Ret (items ++ rest)
      end
  end.

(** The loop over [exclude_path_globs]; [None]: [re.fullmatch] raises. *)
Fixpoint path_excluded (globs : list str) (path : str) : option bool :=
  match globs with
  | [] => Some false
  | pat :: rest =>
      match glob_fullmatch pat path with
      | None => None
      | Some true => Some true
      | Some false => path_excluded rest path
      end
  end.

Definition repo_record (lib : PyLib) (cfg : Config) (fetched_at : str)
    (name path sha ext : str) (lic : option str) (count : nat)
    (idx : nat) (ch : str) : record :=
  mkRecord
    (lit "repo::" ++ name ++ lit "::" ++ path ++ lit "::" ++ firstn 8 sha
       ++ lit "::chunk-" ++ decimal (idx + 1))
    Repo (Some (basename path)) None None
    (Some (org cfg ++ lit "/" ++ name)) (Some path) (Some sha) lic None fetched_at
    (lit "Source: github.com/" ++ org cfg ++ lit "/" ++ name ++ lit " ("
       ++ match or_else lic None with Some l => l | None => lit "unknown license" end
       ++ lit ")")
    ch
    (if mem ext [lit ".md"; lit ".mdx"] then Markdown else Code)
    idx count
    (if add_token_estimates cfg then Some (approx_tokens ch) else None)
    (if add_hash cfg then Some (sha256_text lib ch) else None).

(** One tree entry of the repository loop; [None]: an exception leaves
    the loop. *)
Definition node_records (lib : PyLib) (gh : GitHub) (cfg : Config) (fetched_at : str)
    (name branch : str) (sha lic : option str) (node : tree_node)
    : option (list record) :=
  if negb (str_eqb (node_type node) (lit "blob")) then Some []
  else
    let path := match node_path node with Some p => p | None => [] end in
    let size := match node_size node with Some z => z | None => 0 end in
    let ext := str_lower lib (splitext_ext path) in
    let max_bytes := if max_file_bytes cfg =? 0 then 800000 else max_file_bytes cfg in
    if negb (is_nil (include_exts cfg)) && negb (mem ext (include_exts cfg)) then Some []
    else if negb (size =? 0) && (max_bytes <? size) then Some []
    else
      match path_excluded (exclude_path_globs cfg) path with
      | None => None
      | Some true => Some []
      | Some false =>
          match get_raw_file gh (org cfg) name branch path with
          | None | Some [] => Some []
          | Some text =>
              let text := clean_text text in
              match split_into_chunks text (code_target_chars cfg)
                      (hard_max_chars cfg) (min_chars cfg) with
              | None => None
              | Some [] => Some []
              | Some cchunks =>
                  match sha with
                  | None => None
                  | Some sha =>
                      Some (chunk_records
                              (repo_record lib cfg fetched_at name path sha ext lic
                                 (length cchunks)) cchunks)
                  end
              end
          end
      end.

(** A loop whose body may raise: the records appended before the
    exception stay; the flag tells that one was raised. *)
Fixpoint records_until_raise {A : Type} (body : A -> option (list record))
    (items : list A) : list record * bool :=
  match items with
  | [] => ([], false)
  | x :: rest =>
      match body x with
      | None => ([], true)
      | Some recs =>
          let '(rs, raised) := records_until_raise body rest in (recs ++ rs, raised)
      end
  end.

(** The body of the [try] of the repository loop, for one repository. *)
Definition repo_records (lib : PyLib) (gh : GitHub) (cfg : Config) (fetched_at : str)
    (name : str) : list record * list warning :=
  let lic := or_else (get_repo_license gh (org cfg) name) None in
  match get_default_branch_sha gh (org cfg) name with
  | None => ([], [WarnRepo name])
  | Some (branch, sha) =>
      match list_repo_tree gh (org cfg) name sha with
      | None => ([], [WarnRepo name])
      | Some tree =>
          let '(rs, raised) :=
            records_until_raise
              (node_records lib gh cfg fetched_at name branch sha lic) tree in
          (rs, if raised then [WarnRepo name] else [])
      end
  end.

Fixpoint repos_phase (lib : PyLib) (gh : GitHub) (cfg : Config) (fetched_at : str)
    (names : list str) : list record * list warning :=
  match names with
  | [] => ([], [])
  | name :: rest =>
      let '(rs1, ws1) := repo_records lib gh cfg fetched_at name in
      let '(rs2, ws2) := repos_phase lib gh cfg fetched_at rest in
      (rs1 ++ rs2, ws1 ++ ws2)
  end.

Definition release_record (lib : PyLib) (gh : GitHub) (cfg : Config) (fetched_at : str)
    (repo_name name : str) (url : option str) (count : nat)
    (idx : nat) (ch : str) : record :=
  mkRecord
    (lit "release::" ++ repo_name ++ lit "::" ++ name ++ lit "::chunk-" ++ decimal (idx + 1))
    Release (Some name) (Some repo_name) url
    (Some (org cfg ++ lit "/" ++ repo_name)) None None
    (get_repo_license gh (org cfg) repo_name) (Some name) fetched_at
    (lit "Release notes: github.com/" ++ org cfg ++ lit "/" ++ repo_name)
    ch Text idx count
    (if add_token_estimates cfg then Some (approx_tokens ch) else None)
    (if add_hash cfg then Some (sha256_text lib ch) else None).

(** [rel.get("name") or rel.get("tag_name")] *)
Definition release_title (rel : release) : option str :=
  or_else (rel_name rel) (rel_tag_name rel).

(** One release of the release loop; [None]: an exception leaves it. *)
Definition release_records (lib : PyLib) (gh : GitHub) (cfg : Config) (fetched_at : str)
    (repo_name : str) (rel : release) : option (list record) :=
  match release_title rel with
  | None | Some [] => Some []
  | Some name =>
      let body := match or_else (rel_body rel) (Some []) with Some b => b | None => [] end in
      let text := lit "# " ++ name ++ NLNL ++ lit "Published: "
                    ++ fmt_opt (rel_published_at rel) ++ NLNL ++ body in
      match split_into_chunks text (target_chars cfg) (hard_max_chars cfg)
              (min_chars cfg) with
      | None => None
      | Some chunks =>
          Some (chunk_records
                  (release_record lib gh cfg fetched_at repo_name name
                     (rel_html_url rel) (length chunks)) chunks)
      end
  end.

(** The [while True] over the pages of releases of one repository: the
    records appended and whether an exception ended it. *)
Fixpoint release_pages (fuel : nat) (lib : PyLib) (gh : GitHub) (cfg : Config)
    (fetched_at : str) (repo_name : str) (page : nat) : res (list record * bool) :=
  match fuel with
  | O => NoFuel
  | S fuel' =>
      match releases_page gh (org cfg) repo_name page with
      | None => Ret ([], true)
      | Some [] => Ret ([], false)
      | Some rels =>
          let '(rs, raised) :=
            records_until_raise (release_records lib gh cfg fetched_at repo_name) rels in
          if raised then Ret (rs, true)
          else
            more <- release_pages fuel' lib gh cfg fetched_at repo_name (S page) ;;
            Ret (rs ++ fst more, snd more)
      end
  end.

Fixpoint releases_phase (fuel : nat) (lib : PyLib) (gh : GitHub) (cfg : Config)
    (fetched_at : str) (repo_names : list str) : res (list record * list warning) :=
  match repo_names with
  | [] => Ret ([], [])
  | repo_name :: rest =>
      one <- release_pages fuel lib gh cfg fetched_at repo_name 1 ;;
      more <- releases_phase fuel lib gh cfg fetched_at rest ;;
      Ret (fst one ++ fst more,
           (if snd one then [WarnReleases repo_name] else []) ++ snd more)
  end.

(** [build_corpus]: the records written to the corpus file, in order, and
    the warnings printed.  [fetched_at] is the clock reading [now_iso()]. *)
Definition build_corpus (lib : PyLib) (web : Web) (gh : GitHub) (cfg : Config)
    (fetched_at : str) (fuel : nat) : res (list record * list warning) :=
  let base := rstrip_chars (lit "/") (docs_base cfg) in
  doc_urls <- discover_doc_urls lib web fuel base (doc_seeds cfg) ;;
  let '(docs_recs, docs_warns) := docs_phase lib web cfg fetched_at doc_urls in
  listed <- list_org_repos fuel gh (org cfg) 1 ;;
  let include := if is_nil (include_repos cfg) then listed else include_repos cfg in
  let names := filter (fun n => negb (mem n (exclude_repos cfg))) include in
  let '(repo_recs, repo_warns) := repos_phase lib gh cfg fetched_at names in
  rel <- releases_phase fuel lib gh cfg fetched_at (releases_include_from cfg) ;;
  Ret (docs_recs ++ repo_recs ++ fst rel, docs_warns ++ repo_warns ++ snd rel).

(** *** The attribution roll-up *)

(** [for r in records] of the roll-up, on [at_lines] and [seen_attr]. *)
Fixpoint attribution_loop (records : list record) (at_lines seen_attr : list str)
    : list str * list str :=
  match records with
  | [] => (at_lines, seen_attr)
  | r :: rest =>
      let a := rec_attribution r in
      if negb (is_nil a) && negb (mem a seen_attr)
      then attribution_loop rest (at_lines ++ [a]) (set_add a seen_attr)
      else attribution_loop rest at_lines seen_attr
  end.

(** The lines joined into [ATTRIBUTION.txt]: [sorted(at_lines)]. *)
Definition attribution_lines (records : list record) : list str :=
  sorted (fst (attribution_loop records [] [])).

(** The text of [ATTRIBUTION.txt]. *)
Definition attribution_text (records : list record) : str :=
  join [LF] (attribution_lines records) ++ [LF].

(** *** The files written *)

(** The file system as the builder sees it: whether
    [write_jsonl(out_path, records)], and whether opening a file and
    writing a text to it, end without an exception. *)
Record Files := mkFiles {
  write_jsonl : str -> list record -> bool;
  write_text : str -> str -> bool
}.

(** [build_corpus(cfg, out_path)] to its end: the records are computed,
    the corpus file is written, then [ATTRIBUTION.txt]. *)
Definition build_corpus_run (lib : PyLib) (web : Web) (gh : GitHub) (cfg : Config)
    (fetched_at : str) (fuel : nat) (fs : Files) (out_path : str)
    : res (list record * list warning) :=
  run <- build_corpus lib web gh cfg fetched_at fuel ;;
  if write_jsonl fs out_path (fst run) then
    if write_text fs (lit "ATTRIBUTION.txt") (attribution_text (fst run))
    then Ret run
    else Raise
  else Raise.

(** *** Record ids *)

(** The id of the chunk of index [idx] of the document with id prefix
    [prefix]. *)
Definition chunk_id (prefix : str) (idx : nat) : str :=
  prefix ++ lit "::chunk-" ++ decimal (idx + 1).

Definition docs_prefix (u : str) : str := lit "docs::" ++ u.

Definition repo_prefix (name path sha : str) : str :=
  lit "repo::" ++ name ++ lit "::" ++ path ++ lit "::" ++ firstn 8 sha.

Definition release_prefix (repo_name name : str) : str :=
  lit "release::" ++ repo_name ++ lit "::" ++ name.

Definition is_digit (c : char) : Prop := (48 <= c <= 57)%N.

(** The number a list of digits, units first, stands for. *)
Fixpoint value_le (ds : str) : nat :=
  match ds with
  | [] => 0
  | d :: r => (N.to_nat d - 48) + 10 * value_le r
  end.

Definition no_colon (s : str) : Prop := Forall (fun c => c <> COLON) s.

(** The path of a tree entry when it is a blob, as the repository loop
    reads it. *)
Definition node_key (node : tree_node) : list str :=
  if str_eqb (node_type node) (lit "blob")
  then [match node_path node with Some p => p | None => [] end]
  else [].

Definition blob_paths (tree : list tree_node) : list str := flat_map node_key tree.

(** The name of a release when the release loop keeps it. *)
Definition release_key (rel : release) : list str :=
  match release_title rel with
  | Some (c :: t) => [c :: t]
  | _ => []
  end.

Definition page_titles (rels : list release) : list str := flat_map release_key rels.

(** Records in blocks, each block under a key of its own taken in order
    from a list of keys, some keys without a block. *)
Inductive keyed (Q : str -> record -> Prop) : list str -> list record -> Prop :=
| keyed_nil ks : keyed Q ks []
| keyed_skip k ks rs : keyed Q ks rs -> keyed Q (k :: ks) rs
| keyed_block k ks recs rs :
    (forall r, In r recs -> Q k r) -> NoDup (map rec_id recs) ->
    keyed Q ks rs -> keyed Q (k :: ks) (recs ++ rs).

(** The release names on the [n] pages from [page] on. *)
Definition titles_from (gh : GitHub) (org repo_name : str) (page n : nat) : list str :=
  flat_map (fun p => match releases_page gh org repo_name p with
                     | Some rels => page_titles rels
                     | None => []
                     end) (seq page n).

(** The repositories [build_corpus] ingests. *)
Definition ingested_repos (cfg : Config) (listed : list str) : list str :=
  filter (fun n => negb (mem n (exclude_repos cfg)))
    (if is_nil (include_repos cfg) then listed else include_repos cfg).

(** What the records of each loop look like. *)
Definition docs_rec (lib : PyLib) (web : Web) (cfg : Config) (fetched_at : str)
    (u : str) (r : record) : Prop :=
  rec_source_type r = Docs /\ rec_url r = Some u
  /\ (exists i, rec_id r = chunk_id (docs_prefix u) i)
  /\ exists recs, doc_page_records lib web cfg fetched_at u = Some recs /\ In r recs.

Definition repo_file_rec (name sha path : str) (r : record) : Prop :=
  rec_source_type r = Repo /\ exists i, rec_id r = chunk_id (repo_prefix name path sha) i.

Definition repo_rec (name : str) (r : record) : Prop :=
  rec_source_type r = Repo
  /\ exists rest i, rec_id r = chunk_id (lit "repo::" ++ name ++ lit "::" ++ rest) i.

Definition release_title_rec (repo_name title : str) (r : record) : Prop :=
  rec_source_type r = Release
  /\ exists i, rec_id r = chunk_id (release_prefix repo_name title) i.

Definition release_rec (repo_name : str) (r : record) : Prop :=
  rec_source_type r = Release
  /\ exists rest i, rec_id r = chunk_id (lit "release::" ++ repo_name ++ lit "::" ++ rest) i.

(** ** Scenarios *)

(** A small documentation site, a small GitHub organisation and a
    configuration, used to run the builder on concrete inputs.  The
    library functions of the scenarios work on ASCII texts and on pages
    made of one block without links. *)
Definition ascii_lower (s : str) : str :=
  map (fun c => if ((65 <=? c) && (c <=? 90))%N then (c + 32)%N else c) s.

Definition demo_lib : PyLib :=
  mkPyLib (fun base ref => base ++ ref) ascii_lower (fun _ => [])
    (fun body => body) (fun xml => splitlines xml)
    (fun _ => []) (fun _ => None) (fun html => [html]).

Definition demo_robots : str :=
  lit "User-agent: *" ++ [LF] ++ lit "Sitemap: https://opentdf.io/sitemap.xml" ++ [LF].

Definition demo_long_page : str :=
  lit "OpenTDF" ++ NLNL ++ repeat 97%N 150 ++ NLNL ++ repeat 98%N 150.

(** A server that answers every request on a URL the same way. *)
Definition serves (pages : list (string * str)) : Web :=
  mkWeb (fun url _ =>
           match find (fun p => str_eqb url (lit (fst p))) pages with
           | Some p => Responded (mkResponse 200 (snd p))
           | None => Responded (mkResponse 404 [])
           end).

(** [robots.txt] declares a sitemap index; the nested sitemap lists two
    documentation pages, one of them a stub.  (The library of the
    scenarios reads a sitemap as one location per line.) *)
Definition demo_web : Web :=
  serves
    [("https://opentdf.io/robots.txt"%string, demo_robots);
     ("https://opentdf.io/introduction"%string, demo_long_page);
     ("https://opentdf.io/spec/stub"%string, lit "Coming soon.");
     ("https://opentdf.io/sitemap.xml"%string,
      lit "https://opentdf.io/sitemap-docs.xml" ++ [LF] ++ lit "https://opentdf.io/blog/news");
     ("https://opentdf.io/sitemap-docs.xml"%string,
      lit "https://opentdf.io/spec/stub" ++ [LF] ++ lit "https://opentdf.io/introduction")].

(** The same site whose sitemap lists nothing of the documentation. *)
Definition demo_web_no_sitemap : Web :=
  serves
    [("https://opentdf.io/robots.txt"%string, demo_robots);
     ("https://opentdf.io/introduction"%string, demo_long_page);
     ("https://opentdf.io/sitemap.xml"%string, lit "https://opentdf.io/blog/news")].

(** A library that also reads the anchors of a page, one per line, and
    resolves a reference that starts with a slash against the root of
    the site of the scenarios. *)
Definition demo_lib_links : PyLib :=
  mkPyLib
    (fun base ref =>
       if startswith (lit "/") ref then lit "https://opentdf.io" ++ ref else base ++ ref)
    ascii_lower (fun _ => [])
    (fun body => body) (fun xml => splitlines xml)
    (fun html => splitlines html) (fun _ => None) (fun html => [html]).

(** A site with cycles: the sitemap declared by [robots.txt] and the
    sitemap index name each other and list no documentation page; the
    introduction links to a page of the specification, to a fragment, to
    the blog and to itself; the page of the specification links back to
    the introduction and to a page that is missing. *)
Definition demo_web_cyclic : Web :=
  serves
    [("https://opentdf.io/robots.txt"%string, demo_robots);
     ("https://opentdf.io/sitemap.xml"%string,
      lit "https://opentdf.io/sitemap_index.xml" ++ [LF] ++ lit "https://opentdf.io/blog/news");
     ("https://opentdf.io/sitemap_index.xml"%string, lit "https://opentdf.io/sitemap.xml");
     ("https://opentdf.io/introduction"%string,
      lit " https://opentdf.io/spec/a " ++ [LF] ++ lit "#top" ++ [LF]
        ++ lit "https://opentdf.io/blog/news" ++ [LF] ++ lit "/introduction");
     ("https://opentdf.io/spec/a"%string,
      lit "https://opentdf.io/introduction" ++ [LF] ++ lit "/spec/b")].

Definition demo_readme : str := repeat 97%N 900 ++ NLNL ++ repeat 98%N 900.

Definition demo_release (name tag : string) : release :=
  mkRelease (Some (lit name)) (Some (lit tag)) (Some (lit "Bug fixes."))
    (Some (lit "https://github.com/opentdf/platform/releases/tag/" ++ lit tag))
    (Some (lit "2024-05-01T12:00:00Z")).

(** Two repositories, each with a [README.md] of two chunks; the release
    pages are given apart. *)
Definition demo_github (releases : list release) : GitHub :=
  mkGitHub
    (fun _ page => if (page =? 1)%nat then Some [lit "platform"; lit "spec"] else Some [])
    (fun _ _ => Some (lit "BSD-3-Clause-Clear"))
    (fun _ _ => Some (lit "main", Some (lit "8f3a1c2d9e0b7a65")))
    (fun _ _ _ => Some [mkNode (lit "tree") (Some (lit "docs")) None;
                        mkNode (lit "blob") (Some (lit "README.md")) (Some 1802)])
    (fun _ _ _ _ => Some demo_readme)
    (fun _ _ page => if (page =? 1)%nat then Some releases else Some []).

(** GitHub answering the listing of the repositories and nothing else. *)
Definition demo_github_listing_only : GitHub :=
  mkGitHub
    (fun _ page => if (page =? 1)%nat then Some [lit "platform"; lit "spec"] else Some [])
    (fun _ _ => None) (fun _ _ => None) (fun _ _ _ => None) (fun _ _ _ _ => None)
    (fun _ _ _ => None).

Definition demo_config : Config :=
  mkConfig (lit "https://opentdf.io/") [lit "/introduction"]
    1000 1000 1200 200 true false
    (lit "opentdf") [] [] [lit ".md"] 0 [lit "**/node_modules/**"] [lit "platform"].

Definition demo_now : str := lit "2024-05-01T12:00:00Z".

(** Duplicate-free lists, decided. *)
Fixpoint nodupb (l : list str) : bool :=
  match l with
  | [] => true
  | x :: r => negb (mem x r) && nodupb r
  end.

(** The regular expression of a glob, token by token: after the first
    replacement ([glob_stage1]) and after the second ([glob_stage2]), and
    the parsed expression ([glob_item]). *)
Definition glob_stage1 (t : glob_token) : str :=
  match t with
  | GLit c => escape_char c
  | GStar => [BSLASH; STAR]
  | GStarStar => [DOT; STAR]
  end.

Definition glob_stage2 (t : glob_token) : str :=
  match t with
  | GLit c => escape_char c
  | GStar => [LBRACKET; CARET; SLASH; RBRACKET; STAR]
  | GStarStar => [DOT; STAR]
  end.

Definition glob_item (t : glob_token) : rx_item :=
  match t with
  | GLit c => RLit c
  | GStar => RNotSlashStar
  | GStarStar => RAnyStar
  end.

(** ** Measures of the discovery loops *)

(** The link target of an anchor [h] of the page at [u], as the fallback
    crawl computes it. *)
Definition href_target (lib : PyLib) (u h : str) : str :=
  let href := strip h in
  if startswith (lit "http") href then href else urijoin lib u href.

(** How many queue entries the visit of a sitemap, of a page, can add:
    the number of its locations, of its anchors. *)
Definition sitemap_cost (lib : PyLib) (web : Web) (sm : str) : nat :=
  match _fetch_and_parse_sitemap lib web sm with
  | Some locs => length locs
  | None => 0%nat
  end.

Definition page_cost (lib : PyLib) (web : Web) (u : str) : nat :=
  match http_get_result (net web u) u with
  | Some resp => length (html_hrefs lib (resp_text resp))
  | None => 0%nat
  end.

(** What the URLs of [universe] not yet visited can still add. *)
Definition pending (cost : str -> nat) (universe visited : list str) : nat :=
  list_sum (map cost (filter (fun u => negb (mem u visited)) universe)).

(** ** What the two phases of the discovery are to find *)

(** A location the sitemap loop takes for a nested sitemap. *)
Definition is_sitemap_name (loc : str) : bool :=
  endswith (lit ".xml") loc || endswith (lit ".xml.gz") loc.

(** [robots.txt] can be fetched and declares the sitemap [sm]: one of
    its lines starts with [sitemap:], in any case, and [sm] is what
    follows the first colon of that line, stripped. *)
Definition robots_declares (lib : PyLib) (web : Web) (base sm : str) : Prop :=
  exists txt line rest,
    _fetch_text web (urijoin lib base (lit "/robots.txt")) = Some txt
    /\ In line (splitlines txt)
    /\ startswith (lit "sitemap:") (str_lower lib line) = true
    /\ after_first COLON line = Some rest
    /\ sm = strip rest.

(** The sitemaps of a site: those [robots.txt] declares, the well-known
    candidates, and the nested sitemaps named by a sitemap that can be
    fetched. *)
Inductive sitemap_reach (lib : PyLib) (web : Web) (base : str) : str -> Prop :=
| reach_robots sm : robots_declares lib web base sm -> sitemap_reach lib web base sm
| reach_candidate c :
    In c SITEMAP_CANDIDATES -> sitemap_reach lib web base (urijoin lib base c)
| reach_nested sm locs loc :
    sitemap_reach lib web base sm ->
    _fetch_and_parse_sitemap lib web sm = Some locs ->
    In loc locs -> is_sitemap_name loc = true ->
    sitemap_reach lib web base loc.

(** The allowlisted locations the sitemaps of the site list. *)
Definition sitemap_listed (lib : PyLib) (web : Web) (base u : str) : Prop :=
  exists sm locs,
    sitemap_reach lib web base sm
    /\ _fetch_and_parse_sitemap lib web sm = Some locs
    /\ In u locs /\ is_sitemap_name u = false /\ _is_docs_url u base = true.

(** The page [u] can be fetched and has an anchor, other than a
    fragment, whose target [v] is allowlisted. *)
Definition follows (lib : PyLib) (web : Web) (base u v : str) : Prop :=
  exists resp h,
    http_get_result (net web u) u = Some resp
    /\ In h (html_hrefs lib (resp_text resp))
    /\ startswith (lit "#") (strip h) = false
    /\ v = href_target lib u h
    /\ _is_docs_url v base = true.

(** The URLs the seeds lead to: the seeds resolved against the base,
    and what a chain of such anchors reaches from them. *)
Inductive crawl_reach (lib : PyLib) (web : Web) (base : str) (seeds : list str)
    : str -> Prop :=
| reach_seed s : In s seeds -> crawl_reach lib web base seeds (urijoin lib base s)
| reach_link u v :
    crawl_reach lib web base seeds u -> follows lib web base u v ->
    crawl_reach lib web base seeds v.

(** The allowlisted pages the seeds lead to and that can be fetched. *)
Definition crawled (lib : PyLib) (web : Web) (base : str) (seeds : list str) (u : str)
    : Prop :=
  crawl_reach lib web base seeds u
  /\ http_get_result (net web u) u <> None
  /\ _is_docs_url u base = true.

(** The invariant of the sitemap loop: the queue and the set of the
    sitemaps seen hold sitemaps of the site only, and all those declared
    or well known; [found] holds what the sitemaps seen list; a nested
    sitemap named by a sitemap seen is seen or queued. *)
Definition sitemap_inv (lib : PyLib) (web : Web) (base : str)
    (to_visit seen found : list str) : Prop :=
  (forall sm, In sm to_visit -> sitemap_reach lib web base sm)
  /\ (forall sm, In sm seen -> sitemap_reach lib web base sm)
  /\ (forall u, In u found <->
        exists sm locs,
          In sm seen /\ _fetch_and_parse_sitemap lib web sm = Some locs
          /\ In u locs /\ is_sitemap_name u = false /\ _is_docs_url u base = true)
  /\ (forall sm locs loc,
        In sm seen -> _fetch_and_parse_sitemap lib web sm = Some locs ->
        In loc locs -> is_sitemap_name loc = true -> In loc seen \/ In loc to_visit)
  /\ (forall sm,
        robots_declares lib web base sm
        \/ (exists c, In c SITEMAP_CANDIDATES /\ sm = urijoin lib base c) ->
        In sm seen \/ In sm to_visit).

(** The invariant of the crawl: the queue and the set of the pages
    visited hold URLs the seeds lead to only, and all the seeds; [found]
    holds the allowlisted pages visited that could be fetched; what a
    page visited links to is visited or queued. *)
Definition crawl_inv (lib : PyLib) (web : Web) (base : str) (seeds : list str)
    (dq visited found : list str) : Prop :=
  (forall u, In u dq -> crawl_reach lib web base seeds u)
  /\ (forall u, In u visited -> crawl_reach lib web base seeds u)
  /\ (forall u, In u found <->
        In u visited /\ http_get_result (net web u) u <> None
        /\ _is_docs_url u base = true)
  /\ (forall u v, In u visited -> follows lib web base u v ->
        In v visited \/ In v dq)
  /\ (forall s, In s seeds ->
        In (urijoin lib base s) visited \/ In (urijoin lib base s) dq).

(** ** Predicates used in the proofs *)

(** The records of one document: of a documentation page, of a file of
    a repository, of a release. *)
Definition document_records (lib : PyLib) (web : Web) (gh : GitHub) (cfg : Config)
    (fetched_at : str) (recs : list record) : Prop :=
  (exists u, doc_page_records lib web cfg fetched_at u = Some recs)
  \/ (exists name branch sha lic node,
        node_records lib gh cfg fetched_at name branch sha lic node = Some recs)
  \/ (exists repo_name rel,
        release_records lib gh cfg fetched_at repo_name rel = Some recs).

(** What the chunk of a record leaves in its other fields. *)
Definition chunk_fields (lib : PyLib) (cfg : Config) (fetched_at : str)
    (chunks : list str) (r : record) : Prop :=
  nth_error chunks (rec_chunk_index r) = Some (rec_content r)
  /\ rec_chunk_count r = length chunks
  /\ rec_fetched_at r = fetched_at
  /\ rec_approx_tokens r
     = (if add_token_estimates cfg then Some (approx_tokens (rec_content r)) else None)
  /\ rec_hash r
     = (if add_hash cfg then Some (sha256_text lib (rec_content r)) else None).

(** A record made of a chunk of a text split with one of the two targets
    of the configuration. *)
Definition record_origin (lib : PyLib) (cfg : Config) (fetched_at : str)
    (r : record) : Prop :=
  exists text target chunks,
    (target = target_chars cfg \/ target = code_target_chars cfg)
    /\ split_into_chunks text target (hard_max_chars cfg) (min_chars cfg) = Some chunks
    /\ chunk_fields lib cfg fetched_at chunks r.

(** What a warning of a run with a hard maximum other than 0 stands
    for: a page that cannot be fetched; a repository whose branch or
    tree cannot be fetched, or whose branch reference has no sha; a
    repository one of whose pages of releases cannot be fetched. *)
Definition fetch_failure (web : Web) (gh : GitHub) (cfg : Config) (w : warning) : Prop :=
  match w with
  | WarnDocs u => http_get_result (net web u) u = None
  | WarnRepo name =>
      get_default_branch_sha gh (org cfg) name = None
      \/ (exists branch, get_default_branch_sha gh (org cfg) name = Some (branch, None))
      \/ (exists branch sha,
            get_default_branch_sha gh (org cfg) name = Some (branch, sha)
            /\ list_repo_tree gh (org cfg) name sha = None)
  | WarnReleases repo_name =>
      exists page, releases_page gh (org cfg) repo_name page = None
  end.

(** A record of what the configuration selects: a page of the
    documentation sections under the base; a file of a repository that
    is included and not excluded, with an extension of [include_exts]
    and a path no exclude glob matches; a release of a repository of
    [releases.include_from].  [listed] are the repositories of the
    organisation. *)
Definition in_scope (lib : PyLib) (cfg : Config) (listed : list str) (r : record)
    : Prop :=
  match rec_source_type r with
  | Docs =>
      exists u, rec_url r = Some u
        /\ _is_docs_url u (rstrip_chars (lit "/") (docs_base cfg)) = true
  | Repo =>
      exists name path,
        rec_repo r = Some (org cfg ++ lit "/" ++ name) /\ rec_path r = Some path
        /\ In name (if is_nil (include_repos cfg) then listed else include_repos cfg)
        /\ ~ In name (exclude_repos cfg)
        /\ (include_exts cfg = []
            \/ In (str_lower lib (splitext_ext path)) (include_exts cfg))
        /\ path_excluded (exclude_path_globs cfg) path = Some false
  | Release =>
      exists repo_name,
        rec_repo r = Some (org cfg ++ lit "/" ++ repo_name)
        /\ In repo_name (releases_include_from cfg)
  end.

(** A location the sitemap loop does not take for a nested sitemap. *)
Definition not_sitemap_name (u : str) : Prop :=
  endswith (lit ".xml") u = false /\ endswith (lit ".xml.gz") u = false.

(** A text made of white space only. *)
Definition all_space (s : str) : Prop := Forall (fun c => isspace c = true) s.

(** The loop invariant behind the size bound: every emitted chunk is within
    [hard_max], and a non-empty buffer joins to at most [cur <= hard_max]
    characters. *)
Definition bounded_state (hard_max : Z) (st : chunker) : Prop :=
  Forall (fun c => len c <= hard_max) (chunks st)
  /\ 0 <= cur st
  /\ (buf st = [] \/ (len (join NLNL (buf st)) <= cur st /\ cur st <= hard_max)).

(** A token list without a literal star: what [glob_tokens] produces. *)
Definition star_free (ts : list glob_token) : Prop :=
  Forall (fun t => t <> GLit STAR) ts.

(** The order of [sorted] as a relation. *)
Definition str_le (a b : str) : Prop := str_leb a b = true.

(* ================================================================== *)
(** * Part II: properties *)
(* ================================================================== *)

(** ** Sanity checks of the string primitives *)

Example re_split_ex :
  re_split_paras (lit "ab" ++ [LF; LF; LF] ++ lit "c" ++ [LF] ++ lit "d" ++ [LF; LF])
  = [lit "ab"; lit "c" ++ [LF] ++ lit "d"; []].
Proof. reflexivity. Qed.

Example clean_text_ex :
  clean_text ([SP; TAB] ++ lit "a" ++ [CR; LF; CR; LF; CR; CR] ++ lit "b  c" ++ [TAB; LF])
  = lit "a" ++ [LF; LF] ++ lit "b c".
Proof. reflexivity. Qed.

Example range_step_ex : range_step 11 3 = [0; 3; 6; 9]%nat.
Proof. reflexivity. Qed.

(** ** Stripping *)

Lemma lstrip_head (s : str) :
  lstrip s = [] \/ exists c t, lstrip s = c :: t /\ isspace c = false.
Proof.
  induction s as [|c t IH]; simpl; [now left|].
  destruct (isspace c) eqn:E; [exact IH|].
  right. now exists c, t.
Qed.

Lemma rstrip_cons (c : char) (t : str) :
  rstrip (c :: t) = [] /\ isspace c = true /\ rstrip t = []
  \/ rstrip (c :: t) = [c] /\ isspace c = false /\ rstrip t = []
  \/ rstrip (c :: t) = c :: rstrip t /\ rstrip t <> [].
Proof.
  simpl. destruct (rstrip t) eqn:E.
  - destruct (isspace c); [left|right; left]; auto.
  - right; right. split; [reflexivity|discriminate].
Qed.

Lemma rstrip_nonspace_head (c : char) (t : str) :
  isspace c = false -> exists r, rstrip (c :: t) = c :: r.
Proof.
  intros H. destruct (rstrip_cons c t) as [(_ & E & _)|[(E & _)|(E & _)]].
  - congruence.
  - now exists [].
  - now exists (rstrip t).
Qed.

Lemma rstrip_idem (s : str) : rstrip (rstrip s) = rstrip s.
Proof.
  induction s as [|c t IH]; [reflexivity|].
  destruct (rstrip_cons c t) as [(E & _)|[(E & Hc & _)|(E & Hne)]]; rewrite E.
  - reflexivity.
  - simpl. now rewrite Hc.
  - simpl. rewrite IH. destruct (rstrip t); [contradiction|reflexivity].
Qed.

Lemma lstrip_strip (s : str) : lstrip (strip s) = strip s.
Proof.
  unfold strip. destruct (lstrip_head s) as [E|(c & t & E & Hc)]; rewrite E.
  - reflexivity.
  - destruct (rstrip_nonspace_head c t Hc) as [r Hr]. rewrite Hr.
    simpl. now rewrite Hc.
Qed.

Lemma strip_idem (s : str) : strip (strip s) = strip s.
Proof.
  unfold strip at 1. rewrite lstrip_strip. unfold strip. apply rstrip_idem.
Qed.

Lemma lstrip_length (s : str) : (length (lstrip s) <= length s)%nat.
Proof.
  induction s as [|c t IH]; simpl; [lia|].
  destruct (isspace c); simpl; lia.
Qed.

Lemma rstrip_length (s : str) : (length (rstrip s) <= length s)%nat.
Proof.
  induction s as [|c t IH]; simpl; [lia|].
  destruct (rstrip t); [destruct (isspace c)|]; simpl in *; lia.
Qed.

Lemma strip_length (s : str) : (length (strip s) <= length s)%nat.
Proof.
  unfold strip. pose proof (rstrip_length (lstrip s)). pose proof (lstrip_length s). lia.
Qed.

Lemma lstrip_Forall (P : char -> Prop) (s : str) :
  Forall P s -> Forall P (lstrip s).
Proof.
  induction 1 as [|c t Hc Ht IH]; simpl; [constructor|].
  destruct (isspace c); [exact IH|now constructor].
Qed.

Lemma rstrip_Forall (P : char -> Prop) (s : str) :
  Forall P s -> Forall P (rstrip s).
Proof.
  induction 1 as [|c t Hc Ht IH]; simpl; [constructor|].
  destruct (rstrip t); [destruct (isspace c)|]; constructor; auto.
Qed.

Lemma blank_isspace (c : char) : is_blank c = true -> isspace c = true.
Proof.
  unfold is_blank. rewrite orb_true_iff, !N.eqb_eq.
  intros [->| ->]; reflexivity.
Qed.

Lemma LF_isspace (c : char) : (c =? LF)%N = true -> isspace c = true.
Proof. rewrite N.eqb_eq. intros ->. reflexivity. Qed.

(** ** Normalization *)

Lemma sub_crlf_no_cr_upto (n : nat) :
  forall s, (length s <= n)%nat -> no_cr (sub_crlf s).
Proof.
  induction n as [|n IH]; intros [|c t] Hl; simpl in *; try (constructor; fail); try lia.
  destruct (c =? CR)%N eqn:E.
  - constructor; [discriminate|].
    destruct t as [|c2 t2]; [constructor|].
    destruct (c2 =? LF)%N; apply IH; simpl in *; lia.
  - constructor; [now apply N.eqb_neq|]. apply IH. lia.
Qed.

Lemma sub_crlf_no_cr (s : str) : no_cr (sub_crlf s).
Proof. now apply (sub_crlf_no_cr_upto (length s)). Qed.

Lemma sub_crlf_fixed (s : str) : no_cr s -> sub_crlf s = s.
Proof.
  induction 1 as [|c t Hc Ht IH]; simpl; [reflexivity|].
  apply N.eqb_neq in Hc. now rewrite Hc, IH.
Qed.

Lemma sub_blanks_no_cr (b : bool) (s : str) : no_cr s -> no_cr (sub_blanks_from b s).
Proof.
  intros H. revert b. induction H as [|c t Hc Ht IH]; intros b; simpl; [constructor|].
  destruct (is_blank c); [destruct b|]; try apply IH;
    constructor; try apply IH; auto; intro; discriminate.
Qed.

Lemma sub_newlines_no_cr (k : nat) (s : str) : no_cr s -> no_cr (sub_newlines_from k s).
Proof.
  intros H. revert k. induction H as [|c t Hc Ht IH]; intros k; simpl; [constructor|].
  destruct (c =? LF)%N; [destruct (k <? 2)%nat|]; try apply IH;
    constructor; try apply IH; auto; intro; discriminate.
Qed.

Lemma sub_blanks_ok (b : bool) (s : str) : blanks_ok b (sub_blanks_from b s).
Proof.
  revert b. induction s as [|c t IH]; intros b; simpl; [exact I|].
  destruct (is_blank c) eqn:E.
  - destruct b; [apply IH|]. simpl. auto.
  - simpl. rewrite E. apply IH.
Qed.

Lemma sub_blanks_fixed (b : bool) (s : str) : blanks_ok b s -> sub_blanks_from b s = s.
Proof.
  revert b. induction s as [|c t IH]; intros b H; simpl in *; [reflexivity|].
  destruct (is_blank c).
  - destruct H as (-> & -> & H). now rewrite IH.
  - now rewrite IH.
Qed.

Lemma blanks_ok_weaken (b : bool) (s : str) : blanks_ok b s -> blanks_ok false s.
Proof.
  destruct s as [|c t]; simpl; [auto|].
  destruct (is_blank c); [|auto]. intros (-> & _ & H). auto.
Qed.

Lemma blanks_ok_tail (b : bool) (c : char) (t : str) :
  blanks_ok b (c :: t) -> blanks_ok false t.
Proof.
  simpl. destruct (is_blank c).
  - intros (_ & _ & H). now apply blanks_ok_weaken in H.
  - auto.
Qed.

Lemma blanks_ok_lstrip (b : bool) (s : str) : blanks_ok b s -> blanks_ok false (lstrip s).
Proof.
  revert b. induction s as [|c t IH]; intros b H; [exact I|].
  simpl. destruct (isspace c) eqn:E.
  - apply (IH false). now apply blanks_ok_tail in H.
  - now apply blanks_ok_weaken in H.
Qed.

Lemma blanks_ok_rstrip (b : bool) (s : str) : blanks_ok b s -> blanks_ok b (rstrip s).
Proof.
  revert b. induction s as [|c t IH]; intros b H; [exact I|].
  destruct (rstrip_cons c t) as [(E & _)|[(E & Hc & _)|(E & _)]]; rewrite E.
  - exact I.
  - simpl. destruct (is_blank c) eqn:Eb; [|exact I].
    apply blank_isspace in Eb. congruence.
  - simpl in *. destruct (is_blank c).
    + destruct H as (? & ? & H). auto.
    + auto.
Qed.

Lemma blanks_ok_sub_newlines (k : nat) (b : bool) (s : str) :
  (b = true -> k = 0%nat) -> blanks_ok b s -> blanks_ok b (sub_newlines_from k s).
Proof.
  revert k b. induction s as [|c t IH]; intros k b Hk H; [exact I|].
  simpl in *. destruct (c =? LF)%N eqn:E.
  - apply N.eqb_eq in E. subst c. simpl in H.
    destruct (k <? 2)%nat eqn:Ek.
    + simpl. apply IH; [discriminate|exact H].
    + destruct b; [specialize (Hk eq_refl); subst k; discriminate|].
      apply IH; [discriminate|exact H].
  - simpl. destruct (is_blank c).
    + destruct H as (? & ? & H). repeat split; auto.
    + apply IH; [discriminate|exact H].
Qed.

Lemma sub_newlines_ok (k : nat) (s : str) : newlines_ok k (sub_newlines_from k s).
Proof.
  revert k. induction s as [|c t IH]; intros k; simpl; [exact I|].
  destruct (c =? LF)%N eqn:E.
  - destruct (k <? 2)%nat eqn:Ek; [|apply IH].
    simpl. apply Nat.ltb_lt in Ek. split; [exact Ek|apply IH].
  - simpl. rewrite E. apply IH.
Qed.

Lemma sub_newlines_fixed (k : nat) (s : str) : newlines_ok k s -> sub_newlines_from k s = s.
Proof.
  revert k. induction s as [|c t IH]; intros k H; simpl in *; [reflexivity|].
  destruct (c =? LF)%N eqn:E.
  - destruct H as (Hk & H). apply Nat.ltb_lt in Hk. rewrite Hk.
    apply N.eqb_eq in E. subst c. now rewrite IH.
  - now rewrite IH.
Qed.

Lemma newlines_ok_weaken (k k' : nat) (s : str) :
  (k' <= k)%nat -> newlines_ok k s -> newlines_ok k' s.
Proof.
  revert k k'. induction s as [|c t IH]; intros k k' Hk H; simpl in *; [exact I|].
  destruct (c =? LF)%N; [|exact H].
  destruct H as (? & H). split; [lia|]. apply (IH (S k)); [lia|exact H].
Qed.

Lemma newlines_ok_tail (k : nat) (c : char) (t : str) :
  newlines_ok k (c :: t) -> newlines_ok 0 t.
Proof.
  simpl. destruct (c =? LF)%N; [|auto].
  intros (_ & H). apply (newlines_ok_weaken (S k)); [lia|exact H].
Qed.

Lemma newlines_ok_lstrip (k : nat) (s : str) : newlines_ok k s -> newlines_ok 0 (lstrip s).
Proof.
  revert k. induction s as [|c t IH]; intros k H; [exact I|].
  simpl. destruct (isspace c) eqn:E.
  - apply (IH 0%nat). now apply newlines_ok_tail in H.
  - apply (newlines_ok_weaken k); [lia|exact H].
Qed.

Lemma newlines_ok_rstrip (k : nat) (s : str) : newlines_ok k s -> newlines_ok k (rstrip s).
Proof.
  revert k. induction s as [|c t IH]; intros k H; [exact I|].
  destruct (rstrip_cons c t) as [(E & _)|[(E & Hc & _)|(E & _)]]; rewrite E.
  - exact I.
  - simpl. destruct (c =? LF)%N eqn:El; [|exact I].
    apply LF_isspace in El. congruence.
  - simpl in *. destruct (c =? LF)%N.
    + destruct H as (? & H). auto.
    + auto.
Qed.

(** The result of [clean_text] is in normal form for each of its passes. *)
Lemma clean_text_normal (s : str) :
  no_cr (clean_text s) /\ blanks_ok false (clean_text s) /\ newlines_ok 0 (clean_text s).
Proof.
  unfold clean_text, strip, sub_newlines, sub_blanks. repeat split.
  - apply rstrip_Forall, lstrip_Forall, sub_newlines_no_cr, sub_blanks_no_cr, sub_crlf_no_cr.
  - apply blanks_ok_rstrip, (blanks_ok_lstrip false), blanks_ok_sub_newlines;
      [discriminate|apply sub_blanks_ok].
  - apply newlines_ok_rstrip, (newlines_ok_lstrip 0), sub_newlines_ok.
Qed.

(** C9. Text normalization is idempotent: cleaning an already cleaned
    string changes nothing. *)
Theorem clean_text_idempotent (s : str) :
  clean_text (clean_text s) = clean_text s.
Proof.
  destruct (clean_text_normal s) as (Hcr & Hb & Hn).
  unfold clean_text at 1.
  rewrite (sub_crlf_fixed _ Hcr).
  unfold sub_blanks. rewrite (sub_blanks_fixed _ _ Hb).
  unfold sub_newlines. rewrite (sub_newlines_fixed _ _ Hn).
  unfold clean_text. apply strip_idem.
Qed.

(** ** Chunking *)

Lemma len_nonneg (s : str) : 0 <= len s.
Proof. unfold len. lia. Qed.

Lemma len_app (a b : str) : len (a ++ b) = len a + len b.
Proof. unfold len. rewrite length_app. lia. Qed.

Lemma len_strip (s : str) : len (strip s) <= len s.
Proof. unfold len. pose proof (strip_length s). lia. Qed.

Lemma join_snoc (sep : str) (b : list str) (p : str) :
  join sep (b ++ [p]) = match b with [] => p | _ :: _ => join sep b ++ sep ++ p end.
Proof.
  induction b as [|x r IH]; [reflexivity|].
  destruct r as [|y r]; [reflexivity|].
  change (join sep ((x :: y :: r) ++ [p])) with (x ++ sep ++ join sep ((y :: r) ++ [p])).
  rewrite IH. change (join sep (x :: y :: r)) with (x ++ sep ++ join sep (y :: r)).
  now rewrite <- !app_assoc.
Qed.

Lemma slice_length_le (p : str) (i h : nat) : (length (slice p i (i + h)) <= h)%nat.
Proof.
  unfold slice. replace (i + h - i)%nat with h by lia.
  rewrite length_firstn. lia.
Qed.

Lemma brutal_split_bound (p : str) (hard_max : Z) (pieces : list str) :
  brutal_split p hard_max = Some pieces ->
  Forall (fun c => len c <= hard_max) pieces.
Proof.
  unfold brutal_split.
  destruct (hard_max =? 0) eqn:E0; [discriminate|].
  destruct (hard_max <? 0) eqn:E1; intros [= <-]; [constructor|].
  apply Z.ltb_ge in E1. apply Forall_forall. intros c Hc.
  apply in_map_iff in Hc. destruct Hc as (i & <- & _).
  pose proof (slice_length_le p i (Z.to_nat hard_max)). unfold len. lia.
Qed.

Lemma flush_buf_Forall (Q : str -> Prop) (min_chars : Z) (cs b : list str) :
  Forall Q cs -> (b <> [] -> Q (strip (join NLNL b))) ->
  Forall Q (flush_buf min_chars cs b).
Proof.
  intros Hcs Hb. unfold flush_buf. destruct b as [|x r]; [exact Hcs|].
  destruct ((min_chars <=? len (strip (join NLNL (x :: r)))) || is_nil cs); [|exact Hcs].
  apply Forall_app. split; [exact Hcs|]. constructor; [|constructor].
  apply Hb. discriminate.
Qed.

Lemma chunk_step_bounded (target_chars hard_max min_chars : Z) (st st' : chunker) (p : str) :
  target_chars <= hard_max ->
  bounded_state hard_max st ->
  chunk_step target_chars hard_max min_chars st p = Some st' ->
  bounded_state hard_max st'.
Proof.
  intros Hth (Hcs & Hcur & Hbuf). unfold chunk_step.
  pose proof (len_nonneg p) as Hp.
  destruct (cur st + len p + 2 <=? target_chars) eqn:Efit.
  - intros [= <-]. apply Z.leb_le in Efit. repeat split; simpl; auto; try lia.
    right. rewrite join_snoc. destruct (buf st) as [|x r] eqn:Eb.
    + lia.
    + destruct Hbuf as [Hbuf|Hbuf]; [discriminate|].
      rewrite !len_app. change (len NLNL) with 2. lia.
  - assert (Hflush : Forall (fun c => len c <= hard_max)
                       (flush_buf min_chars (chunks st) (buf st))).
    { apply flush_buf_Forall; [exact Hcs|]. intros Hne.
      destruct Hbuf as [Hbuf|Hbuf]; [contradiction|].
      pose proof (len_strip (join NLNL (buf st))). lia. }
    destruct (hard_max <? len p) eqn:Ebig.
    + destruct (brutal_split p hard_max) as [pieces|] eqn:Ebr; [|discriminate].
      intros [= <-]. repeat split; simpl; auto; try lia.
      apply Forall_app. split; [exact Hflush|].
      now apply brutal_split_bound in Ebr.
    + intros [= <-]. apply Z.ltb_ge in Ebig. repeat split; simpl; auto.
      right. lia.
Qed.

Lemma chunk_loop_bounded (target_chars hard_max min_chars : Z) (paras : list str) :
  target_chars <= hard_max ->
  forall st st',
  bounded_state hard_max st ->
  chunk_loop target_chars hard_max min_chars paras st = Some st' ->
  bounded_state hard_max st'.
Proof.
  intros Hth. induction paras as [|p ps IH]; intros st st' Hst; simpl.
  - now intros [= <-].
  - destruct (chunk_step target_chars hard_max min_chars st p) as [st1|] eqn:E; [|discriminate].
    apply IH. now apply (chunk_step_bounded _ _ _ _ _ _ Hth Hst E).
Qed.

(** C1 (amended). When [target_chars <= hard_max], every chunk returned by
    [split_into_chunks] has at most [hard_max] characters. *)
Theorem split_into_chunks_bound (text : str) (target_chars hard_max min_chars : Z)
    (cs : list str) :
  target_chars <= hard_max ->
  split_into_chunks text target_chars hard_max min_chars = Some cs ->
  Forall (fun c => len c <= hard_max) cs.
Proof.
  intros Hth. unfold split_into_chunks.
  destruct (len text <=? hard_max) eqn:E.
  - intros [= <-]. apply Z.leb_le in E. now repeat constructor.
  - destruct (chunk_loop _ _ _ _ _) as [st|] eqn:El; [|discriminate].
    apply chunk_loop_bounded in El; [|exact Hth|].
    + destruct El as (Hcs & Hcur & Hbuf).
      destruct (buf st) as [|x r] eqn:Eb; intros [= <-]; [exact Hcs|].
      apply Forall_app. split; [exact Hcs|]. constructor; [|constructor].
      destruct Hbuf as [Hbuf|Hbuf]; [discriminate|].
      apply Z.le_trans with (len (join NLNL (x :: r))); [apply len_strip|lia].
    + repeat split; simpl; auto. lia.
Qed.

Lemma split_into_chunks_bound_witness :
  Forall (fun c => len c <= 6)
    [lit "aaaa"; lit "cccc"].
Proof.
  apply (split_into_chunks_bound
           (lit "aaaa" ++ NLNL ++ lit "b" ++ NLNL ++ lit "cccc") 5 6 3).
  - lia.
  - reflexivity.
Defined.

(** C1 as stated fails: with a target above the hard maximum the buffered
    paragraphs are joined into one chunk longer than [hard_max]. *)
Lemma split_into_chunks_bound_counterexample :
  exists cs,
    split_into_chunks (lit "aaaaaaaa" ++ NLNL ++ lit "bbbbbbbb") 1000 10 0 = Some cs
    /\ ~ Forall (fun c => len c <= 10) cs.
Proof.
  eexists. split; [reflexivity|].
  intros H. inversion H as [|c l Hc Hl]; subst. vm_compute in Hc. now apply Hc.
Qed.

(** C6. A text of at most [hard_max] characters is returned as the single
    chunk, unchanged. *)
Theorem split_into_chunks_passthrough (text : str) (target_chars hard_max min_chars : Z) :
  len text <= hard_max ->
  split_into_chunks text target_chars hard_max min_chars = Some [text].
Proof.
  intros H. unfold split_into_chunks. apply Z.leb_le in H. now rewrite H.
Qed.

Lemma split_into_chunks_passthrough_witness :
  split_into_chunks (lit "  short text ") 1000 1200 200 = Some [lit "  short text "].
Proof.
  apply split_into_chunks_passthrough. vm_compute. discriminate.
Defined.

Lemma re_split_no_separator (s : str) :
  contains NLNL s = false -> re_split_from false s = (s, []).
Proof.
  induction s as [|c t IH]; [reflexivity|].
  cbn [contains]. rewrite orb_false_iff. intros (Hs & Ht).
  cbn [re_split_from]. rewrite (IH Ht).
  assert (Hsep : ((c =? LF)%N
                  && match t with c2 :: _ => (c2 =? LF)%N | [] => false end)%bool = false).
  { change (((LF =? c)%N
             && match t with [] => false | c2 :: _ => ((LF =? c2)%N && true)%bool end)%bool
            = false) in Hs.
    rewrite (N.eqb_sym c). destruct (LF =? c)%N; [|reflexivity].
    destruct t as [|c2 t2]; [reflexivity|].
    rewrite (N.eqb_sym c2). cbn [andb] in Hs |- *. now rewrite andb_true_r in Hs. }
  now rewrite Hsep.
Qed.

Lemma range_step_four (n : nat) :
  (5 <= n)%nat -> range_step (3 * n + 5) n = [0; n; 2 * n; 3 * n]%nat.
Proof.
  intros Hn. unfold range_step.
  replace ((3 * n + 5 + n - 1) / n)%nat with 4%nat.
  - cbn [seq map]. repeat f_equal; lia.
  - apply (Nat.div_unique _ _ _ 4); lia.
Qed.

Lemma four_slices (p : str) (n : nat) :
  (5 <= n)%nat -> length p = (3 * n + 5)%nat ->
  let c1 := slice p 0 (0 + n) in
  let c2 := slice p n (n + n) in
  let c3 := slice p (2 * n) (2 * n + n) in
  let c4 := slice p (3 * n) (3 * n + n) in
  length c1 = n /\ length c2 = n /\ length c3 = n /\ length c4 = 5%nat
  /\ c1 ++ c2 ++ c3 ++ c4 = p.
Proof.
  intros Hn Hl. unfold slice.
  replace (0 + n - 0)%nat with n by lia.
  replace (n + n - n)%nat with n by lia.
  replace (2 * n + n - 2 * n)%nat with n by lia.
  replace (3 * n + n - 3 * n)%nat with n by lia.
  cbn zeta. rewrite !length_firstn, !length_skipn.
  repeat split; try lia.
  rewrite (firstn_all2 (n := n) (skipn (3 * n) p)) by (rewrite length_skipn; lia).
  replace (3 * n)%nat with (n + 2 * n)%nat at 1 by lia.
  rewrite <- (skipn_skipn n (2 * n) p), firstn_skipn.
  replace (2 * n)%nat with (n + n)%nat by lia.
  rewrite <- (skipn_skipn n n p), firstn_skipn.
  apply firstn_skipn.
Qed.

(** C5 (amended). For [hard_max >= 5], a text that is one paragraph (no
    blank line inside, no white space at its ends) of [3 * hard_max + 5]
    characters, too long for the target ([target_chars < len text + 2]),
    is cut into exactly four chunks: three of [hard_max] characters and a
    last one of 5, which together are the text. *)
Theorem brutal_split_exact (text : str) (target_chars hard_max min_chars : Z) :
  5 <= hard_max ->
  strip text = text ->
  contains NLNL text = false ->
  len text = hard_max * 3 + 5 ->
  target_chars < len text + 2 ->
  exists c1 c2 c3 c4,
    split_into_chunks text target_chars hard_max min_chars = Some [c1; c2; c3; c4]
    /\ len c1 = hard_max /\ len c2 = hard_max /\ len c3 = hard_max /\ len c4 = 5
    /\ c1 ++ c2 ++ c3 ++ c4 = text.
Proof.
  intros Hh Hstrip Hpara Hlen Htarget.
  set (n := Z.to_nat hard_max).
  assert (Hn : (5 <= n)%nat) by (unfold n; lia).
  assert (Hl : length text = (3 * n + 5)%nat) by (unfold len, n in *; lia).
  destruct (four_slices text n Hn Hl) as (H1 & H2 & H3 & H4 & Hcat).
  eexists _, _, _, _. split; [|repeat split; [| | | |exact Hcat]; unfold len; fold n; lia].
  unfold split_into_chunks.
  replace (len text <=? hard_max) with false by (symmetry; apply Z.leb_gt; lia).
  rewrite Hstrip. unfold re_split_paras. rewrite (re_split_no_separator _ Hpara).
  cbn [chunk_loop]. unfold chunk_step. cbn [cur buf chunks flush_buf].
  replace (0 + len text + 2 <=? target_chars) with false by (symmetry; apply Z.leb_gt; lia).
  replace (hard_max <? len text) with true by (symmetry; apply Z.ltb_lt; lia).
  unfold brutal_split.
  replace (hard_max =? 0) with false by (symmetry; apply Z.eqb_neq; lia).
  replace (hard_max <? 0) with false by (symmetry; apply Z.ltb_ge; lia).
  cbn zeta. fold n. rewrite Hl, (range_step_four n Hn).
  reflexivity.
Qed.

Lemma brutal_split_exact_witness :
  exists c1 c2 c3 c4,
    split_into_chunks (lit "abcdefghijklmnopqrstuvw") 10 6 2 = Some [c1; c2; c3; c4]
    /\ len c1 = 6 /\ len c2 = 6 /\ len c3 = 6 /\ len c4 = 5
    /\ c1 ++ c2 ++ c3 ++ c4 = lit "abcdefghijklmnopqrstuvw".
Proof.
  apply (brutal_split_exact (lit "abcdefghijklmnopqrstuvw") 10 6 2).
  - lia.
  - reflexivity.
  - reflexivity.
  - reflexivity.
  - vm_compute. reflexivity.
Defined.

(** C5 as stated fails for a small hard maximum: with [hard_max = 2] the
    paragraph of [2 * 3 + 5 = 11] characters is cut into six chunks. *)
Lemma brutal_split_exact_counterexample :
  len (lit "abcdefghijk") = 2 * 3 + 5
  /\ exists cs,
       split_into_chunks (lit "abcdefghijk") 0 2 0 = Some cs
       /\ length cs <> 4%nat.
Proof.
  split; [reflexivity|]. eexists. split; [reflexivity|]. cbn. discriminate.
Qed.

(** C2 (the code at the failing input). A buffered paragraph below
    [min_chars] is neither emitted nor merged into the next chunk: here
    the paragraph [b] is lost although no paragraph exceeds [hard_max],
    so no brutal split takes place. *)
Theorem split_into_chunks_drops_small_buffer :
  let text := lit "aaaa" ++ NLNL ++ lit "b" ++ NLNL ++ lit "cccc" in
  re_split_paras (strip text) = [lit "aaaa"; lit "b"; lit "cccc"]
  /\ Forall (fun p => len p <= 6) (re_split_paras (strip text))
  /\ split_into_chunks text 5 6 3 = Some [lit "aaaa"; lit "cccc"]
  /\ re_split_paras (strip (join NLNL [lit "aaaa"; lit "cccc"]))
     <> re_split_paras (strip text).
Proof.
  cbv zeta. repeat split.
  - repeat constructor; vm_compute; discriminate.
  - vm_compute. discriminate.
Qed.

(** ** Fetcher *)

Example wait_exponential_values :
  map (wait_exponential 1 1 10) [1; 2; 3; 4; 5; 6]%nat = [1; 2; 4; 8; 10; 10].
Proof. reflexivity. Qed.

Section Fetcher.

Variables (net : transport) (url : str).

(** The retry loop entered at attempt [n] with [6 - n] iterations left. *)
Lemma retry_loop_spec (fuel : nat) :
  forall n slept, (1 <= n)%nat -> (n + fuel = 6)%nat -> (1 <= fuel)%nat ->
  exists run,
    retry_loop fuel net url n slept = Some run
    /\ (n <= attempts run <= 5)%nat
    /\ (forall k, (n - 1 <= k < attempts run)%nat ->
          ((S k < attempts run)%nat <-> (http_failure (net k) = true /\ (S k < 5)%nat)))
    /\ sleeps run = slept ++ map (wait_exponential 1 1 10) (seq n (attempts run - n))
    /\ (forall e, net (n - 1)%nat = Failed e ->
          outcome run = inr (RequestException e) /\ attempts run = n).
Proof.
  induction fuel as [|fuel IH]; intros n slept Hn Hsum Hfuel; [lia|].
  cbn [retry_loop]. unfold http_get_once.
  destruct (net (n - 1)%nat) as [r|e] eqn:E.
  - destruct (400 <=? status_code r) eqn:Es.
    + cbn [retry_if_HttpError]. unfold stop_after_attempt.
      destruct (5 <=? n)%nat eqn:Estop.
      * apply Nat.leb_le in Estop. eexists. split; [reflexivity|].
        cbn [attempts sleeps outcome]. split; [|split; [|split]].
        -- lia.
        -- intros k Hk. split; intros; lia.
        -- rewrite Nat.sub_diag. cbn. now rewrite app_nil_r.
        -- intros e He. discriminate.
      * apply Nat.leb_gt in Estop.
        destruct (IH (S n) (slept ++ [wait_exponential 1 1 10 n]))
          as (run & Hrun & Hatt & Hk & Hsl & _); try lia.
        exists run. split; [exact Hrun|]. split; [|split; [|split]].
        -- lia.
        -- intros k Hlt. destruct (Nat.eq_dec k (n - 1)) as [->|Hne].
           ++ rewrite E. cbn [http_failure]. split; [intros _; split; [exact Es|lia]|lia].
           ++ apply Hk; lia.
        -- rewrite Hsl, <- app_assoc. f_equal.
           replace (attempts run - n)%nat with (S (attempts run - S n)) by lia.
           reflexivity.
        -- intros e He. discriminate.
    + eexists. split; [reflexivity|].
      cbn [attempts sleeps outcome]. split; [|split; [|split]].
      * lia.
      * intros k Hk. assert (k = (n - 1)%nat) as -> by lia. rewrite E. cbn [http_failure].
        split; [lia|]. intros (Hf & _). congruence.
      * rewrite Nat.sub_diag. cbn. now rewrite app_nil_r.
      * intros e He. discriminate.
  - cbn [retry_if_HttpError]. eexists. split; [reflexivity|].
    cbn [attempts sleeps outcome]. split; [|split; [|split]].
    + lia.
    + intros k Hk. assert (k = (n - 1)%nat) as -> by lia. rewrite E. cbn [http_failure].
      split; [lia|]. intros (Hf & _). discriminate.
    + rewrite Nat.sub_diag. cbn. now rewrite app_nil_r.
    + intros e0 [= <-]. split; reflexivity.
Qed.

(** C4 (amended). [http_get] always ends, after 1 to 5 attempts.  An
    attempt is followed by another one exactly when it ended in an HTTP
    status of 400 or more and fewer than 5 attempts were made; the waits
    before the retries are 1, 2, 4, 8.  A failure of the transport itself
    (connection failure, timeout, malformed URL) is raised from the
    first attempt, without retry. *)
Theorem http_get_retry_policy :
  exists run,
    http_get net url = Some run
    /\ (1 <= attempts run <= 5)%nat
    /\ (forall k, (k < attempts run)%nat ->
          ((S k < attempts run)%nat <-> (http_failure (net k) = true /\ (S k < 5)%nat)))
    /\ sleeps run = firstn (attempts run - 1) [1; 2; 4; 8]
    /\ (forall e, net 0%nat = Failed e ->
          outcome run = inr (RequestException e) /\ attempts run = 1%nat).
Proof.
  unfold http_get.
  destruct (retry_loop_spec 5 1 []) as (run & Hrun & Hatt & Hk & Hsl & Hfail); try lia.
  exists run. split; [exact Hrun|]. split; [|split; [|split]].
  - lia.
  - intros k Hlt. apply Hk. lia.
  - rewrite Hsl. cbn [app].
    assert (Hcases : (attempts run = 1 \/ attempts run = 2 \/ attempts run = 3
                      \/ attempts run = 4 \/ attempts run = 5)%nat) by lia.
    destruct Hcases as [->|[->|[->|[->| ->]]]]; reflexivity.
  - exact Hfail.
Qed.

End Fetcher.

(** C4 as stated fails: a network-level failure is in the class the claim
    calls transient, and with four attempts left the claim has it retried;
    the code raises it from the first attempt. *)
Lemma http_get_retry_counterexample :
  let net : transport := fun _ => Failed ConnectionFailed in
  network_failure (net 0%nat) = true
  /\ http_get net (lit "https://opentdf.io/robots.txt")
     = Some (mkRun (inr (RequestException ConnectionFailed)) 1 []).
Proof. split; reflexivity. Qed.

(** ** Path exclusion *)

Example glob_to_regex_ex :
  glob_to_regex (lit "docs/**/*.min.js") = lit "docs/.*/[^/]*\.min\.js".
Proof. reflexivity. Qed.

Example glob_fullmatch_ex :
  glob_fullmatch (lit "docs/**/*.min.js") (lit "docs/a/b/c.min.js") = Some true
  /\ glob_fullmatch (lit "docs/*/*.min.js") (lit "docs/a/b/c.min.js") = Some false
  /\ glob_fullmatch (lit "*.js") (lit "a.js.map") = Some false
  /\ glob_fullmatch (lit "***") (lit "a/b") = Some true.
Proof. repeat split; reflexivity. Qed.

(** *** [str.replace] *)

Lemma replace_from_fuel (old new : str) :
  old <> [] ->
  forall f1 f2 s, (length s <= f1)%nat -> (length s <= f2)%nat ->
  replace_from f1 old new s = replace_from f2 old new s.
Proof.
  intros Hold. induction f1 as [|f1 IH]; intros f2 s H1 H2.
  - destruct s; [|simpl in H1; lia]. now destruct f2.
  - destruct f2 as [|f2]; [destruct s; [reflexivity|simpl in H2; lia]|].
    destruct s as [|c t]; [reflexivity|]. cbn [replace_from].
    destruct (startswith old (c :: t)).
    + f_equal. apply IH; rewrite length_skipn; simpl in *;
        destruct old; try contradiction; simpl; lia.
    + f_equal. apply IH; simpl in *; lia.
Qed.

Lemma str_replace_nil (old new : str) : str_replace old new [] = [].
Proof. reflexivity. Qed.

Lemma str_replace_hit (old new : str) (c : char) (t : str) :
  old <> [] -> startswith old (c :: t) = true ->
  str_replace old new (c :: t) = new ++ str_replace old new (skipn (length old) (c :: t)).
Proof.
  intros Hold H. unfold str_replace. cbn [length replace_from]. rewrite H.
  f_equal. apply replace_from_fuel; [exact Hold| |lia].
  rewrite length_skipn. destruct old; [contradiction|]. simpl. lia.
Qed.

Lemma str_replace_miss (old new : str) (c : char) (t : str) :
  startswith old (c :: t) = false ->
  str_replace old new (c :: t) = c :: str_replace old new t.
Proof.
  intros H. unfold str_replace. cbn [length replace_from]. now rewrite H.
Qed.

Lemma startswith_cons (x y : char) (p s : str) :
  startswith (x :: p) (y :: s) = ((x =? y)%N && startswith p s)%bool.
Proof. reflexivity. Qed.

(** *** Special characters *)

Lemma existsb_eqb_false (c : char) (l : list char) :
  existsb (N.eqb c) l = false -> forall x, In x l -> c <> x.
Proof.
  intros H x Hx ->. assert (existsb (N.eqb x) l = true); [|congruence].
  apply existsb_exists. exists x. split; [exact Hx|apply N.eqb_refl].
Qed.

Lemma not_special (c : char) :
  re_special c = false ->
  c <> BSLASH /\ c <> STAR /\ c <> DOT /\ c <> LBRACKET /\ rx_meta c = false.
Proof.
  intros H. pose proof (existsb_eqb_false c _ H) as Hne.
  repeat split; try (apply Hne; cbn; tauto).
  destruct (rx_meta c) eqn:E; [|reflexivity].
  unfold rx_meta in E. apply existsb_exists in E. destruct E as (x & Hx & Ex).
  apply N.eqb_eq in Ex. subst x. exfalso. apply (Hne c); [|reflexivity].
  cbn in Hx |- *. tauto.
Qed.

Lemma special_not_alnum (c : char) : re_special c = true -> ascii_alnum c = false.
Proof.
  unfold re_special. intros H. apply existsb_exists in H. destruct H as (x & Hx & Ex).
  apply N.eqb_eq in Ex. subst x. cbn in Hx.
  repeat (destruct Hx as [<-|Hx]; [reflexivity|]). contradiction.
Qed.

Lemma eqb_false_sym (a b : char) : a <> b -> (b =? a)%N = false.
Proof. intros H. apply N.eqb_neq. congruence. Qed.

(** *** The two replacements, token by token *)

Lemma glob_tokens_upto (P : list glob_token -> Prop) :
  P [] ->
  (forall t, P (glob_tokens t) -> P (GStarStar :: glob_tokens t)) ->
  (forall t, P (glob_tokens t) -> P (GStar :: glob_tokens t)) ->
  (forall c t, c <> STAR -> P (glob_tokens t) -> P (GLit c :: glob_tokens t)) ->
  forall pat, P (glob_tokens pat).
Proof.
  intros Hnil Hss Hs Hl.
  assert (H : forall n pat, (length pat <= n)%nat -> P (glob_tokens pat)).
  { induction n as [|n IH]; intros [|c t] Hlen; simpl in Hlen; try exact Hnil; try lia.
    cbn [glob_tokens]. destruct (c =? STAR)%N eqn:Ec.
    - destruct t as [|c2 t2]; [apply (Hs []), Hnil|].
      destruct (c2 =? STAR)%N.
      + apply Hss, IH. simpl in Hlen. lia.
      + apply Hs, IH. lia.
    - apply Hl; [now apply N.eqb_neq|]. apply IH. lia. }
  intros pat. now apply (H (length pat)).
Qed.

Lemma glob_tokens_star_free (pat : str) : star_free (glob_tokens pat).
Proof.
  apply glob_tokens_upto; unfold star_free; intros; constructor; auto; congruence.
Qed.

Lemma escape_char_cases (c : char) :
  c <> STAR ->
  (escape_char c = [BSLASH; c] /\ re_special c = true)
  \/ (escape_char c = [c] /\ re_special c = false).
Proof.
  intros _. unfold escape_char. destruct (re_special c); auto.
Qed.

Lemma stage1_no_star_head (ts : list glob_token) (q : str) :
  star_free ts -> startswith (STAR :: q) (flat_map glob_stage1 ts) = false.
Proof.
  intros H. destruct H as [|t ts Ht Hts]; [reflexivity|].
  cbn [flat_map]. destruct t as [c| |]; try reflexivity.
  cbn [glob_stage1]. assert (Hc : c <> STAR) by congruence.
  destruct (escape_char_cases c Hc) as [(-> & _)|(-> & _)]; cbn [app].
  - reflexivity.
  - rewrite startswith_cons, (eqb_false_sym _ _ Hc). reflexivity.
Qed.

Lemma re_escape_cons (c : char) (t : str) :
  re_escape (c :: t) = escape_char c ++ re_escape t.
Proof. reflexivity. Qed.

Lemma re_escape_no_star_head (t q : str) :
  startswith (STAR :: q) (re_escape t) = false.
Proof.
  destruct t as [|c t]; [reflexivity|]. rewrite re_escape_cons.
  unfold escape_char. destruct (re_special c) eqn:E; [reflexivity|].
  cbn [app]. rewrite startswith_cons.
  destruct (not_special c E) as (_ & Hs & _). now rewrite (eqb_false_sym _ _ Hs).
Qed.

Lemma re_escape_no_escaped_star (c : char) (t q : str) :
  c <> STAR -> startswith (BSLASH :: STAR :: q) (re_escape (c :: t)) = false.
Proof.
  intros Hc. rewrite re_escape_cons.
  destruct (escape_char_cases c Hc) as [(-> & _)|(-> & E)]; cbn [app].
  - rewrite !startswith_cons, (eqb_false_sym _ _ Hc). now rewrite andb_false_r.
  - rewrite startswith_cons. destruct (not_special c E) as (Hb & _).
    now rewrite (eqb_false_sym _ _ Hb).
Qed.

(** The first replacement turns the escaped pattern into the first-stage
    rendering of its tokens. *)
Lemma replace_stage1_upto (n : nat) :
  forall pat, (length pat <= n)%nat ->
  str_replace (lit "\*\*") (lit ".*") (re_escape pat)
  = flat_map glob_stage1 (glob_tokens pat).
Proof.
  change (lit "\*\*") with [BSLASH; STAR; BSLASH; STAR].
  change (lit ".*") with [DOT; STAR].
  induction n as [|n IH]; intros [|c t] Hlen; simpl in Hlen; try reflexivity; try lia.
  cbn [glob_tokens]. destruct (c =? STAR)%N eqn:Ec.
  - apply N.eqb_eq in Ec. subst c. destruct t as [|c2 t2]; [reflexivity|].
    destruct (c2 =? STAR)%N eqn:Ec2.
    + apply N.eqb_eq in Ec2. subst c2.
      change (re_escape (STAR :: STAR :: t2))
        with (BSLASH :: STAR :: BSLASH :: STAR :: re_escape t2).
      rewrite str_replace_hit; [|discriminate|reflexivity].
      cbn [length skipn flat_map glob_stage1]. f_equal. apply IH. simpl in Hlen. lia.
    + apply N.eqb_neq in Ec2.
      change (re_escape (STAR :: c2 :: t2))
        with (BSLASH :: STAR :: re_escape (c2 :: t2)).
      rewrite str_replace_miss
        by (exact (re_escape_no_escaped_star c2 t2 [] Ec2)).
      rewrite str_replace_miss by reflexivity.
      cbn [flat_map glob_stage1 app]. do 2 f_equal. apply IH. lia.
  - apply N.eqb_neq in Ec. rewrite re_escape_cons. cbn [flat_map glob_stage1].
    destruct (escape_char_cases c Ec) as [(-> & _)|(-> & E)]; cbn [app].
    + rewrite str_replace_miss
        by (rewrite !startswith_cons, (eqb_false_sym _ _ Ec); now rewrite andb_false_r).
      rewrite str_replace_miss
        by (rewrite startswith_cons, re_escape_no_star_head; apply andb_false_r).
      do 2 f_equal. apply IH. lia.
    + destruct (not_special c E) as (Hb & _).
      rewrite str_replace_miss
        by (rewrite startswith_cons, (eqb_false_sym _ _ Hb); reflexivity).
      f_equal. apply IH. lia.
Qed.

Lemma replace_stage1 (pat : str) :
  str_replace (lit "\*\*") (lit ".*") (re_escape pat)
  = flat_map glob_stage1 (glob_tokens pat).
Proof. now apply (replace_stage1_upto (length pat)). Qed.

(** The second replacement turns the first-stage rendering into the
    second-stage one. *)
Lemma replace_stage2 (ts : list glob_token) :
  star_free ts ->
  str_replace (lit "\*") (lit "[^/]*") (flat_map glob_stage1 ts)
  = flat_map glob_stage2 ts.
Proof.
  change (lit "\*") with [BSLASH; STAR].
  change (lit "[^/]*") with [LBRACKET; CARET; SLASH; RBRACKET; STAR].
  induction 1 as [|t ts Ht Hts IH]; [reflexivity|].
  cbn [flat_map]. destruct t as [c| |]; cbn [glob_stage1 glob_stage2 app].
  - assert (Hc : c <> STAR) by congruence.
    destruct (escape_char_cases c Hc) as [(-> & _)|(-> & E)]; cbn [app].
    + rewrite str_replace_miss
        by (rewrite !startswith_cons, (eqb_false_sym _ _ Hc); now rewrite andb_false_r).
      rewrite str_replace_miss
        by (rewrite startswith_cons, (stage1_no_star_head ts [] Hts); apply andb_false_r).
      now rewrite IH.
    + destruct (not_special c E) as (Hb & _).
      rewrite str_replace_miss
        by (rewrite startswith_cons, (eqb_false_sym _ _ Hb); reflexivity).
      now rewrite IH.
  - rewrite str_replace_hit; [|discriminate|reflexivity].
    cbn [length skipn]. now rewrite IH.
  - rewrite str_replace_miss by reflexivity.
    rewrite str_replace_miss by reflexivity.
    now rewrite IH.
Qed.

(** The regular expression of a glob is the rendering of its tokens. *)
Lemma glob_to_regex_tokens (pat : str) :
  glob_to_regex pat = flat_map glob_stage2 (glob_tokens pat).
Proof.
  unfold glob_to_regex. rewrite replace_stage1.
  apply replace_stage2, glob_tokens_star_free.
Qed.

(** It parses, into the items of the tokens. *)
Lemma rx_parse_stage2 (ts : list glob_token) :
  star_free ts ->
  rx_parse (flat_map glob_stage2 ts) = Some (map glob_item ts).
Proof.
  induction 1 as [|t ts Ht Hts IH]; [reflexivity|].
  cbn [flat_map map]. destruct t as [c| |]; cbn [glob_stage2 glob_item].
  - assert (Hc : c <> STAR) by congruence.
    destruct (escape_char_cases c Hc) as [(-> & E)|(-> & E)]; cbn [app rx_parse].
    + rewrite N.eqb_refl, (special_not_alnum c E), IH. reflexivity.
    + destruct (not_special c E) as (Hb & _ & Hd & Hl & Hm).
      apply N.eqb_neq in Hb, Hd, Hl. rewrite Hb, Hd, Hl, Hm, IH. reflexivity.
  - cbn. cbn in IH. now rewrite IH.
  - cbn. cbn in IH. now rewrite IH.
Qed.

(** *** Matching *)

Lemma rx_star_spec (ok : char -> bool) (k : str -> bool) (s : str) :
  rx_star ok k s = true
  <-> exists s1 s2, s = s1 ++ s2 /\ Forall (fun x => ok x = true) s1 /\ k s2 = true.
Proof.
  induction s as [|x s IH]; cbn [rx_star]; rewrite orb_true_iff.
  - split.
    + intros [H|H]; [|discriminate]. now exists [], [].
    + intros (s1 & s2 & E & _ & H). symmetry in E. apply app_eq_nil in E.
      destruct E as (-> & ->). now left.
  - rewrite andb_true_iff, IH. split.
    + intros [H|(Hx & s1 & s2 & -> & H1 & H2)].
      * now exists [], (x :: s).
      * exists (x :: s1), s2. repeat split; auto.
    + intros (s1 & s2 & E & H1 & H2). destruct s1 as [|y s1].
      * left. cbn in E. now subst s2.
      * right. cbn in E. injection E as <- ->. inversion H1; subst.
        split; [assumption|]. now exists s1, s2.
Qed.

Lemma rx_match_glob (ts : list glob_token) :
  forall s, rx_match (map glob_item ts) s = true
            <-> glob_matches (fun x => x <> LF) ts s.
Proof.
  induction ts as [|t ts IH]; intros s.
  - cbn. split.
    + destruct s; [constructor|discriminate].
    + intros H. now inversion H.
  - destruct t as [c| |]; cbn [map glob_item rx_match].
    + destruct s as [|x s].
      * split; [discriminate|]. intros H. inversion H.
      * rewrite andb_true_iff, N.eqb_eq, IH. split.
        -- intros (-> & H). now constructor.
        -- intros H. inversion H; subst. auto.
    + rewrite rx_star_spec. split.
      * intros (s1 & s2 & -> & H1 & H2). constructor.
        -- eapply Forall_impl; [|exact H1]. cbn. unfold rx_not_slash. intros a Ha ->.
           discriminate.
        -- now apply IH.
      * intros H. inversion H; subst. exists s1, s2. repeat split.
        -- eapply Forall_impl; [|eassumption]. cbn. unfold rx_not_slash. intros a Ha.
           apply negb_true_iff. now apply N.eqb_neq.
        -- now apply IH.
    + rewrite rx_star_spec. split.
      * intros (s1 & s2 & -> & H1 & H2). constructor.
        -- eapply Forall_impl; [|exact H1]. cbn. unfold rx_dot. intros a Ha ->.
           discriminate.
        -- now apply IH.
      * intros H. inversion H; subst. exists s1, s2. repeat split.
        -- eapply Forall_impl; [|eassumption]. cbn. unfold rx_dot. intros a Ha.
           apply negb_true_iff. now apply N.eqb_neq.
        -- now apply IH.
Qed.

(** C8 (amended). The glob check always yields a truth value, and it
    excludes a path exactly when the whole path matches the pattern, where
    [**] stands for any sequence of characters other than newlines (path
    separators included), [*] for any sequence without a path separator,
    and every other character for itself. *)
Theorem glob_fullmatch_correct (pat path : str) :
  exists b,
    glob_fullmatch pat path = Some b
    /\ (b = true <-> glob_matches_line pat path).
Proof.
  unfold glob_fullmatch, re_fullmatch, glob_matches_line.
  rewrite glob_to_regex_tokens, (rx_parse_stage2 _ (glob_tokens_star_free pat)).
  eexists. split; [reflexivity|]. apply rx_match_glob.
Qed.

(** C8 as stated fails on a path with a newline: [**] is translated to
    [.*], and [.] matches no newline. *)
Lemma glob_fullmatch_counterexample :
  let path := lit "a" ++ [LF] ++ lit "b" in
  glob_matches_spec (lit "**") path
  /\ glob_fullmatch (lit "**") path = Some false.
Proof.
  split; [|reflexivity].
  refine (gm_starstar _ [] (lit "a" ++ [LF] ++ lit "b") [] _ (gm_nil _)).
  apply Forall_forall. auto.
Qed.

(** ** Sets and sorting *)

Lemma str_eqb_eq (a b : str) : str_eqb a b = true <-> a = b.
Proof.
  revert b. induction a as [|x a IH]; intros [|y b]; cbn; try (split; congruence).
  rewrite andb_true_iff, N.eqb_eq, IH. split; [intros (-> & ->)|intros [= -> ->]]; auto.
Qed.

Lemma mem_In (x : str) (l : list str) : mem x l = true <-> In x l.
Proof.
  unfold mem. rewrite existsb_exists. split.
  - intros (y & Hy & E). apply str_eqb_eq in E. now subst.
  - intros H. exists x. split; [exact H|now apply str_eqb_eq].
Qed.

Lemma mem_not_In (x : str) (l : list str) : mem x l = false <-> ~ In x l.
Proof.
  rewrite <- mem_In. destruct (mem x l); split; congruence.
Qed.

Lemma set_add_In (x y : str) (s : list str) : In y (set_add x s) <-> y = x \/ In y s.
Proof.
  unfold set_add. destruct (mem x s) eqn:E.
  - apply mem_In in E. split; [auto|]. intros [->|H]; auto.
  - rewrite in_app_iff. cbn. split; intros H; intuition.
Qed.

Lemma set_add_NoDup (x : str) (s : list str) : NoDup s -> NoDup (set_add x s).
Proof.
  intros H. unfold set_add. destruct (mem x s) eqn:E; [exact H|].
  apply mem_not_In in E. apply NoDup_app; [exact H|repeat constructor; auto|].
  intros a Ha [<-|[]]. contradiction.
Qed.

Lemma str_leb_total (a b : str) : str_leb a b = false -> str_leb b a = true.
Proof.
  revert b. induction a as [|x a IH]; intros [|y b]; cbn; try congruence.
  rewrite orb_false_iff, andb_false_iff, N.ltb_ge. intros (Hlt & Hrest).
  apply orb_true_iff. destruct (N.eq_dec x y) as [->|Hne].
  - right. rewrite N.eqb_refl in *. destruct Hrest as [Hrest|Hrest]; [discriminate|].
    cbn. now apply IH.
  - left. apply N.ltb_lt. lia.
Qed.

Lemma insert_sorted_perm (x : str) (l : list str) :
  Permutation (insert_sorted x l) (x :: l).
Proof.
  induction l as [|y r IH]; cbn; [reflexivity|].
  destruct (str_leb x y); [reflexivity|].
  rewrite IH. apply perm_swap.
Qed.

Lemma insert_sorted_Sorted (x : str) (l : list str) :
  Sorted str_le l -> Sorted str_le (insert_sorted x l).
Proof.
  induction 1 as [|y r Hr IH Hy]; cbn; [repeat constructor|].
  destruct (str_leb x y) eqn:E.
  - repeat constructor; assumption.
  - constructor; [exact IH|].
    apply str_leb_total in E.
    destruct r as [|z r]; cbn; [now constructor|].
    destruct (str_leb x z); constructor; auto. now inversion Hy.
Qed.

Lemma sorted_perm (s : list str) : Permutation (sorted s) s.
Proof.
  induction s as [|x s IH]; cbn; [reflexivity|].
  rewrite insert_sorted_perm. now constructor.
Qed.

Lemma sorted_Sorted (s : list str) : Sorted str_le (sorted s).
Proof.
  induction s as [|x s IH]; cbn; [constructor|]. now apply insert_sorted_Sorted.
Qed.

Lemma sorted_NoDup (s : list str) : NoDup s -> NoDup (sorted s).
Proof.
  intros H. eapply Permutation_NoDup; [|exact H]. symmetry. apply sorted_perm.
Qed.

(** ** Discovery *)

Section Discovery.

Variables (lib : PyLib) (web : Web).

Lemma scan_locs_inv (base : str) (seen : list str) (locs : list str) :
  forall to_visit found to_visit' found',
  scan_locs base seen locs to_visit found = (to_visit', found') ->
  NoDup found -> Forall (fun u => _is_docs_url u base = true) found ->
  NoDup found' /\ Forall (fun u => _is_docs_url u base = true) found'.
Proof.
  induction locs as [|loc rest IH]; intros tv fd tv' fd' H Hnd Hall; cbn [scan_locs] in H.
  - injection H as <- <-. auto.
  - destruct (endswith (lit ".xml") loc || endswith (lit ".xml.gz") loc).
    + eapply IH; eauto.
    + destruct (_is_docs_url loc base) eqn:E.
      * eapply IH; [exact H|now apply set_add_NoDup|].
        apply Forall_forall. intros u Hu. apply set_add_In in Hu.
        destruct Hu as [->|Hu]; [exact E|].
        rewrite Forall_forall in Hall. now apply Hall.
      * eapply IH; eauto.
Qed.

Lemma sitemap_loop_inv (base : str) (fuel : nat) :
  forall to_visit seen found result,
  sitemap_loop fuel lib web base to_visit seen found = Ret result ->
  NoDup found -> Forall (fun u => _is_docs_url u base = true) found ->
  NoDup result /\ Forall (fun u => _is_docs_url u base = true) result.
Proof.
  induction fuel as [|fuel IH]; intros tv seen fd result H Hnd Hall; cbn [sitemap_loop] in H;
    [discriminate|].
  destruct tv as [|sm rest]; [injection H as <-; auto|].
  destruct (mem sm seen); [eapply IH; eauto|].
  destruct (_fetch_and_parse_sitemap lib web sm) as [locs|]; [|eapply IH; eauto].
  destruct (scan_locs base (set_add sm seen) locs rest fd) as [tv' fd'] eqn:Es.
  destruct (scan_locs_inv _ _ _ _ _ _ _ Es Hnd Hall) as (Hnd' & Hall').
  eapply IH; eauto.
Qed.

Lemma bfs_loop_inv (base : str) (fuel : nat) :
  forall dq visited found result,
  bfs_loop fuel lib web base dq visited found = Ret result ->
  NoDup found -> Forall (fun u => _is_docs_url u base = true) found ->
  NoDup result /\ Forall (fun u => _is_docs_url u base = true) result.
Proof.
  induction fuel as [|fuel IH]; intros dq visited fd result H Hnd Hall; cbn [bfs_loop] in H;
    [discriminate|].
  destruct dq as [|u rest]; [injection H as <-; auto|].
  destruct (mem u visited); [eapply IH; eauto|].
  destruct (http_get_result (net web u) u) as [resp|]; [|eapply IH; eauto].
  destruct (_is_docs_url u base) eqn:E; [|eapply IH; eauto].
  eapply IH; [exact H|now apply set_add_NoDup|].
  apply Forall_forall. intros v Hv. apply set_add_In in Hv.
  destruct Hv as [->|Hv]; [exact E|].
  rewrite Forall_forall in Hall. now apply Hall.
Qed.

Lemma sitemap_discovery_inv (fuel : nat) (base : str) (found : list str) :
  sitemap_discovery lib web fuel base = Ret found ->
  NoDup found /\ Forall (fun u => _is_docs_url u base = true) found.
Proof.
  unfold sitemap_discovery, bind.
  destruct (_extract_sitemap_urls_from_robots lib web base) as [sm| |]; try discriminate.
  intros H. eapply sitemap_loop_inv; [exact H|constructor|constructor].
Qed.

(** More fuel does not change the result of a loop that ended. *)
Lemma sitemap_loop_fuel (base : str) (fuel : nat) :
  forall fuel' to_visit seen found result,
  (fuel <= fuel')%nat ->
  sitemap_loop fuel lib web base to_visit seen found = Ret result ->
  sitemap_loop fuel' lib web base to_visit seen found = Ret result.
Proof.
  induction fuel as [|fuel IH]; intros fuel' tv seen fd result Hle H;
    cbn [sitemap_loop] in H; [discriminate|].
  destruct fuel' as [|fuel']; [lia|]. cbn [sitemap_loop].
  destruct tv as [|sm rest]; [exact H|].
  destruct (mem sm seen); [apply IH; [lia|exact H]|].
  destruct (_fetch_and_parse_sitemap lib web sm) as [locs|]; [|apply IH; [lia|exact H]].
  destruct (scan_locs base (set_add sm seen) locs rest fd) as [tv' fd'].
  apply IH; [lia|exact H].
Qed.

Lemma bfs_loop_fuel (base : str) (fuel : nat) :
  forall fuel' dq visited found result,
  (fuel <= fuel')%nat ->
  bfs_loop fuel lib web base dq visited found = Ret result ->
  bfs_loop fuel' lib web base dq visited found = Ret result.
Proof.
  induction fuel as [|fuel IH]; intros fuel' dq visited fd result Hle H;
    cbn [bfs_loop] in H; [discriminate|].
  destruct fuel' as [|fuel']; [lia|]. cbn [bfs_loop].
  destruct dq as [|u rest]; [exact H|].
  destruct (mem u visited); [apply IH; [lia|exact H]|].
  destruct (http_get_result (net web u) u) as [resp|]; apply IH; try lia; exact H.
Qed.

Lemma sitemap_discovery_fuel (base : str) (fuel fuel' : nat) (found : list str) :
  (fuel <= fuel')%nat ->
  sitemap_discovery lib web fuel base = Ret found ->
  sitemap_discovery lib web fuel' base = Ret found.
Proof.
  unfold sitemap_discovery, bind. intros Hle.
  destruct (_extract_sitemap_urls_from_robots lib web base) as [sm| |]; try discriminate.
  now apply sitemap_loop_fuel.
Qed.

(** *** What the sitemap phase finds *)

Lemma robots_sitemaps_In (lines : list str) :
  forall maps, robots_sitemaps lib lines = Ret maps ->
  forall sm, In sm maps <->
    exists line rest,
      In line lines /\ startswith (lit "sitemap:") (str_lower lib line) = true
      /\ after_first COLON line = Some rest /\ sm = strip rest.
Proof.
  induction lines as [|line lines IH]; intros maps H sm; cbn [robots_sitemaps] in H.
  - injection H as <-. split; [contradiction|]. intros (l & r & [] & _).
  - destruct (startswith (lit "sitemap:") (str_lower lib line)) eqn:Es.
    + destruct (after_first COLON line) as [rest|] eqn:Ea; [|discriminate].
      destruct (robots_sitemaps lib lines) as [maps'| |]; try discriminate.
      cbn [bind] in H. injection H as <-. cbn [In]. rewrite (IH maps' eq_refl sm). split.
      * intros [<-|(l & r & Hl & H1 & H2 & H3)].
        -- exists line, rest. split; [now left|auto].
        -- exists l, r. split; [now right|auto].
      * intros (l & r & [<-|Hl] & H1 & H2 & H3).
        -- left. rewrite Ea in H2. injection H2 as <-. now symmetry.
        -- right. exists l, r. auto.
    + rewrite (IH maps H sm). split.
      * intros (l & r & Hl & H1 & H2 & H3). exists l, r. split; [now right|auto].
      * intros (l & r & [<-|Hl] & H1 & H2 & H3); [congruence|]. exists l, r. auto.
Qed.

Lemma robots_declared (base : str) (sm_urls : list str) :
  _extract_sitemap_urls_from_robots lib web base = Ret sm_urls ->
  forall sm, In sm sm_urls <-> robots_declares lib web base sm.
Proof.
  unfold _extract_sitemap_urls_from_robots, robots_declares. intros H sm.
  destruct (_fetch_text web (urijoin lib base (lit "/robots.txt"))) as [txt|].
  - rewrite (robots_sitemaps_In _ _ H sm). split.
    + intros (l & r & H1 & H2 & H3 & H4). exists txt, l, r. auto.
    + intros (t & l & r & [= <-] & H1 & H2 & H3 & H4). exists l, r. auto.
  - injection H as <-. split; [contradiction|]. intros (t & l & r & H0 & _). discriminate.
Qed.

Lemma dedupe_from_In_iff (x : str) (l : list str) :
  forall seen, In x (dedupe_from seen l) <-> In x l /\ ~ In x seen.
Proof.
  induction l as [|y r IH]; intros seen; cbn [dedupe_from].
  - split; [contradiction|now intros ([] & _)].
  - destruct (mem y seen) eqn:E.
    + apply mem_In in E. rewrite IH. cbn [In]. split.
      * intros (H1 & H2). auto.
      * intros ([<-|H1] & H2); [contradiction|auto].
    + apply mem_not_In in E. cbn [In]. rewrite IH. cbn [In]. split.
      * intros [<-|(H1 & H2)]; [auto|]. split; [auto|]. intros H. apply H2. now right.
      * intros ([<-|H1] & H2); [now left|].
        destruct (str_eqb y x) eqn:Eq; [apply str_eqb_eq in Eq; now left|].
        right. split; [exact H1|]. intros [->|H]; [|contradiction].
        replace (str_eqb x x) with true in Eq by (symmetry; now apply str_eqb_eq).
        discriminate.
Qed.

Lemma scan_locs_In (base : str) (seen locs : list str) :
  forall to_visit found to_visit' found',
  scan_locs base seen locs to_visit found = (to_visit', found') ->
  (forall x, In x to_visit' <->
     In x to_visit \/ (In x locs /\ is_sitemap_name x = true /\ mem x seen = false))
  /\ (forall x, In x found' <->
        In x found
        \/ (In x locs /\ is_sitemap_name x = false /\ _is_docs_url x base = true)).
Proof.
  unfold is_sitemap_name.
  induction locs as [|loc rest IH]; intros tv fd tv' fd' H; cbn [scan_locs] in H.
  - injection H as <- <-. split; intros x; (split; [auto|]); now intros [H|([] & _)].
  - destruct (endswith (lit ".xml") loc || endswith (lit ".xml.gz") loc) eqn:Ex.
    + destruct (IH _ _ _ _ H) as (H1 & H2). split; intros x.
      * rewrite H1. cbn [In]. destruct (mem loc seen) eqn:Em.
        -- split.
           ++ intros [Hx|(Hx & Hs & Hm)]; [now left|right; auto].
           ++ intros [Hx|([<-|Hx] & Hs & Hm)]; [now left|congruence|right; auto].
        -- rewrite in_app_iff. cbn [In]. split.
           ++ intros [[Hx|[<-|[]]]|(Hx & Hs & Hm)]; [now left|right; auto|right; auto].
           ++ intros [Hx|([<-|Hx] & Hs & Hm)]; [now left;left|left; right; now left|].
              right. auto.
      * rewrite H2. cbn [In]. split.
        -- intros [Hx|(Hx & Hs & Hd)]; [now left|right; auto].
        -- intros [Hx|([<-|Hx] & Hs & Hd)]; [now left|congruence|right; auto].
    + destruct (_is_docs_url loc base) eqn:Ed;
        destruct (IH _ _ _ _ H) as (H1 & H2); split; intros x.
      * rewrite H1. cbn [In]. split.
        -- intros [Hx|(Hx & Hs & Hm)]; [now left|right; auto].
        -- intros [Hx|([<-|Hx] & Hs & Hm)]; [now left|congruence|right; auto].
      * rewrite H2, set_add_In. cbn [In]. split.
        -- intros [[->|Hx]|(Hx & Hs & Hd)]; [right; auto|now left|right; auto].
        -- intros [Hx|([<-|Hx] & Hs & Hd)]; [left; now right|left; now left|right; auto].
      * rewrite H1. cbn [In]. split.
        -- intros [Hx|(Hx & Hs & Hm)]; [now left|right; auto].
        -- intros [Hx|([<-|Hx] & Hs & Hm)]; [now left|congruence|right; auto].
      * rewrite H2. cbn [In]. split.
        -- intros [Hx|(Hx & Hs & Hd)]; [now left|right; auto].
        -- intros [Hx|([<-|Hx] & Hs & Hd)]; [now left|congruence|right; auto].
Qed.

Lemma sitemap_inv_end (base : str) (seen found : list str) :
  sitemap_inv lib web base [] seen found ->
  forall u, In u found <-> sitemap_listed lib web base u.
Proof.
  intros (J1 & J2 & J3 & J4 & J5) u.
  assert (Hall : forall sm, sitemap_reach lib web base sm -> In sm seen).
  { intros sm Hsm. induction Hsm as [sm Hr|c Hc|sm locs loc Hsm IH Hf Hl Hx].
    - destruct (J5 sm (or_introl Hr)) as [H|[]]. exact H.
    - destruct (J5 (urijoin lib base c)) as [H|[]]; [right; now exists c|exact H].
    - destruct (J4 sm locs loc IH Hf Hl Hx) as [H|[]]. exact H. }
  rewrite J3. unfold sitemap_listed. split.
  - intros (sm & locs & Hs & H). exists sm, locs. auto.
  - intros (sm & locs & Hs & H). exists sm, locs. auto.
Qed.

Lemma sitemap_loop_listed (base : str) (fuel : nat) :
  forall to_visit seen found result,
  sitemap_loop fuel lib web base to_visit seen found = Ret result ->
  sitemap_inv lib web base to_visit seen found ->
  forall u, In u result <-> sitemap_listed lib web base u.
Proof.
  induction fuel as [|fuel IH]; intros tv seen fd result H Hinv;
    cbn [sitemap_loop] in H; [discriminate|].
  destruct tv as [|sm rest]; [injection H as <-; now apply (sitemap_inv_end base seen)|].
  destruct Hinv as (J1 & J2 & J3 & J4 & J5).
  destruct (mem sm seen) eqn:Eseen.
  - apply mem_In in Eseen. apply (IH _ _ _ _ H). repeat split.
    + intros x Hx. apply J1. now right.
    + exact J2.
    + apply J3.
    + apply J3.
    + intros s l loc Hs Hf Hl Hx.
      destruct (J4 s l loc Hs Hf Hl Hx) as [Hin|[<-|Hin]]; auto.
    + intros s Hs. destruct (J5 s Hs) as [Hin|[<-|Hin]]; auto.
  - apply mem_not_In in Eseen.
    assert (Hsm : sitemap_reach lib web base sm) by (apply J1; now left).
    destruct (_fetch_and_parse_sitemap lib web sm) as [locs|] eqn:Ef.
    + destruct (scan_locs base (set_add sm seen) locs rest fd) as [tv' fd'] eqn:Es.
      destruct (scan_locs_In _ _ _ _ _ _ _ Es) as (Htv & Hfd).
      apply (IH _ _ _ _ H). repeat split.
      * intros x Hx. apply Htv in Hx. destruct Hx as [Hx|(Hx & Hn & _)].
        -- apply J1. now right.
        -- now apply (reach_nested lib web base sm locs x).
      * intros x Hx. apply set_add_In in Hx. destruct Hx as [->|Hx]; auto.
      * intros Hu. apply Hfd in Hu. destruct Hu as [Hu|(Hu & Hn & Hd)].
        -- apply J3 in Hu. destruct Hu as (s & l & Hs & Hrest).
           exists s, l. split; [apply set_add_In; now right|exact Hrest].
        -- exists sm, locs. split; [apply set_add_In; now left|auto].
      * intros (s & l & Hs & Hf & Hu & Hn & Hd). apply Hfd.
        apply set_add_In in Hs. destruct Hs as [->|Hs].
        -- rewrite Ef in Hf. injection Hf as <-. right. auto.
        -- left. apply J3. exists s, l. auto.
      * intros s l loc Hs Hf Hl Hx. apply set_add_In in Hs.
        destruct (mem loc (set_add sm seen)) eqn:Em;
          [left; now apply mem_In|].
        destruct Hs as [->|Hs].
        -- rewrite Ef in Hf. injection Hf as <-. right. apply Htv. right. auto.
        -- destruct (J4 s l loc Hs Hf Hl Hx) as [Hin|[<-|Hin]].
           ++ left. apply set_add_In. now right.
           ++ left. apply set_add_In. now left.
           ++ right. apply Htv. now left.
      * intros s Hs. destruct (J5 s Hs) as [Hin|[<-|Hin]].
        -- left. apply set_add_In. now right.
        -- left. apply set_add_In. now left.
        -- right. apply Htv. now left.
    + apply (IH _ _ _ _ H). repeat split.
      * intros x Hx. apply J1. now right.
      * intros x Hx. apply set_add_In in Hx. destruct Hx as [->|Hx]; auto.
      * intros Hu. apply J3 in Hu. destruct Hu as (s & l & Hs & Hrest).
        exists s, l. split; [apply set_add_In; now right|exact Hrest].
      * intros (s & l & Hs & Hf & Hrest). apply J3.
        apply set_add_In in Hs. destruct Hs as [->|Hs]; [congruence|].
        exists s, l. auto.
      * intros s l loc Hs Hf Hl Hx. apply set_add_In in Hs.
        destruct Hs as [->|Hs]; [congruence|].
        destruct (J4 s l loc Hs Hf Hl Hx) as [Hin|[<-|Hin]].
        -- left. apply set_add_In. now right.
        -- left. apply set_add_In. now left.
        -- now right.
      * intros s Hs. destruct (J5 s Hs) as [Hin|[<-|Hin]].
        -- left. apply set_add_In. now right.
        -- left. apply set_add_In. now left.
        -- now right.
Qed.

Lemma sitemap_discovery_listed (fuel : nat) (base : str) (found : list str) :
  sitemap_discovery lib web fuel base = Ret found ->
  forall u, In u found <-> sitemap_listed lib web base u.
Proof.
  unfold sitemap_discovery.
  destruct (_extract_sitemap_urls_from_robots lib web base) as [sm_urls| |] eqn:Er;
    try discriminate.
  cbn [bind]. intros H. apply (sitemap_loop_listed _ _ _ _ _ _ H).
  pose proof (robots_declared _ _ Er) as Hrob.
  repeat split.
  - intros sm Hsm. apply dedupe_from_In_iff in Hsm. destruct Hsm as (Hsm & _).
    apply in_app_or in Hsm. destruct Hsm as [Hsm|Hsm].
    + apply reach_robots. now apply Hrob.
    + apply in_map_iff in Hsm. destruct Hsm as (c & <- & Hc). now apply reach_candidate.
  - contradiction.
  - contradiction.
  - intros (s & l & [] & _).
  - contradiction.
  - intros sm Hsm. right. apply dedupe_from_In_iff. split; [|auto].
    apply in_or_app. destruct Hsm as [Hsm|(c & Hc & ->)].
    + left. now apply Hrob.
    + right. now apply in_map.
Qed.

(** *** What the crawl finds *)

Lemma scan_hrefs_In (base u : str) (visited hrefs : list str) :
  forall dq x,
  In x (scan_hrefs lib base u visited hrefs dq) <->
    In x dq
    \/ exists h, In h hrefs /\ startswith (lit "#") (strip h) = false
         /\ x = href_target lib u h /\ _is_docs_url x base = true
         /\ mem x visited = false.
Proof.
  induction hrefs as [|h rest IH]; intros dq x; cbn [scan_hrefs].
  - split; [auto|]. now intros [H|(h & [] & _)].
  - cbn zeta. fold (href_target lib u h).
    destruct (startswith (lit "#") (strip h)) eqn:Eh.
    + rewrite IH. split.
      * intros [H|(h' & Hh & H')]; [now left|]. right. exists h'. split; [now right|exact H'].
      * intros [H|(h' & [<-|Hh] & Hs & H')]; [now left|congruence|].
        right. exists h'. auto.
    + destruct (_is_docs_url (href_target lib u h) base
                && negb (mem (href_target lib u h) visited)) eqn:Ec.
      * apply andb_true_iff in Ec. destruct Ec as (Ed & Em).
        apply negb_true_iff in Em.
        rewrite IH, in_app_iff. cbn [In]. split.
        -- intros [[H|[<-|[]]]|(h' & Hh & H')].
           ++ now left.
           ++ right. exists h. split; [now left|auto].
           ++ right. exists h'. split; [now right|exact H'].
        -- intros [H|(h' & [<-|Hh] & Hs & -> & H')].
           ++ now left; left.
           ++ left. right. now left.
           ++ right. exists h'. auto.
      * rewrite IH. cbn [In]. split.
        -- intros [H|(h' & Hh & H')]; [now left|].
           right. exists h'. split; [now right|exact H'].
        -- intros [H|(h' & [<-|Hh] & Hs & -> & Hd & Hm)]; [now left| |].
           ++ rewrite Hd, Hm in Ec. discriminate.
           ++ right. exists h'. auto.
Qed.

Lemma crawl_inv_end (base : str) (seeds visited found : list str) :
  crawl_inv lib web base seeds [] visited found ->
  forall u, In u found <-> crawled lib web base seeds u.
Proof.
  intros (I1 & I2 & I3 & I4 & I5) u.
  assert (Hall : forall v, crawl_reach lib web base seeds v -> In v visited).
  { intros v Hv. induction Hv as [s Hs|v w Hv IH Hf].
    - destruct (I5 s Hs) as [H|[]]. exact H.
    - destruct (I4 v w IH Hf) as [H|[]]. exact H. }
  rewrite I3. unfold crawled. split.
  - intros (Hv & H). split; [now apply I2|exact H].
  - intros (Hv & H). split; [now apply Hall|exact H].
Qed.

Lemma bfs_loop_crawled (base : str) (seeds : list str) (fuel : nat) :
  forall dq visited found result,
  bfs_loop fuel lib web base dq visited found = Ret result ->
  crawl_inv lib web base seeds dq visited found ->
  forall u, In u result <-> crawled lib web base seeds u.
Proof.
  induction fuel as [|fuel IH]; intros dq visited fd result H Hinv;
    cbn [bfs_loop] in H; [discriminate|].
  destruct dq as [|u rest];
    [injection H as <-; now apply (crawl_inv_end base seeds visited)|].
  destruct Hinv as (I1 & I2 & I3 & I4 & I5).
  destruct (mem u visited) eqn:Ev.
  - apply mem_In in Ev. apply (IH _ _ _ _ H).
    split; [|split; [|split; [|split]]].
    + intros x Hx. apply I1. now right.
    + exact I2.
    + exact I3.
    + intros a b Ha Hab. destruct (I4 a b Ha Hab) as [Hin|[<-|Hin]]; auto.
    + intros s Hs. destruct (I5 s Hs) as [Hin|[Heq|Hin]]; auto.
      left. now rewrite <- Heq.
  - apply mem_not_In in Ev.
    assert (Hu : crawl_reach lib web base seeds u) by (apply I1; now left).
    cbn zeta in H.
    destruct (http_get_result (net web u) u) as [resp|] eqn:Eg.
    + apply (IH _ _ _ _ H). split; [|split; [|split; [|split]]].
      * intros x Hx. apply scan_hrefs_In in Hx.
        destruct Hx as [Hx|(h & Hh & Hs & -> & Hd & _)].
        -- apply I1. now right.
        -- apply (reach_link lib web base seeds u); [exact Hu|].
           exists resp, h. auto.
      * intros x Hx. apply set_add_In in Hx. destruct Hx as [->|Hx]; auto.
      * intros x. rewrite set_add_In.
        assert (Hfu : http_get_result (net web u) u <> None) by congruence.
        destruct (_is_docs_url u base) eqn:Ed.
        -- rewrite set_add_In, I3. split.
           ++ intros [->|(Hx & Hf & Hd)]; [auto|]. auto.
           ++ intros ([->|Hx] & Hf & Hd); [now left|right; auto].
        -- rewrite I3. split.
           ++ intros (Hx & Hf & Hd). auto.
           ++ intros ([->|Hx] & Hf & Hd); [congruence|auto].
      * intros a b Ha Hab. apply set_add_In in Ha.
        destruct (mem b (set_add u visited)) eqn:Em; [left; now apply mem_In|].
        right. apply scan_hrefs_In. destruct Ha as [->|Ha].
        -- destruct Hab as (resp' & h & Hg & Hh & Hs & -> & Hd).
           rewrite Eg in Hg. injection Hg as <-. right. exists h. auto.
        -- apply mem_not_In in Em.
           destruct (I4 a b Ha Hab) as [Hin|[<-|Hin]].
           ++ exfalso. apply Em. apply set_add_In. now right.
           ++ exfalso. apply Em. apply set_add_In. now left.
           ++ now left.
      * intros s Hs. destruct (I5 s Hs) as [Hin|[Heq|Hin]].
        -- left. apply set_add_In. now right.
        -- left. apply set_add_In. left. now symmetry.
        -- right. apply scan_hrefs_In. now left.
    + apply (IH _ _ _ _ H). split; [|split; [|split; [|split]]].
      * intros x Hx. apply I1. now right.
      * intros x Hx. apply set_add_In in Hx. destruct Hx as [->|Hx]; auto.
      * intros x. rewrite set_add_In, I3. split.
        -- intros (Hx & Hf & Hd). auto.
        -- intros ([->|Hx] & Hf & Hd); [congruence|auto].
      * intros a b Ha Hab. apply set_add_In in Ha. destruct Ha as [->|Ha].
        -- destruct Hab as (resp' & h & Hg & _). congruence.
        -- destruct (I4 a b Ha Hab) as [Hin|[<-|Hin]].
           ++ left. apply set_add_In. now right.
           ++ left. apply set_add_In. now left.
           ++ now right.
      * intros s Hs. destruct (I5 s Hs) as [Hin|[Heq|Hin]].
        -- left. apply set_add_In. now right.
        -- left. apply set_add_In. left. now symmetry.
        -- now right.
Qed.

Lemma fallback_crawl_crawled (fuel : nat) (base : str) (seeds urls : list str) :
  fallback_crawl lib web fuel base seeds = Ret urls ->
  Sorted str_le urls /\ NoDup urls
  /\ forall u, In u urls <-> crawled lib web base seeds u.
Proof.
  unfold fallback_crawl.
  destruct (bfs_loop fuel lib web base (map (urijoin lib base) seeds) [] [])
    as [found| |] eqn:E; try discriminate.
  cbn [bind]. intros [= <-].
  split; [apply sorted_Sorted|]. split.
  - apply sorted_NoDup.
    destruct (bfs_loop_inv _ _ _ _ _ _ E (NoDup_nil _) (Forall_nil _)) as (Hnd & _).
    exact Hnd.
  - intros u. rewrite <- (bfs_loop_crawled base seeds _ _ _ _ _ E).
    + split; apply Permutation_in; [|symmetry]; apply sorted_perm.
    + split; [|split; [|split; [|split]]]; try contradiction.
      * intros x Hx. apply in_map_iff in Hx. destruct Hx as (s & <- & Hs).
        now apply reach_seed.
      * intros x. split; [contradiction|]. now intros ([] & _).
      * intros s Hs. right. now apply in_map.
Qed.

(** C7. When the sitemap phase ends with the set [found], that set holds
    exactly the allowlisted locations listed by the sitemaps of the site
    (those declared by [robots.txt], the well-known candidates, and the
    nested sitemaps they name).  If [found] is not empty,
    [discover_doc_urls] returns it sorted.  If it is empty,
    [discover_doc_urls] runs the breadth-first crawl from the seeds, and
    when that crawl ends it returns, sorted and without repetition,
    exactly the allowlisted pages that the seeds lead to through anchors
    and that can be fetched.  This holds for the fuel with which the
    phases end and for any larger one. *)
Theorem discover_doc_urls_sitemap_then_fallback
    (fuel : nat) (base : str) (seeds found : list str) :
  sitemap_discovery lib web fuel (rstrip_chars (lit "/") base) = Ret found ->
  (forall u, In u found <-> sitemap_listed lib web (rstrip_chars (lit "/") base) u)
  /\ Forall (fun u => _is_docs_url u (rstrip_chars (lit "/") base) = true) found
  /\ (found <> [] ->
        (forall fuel', (fuel <= fuel')%nat ->
           discover_doc_urls lib web fuel' base seeds = Ret (sorted found))
        /\ Sorted str_le (sorted found)
        /\ NoDup (sorted found)
        /\ forall u, In u (sorted found) <-> In u found)
  /\ (found = [] ->
        (forall fuel', (fuel <= fuel')%nat ->
           discover_doc_urls lib web fuel' base seeds
           = fallback_crawl lib web fuel' (rstrip_chars (lit "/") base) seeds)
        /\ forall urls,
             fallback_crawl lib web fuel (rstrip_chars (lit "/") base) seeds = Ret urls ->
             (forall fuel', (fuel <= fuel')%nat ->
                discover_doc_urls lib web fuel' base seeds = Ret urls)
             /\ Sorted str_le urls
             /\ NoDup urls
             /\ forall u, In u urls
                  <-> crawled lib web (rstrip_chars (lit "/") base) seeds u).
Proof.
  intros H. destruct (sitemap_discovery_inv _ _ _ H) as (Hnd & Hall).
  split; [exact (sitemap_discovery_listed _ _ _ H)|].
  split; [exact Hall|]. split.
  - intros Hne. split; [|split; [apply sorted_Sorted|split; [now apply sorted_NoDup|]]].
    + intros fuel' Hle. unfold discover_doc_urls.
      rewrite (sitemap_discovery_fuel _ _ _ _ Hle H). cbn [bind].
      destruct found as [|u found]; [contradiction|reflexivity].
    + intros v. split; apply Permutation_in; [|symmetry]; apply sorted_perm.
  - intros ->.
    assert (Hfall : forall fuel', (fuel <= fuel')%nat ->
              discover_doc_urls lib web fuel' base seeds
              = fallback_crawl lib web fuel' (rstrip_chars (lit "/") base) seeds).
    { intros fuel' Hle. unfold discover_doc_urls.
      rewrite (sitemap_discovery_fuel _ _ _ _ Hle H). reflexivity. }
    split; [exact Hfall|].
    intros urls Hcrawl. split; [|now apply (fallback_crawl_crawled fuel)].
    intros fuel' Hle. rewrite (Hfall fuel' Hle).
    unfold fallback_crawl in *.
    destruct (bfs_loop fuel lib web (rstrip_chars (lit "/") base)
                (map (urijoin lib (rstrip_chars (lit "/") base)) seeds) [] [])
      as [crawl| |] eqn:E; try discriminate.
    now rewrite (bfs_loop_fuel _ _ _ _ _ _ _ Hle E).
Qed.

End Discovery.

(** ** Record ids *)

Lemma rev_digits_digit (fuel n : nat) : Forall is_digit (rev_digits fuel n).
Proof.
  revert n. induction fuel as [|fuel IH]; intros n; cbn [rev_digits]; constructor.
  - pose proof (Nat.mod_upper_bound n 10). unfold is_digit. lia.
  - destruct (n <? 10)%nat; [constructor|apply IH].
Qed.

Lemma rev_digits_value (fuel : nat) :
  forall n, (n < fuel)%nat -> value_le (rev_digits fuel n) = n.
Proof.
  induction fuel as [|fuel IH]; intros n Hn; [lia|].
  cbn [rev_digits value_le].
  pose proof (Nat.mod_upper_bound n 10) as Hm.
  pose proof (Nat.div_mod_eq n 10) as Hd.
  replace (N.to_nat (N.of_nat (48 + n mod 10)) - 48)%nat with (n mod 10)%nat by lia.
  destruct (n <? 10)%nat eqn:E.
  - apply Nat.ltb_lt in E. rewrite (Nat.mod_small n 10 E). cbn. lia.
  - apply Nat.ltb_ge in E. rewrite IH by lia. lia.
Qed.

Lemma decimal_inj (a b : nat) : decimal a = decimal b -> a = b.
Proof.
  unfold decimal. intros H.
  apply (f_equal (@rev char)) in H. rewrite !rev_involutive in H.
  apply (f_equal value_le) in H. rewrite !rev_digits_value in H; lia.
Qed.

Lemma decimal_digits (n : nat) : Forall is_digit (decimal n).
Proof. unfold decimal. apply Forall_rev, rev_digits_digit. Qed.

(** Two strings that agree, each cut at its first character outside [P],
    have the same parts. *)
Lemma first_outside_unique (P : char -> Prop) (a b r r' : str) (x y : char) :
  Forall P a -> Forall P b -> ~ P x -> ~ P y ->
  a ++ x :: r = b ++ y :: r' -> a = b /\ x :: r = y :: r'.
Proof.
  intros Ha. revert b. induction Ha as [|c a Hc Ha IH]; intros b Hb Hx Hy E.
  - destruct Hb as [|d b Hd Hb]; cbn in E; [auto|].
    injection E as -> _. contradiction.
  - destruct Hb as [|d b Hd Hb]; cbn in E.
    + injection E as -> _. contradiction.
    + injection E as -> E. destruct (IH b Hb Hx Hy E) as (-> & E'). auto.
Qed.

Lemma chunk_id_inj (p q : str) (i j : nat) :
  chunk_id p i = chunk_id q j -> p = q /\ i = j.
Proof.
  unfold chunk_id. intros E.
  apply (f_equal (@rev char)) in E.
  rewrite !app_assoc, !rev_app_distr in E.
  change (rev (lit "::chunk-")) with (DASH :: rev (lit "::chunk")) in E.
  rewrite <- !app_comm_cons in E.
  apply (first_outside_unique is_digit) in E.
  - destruct E as (Ed & Er).
    apply (f_equal (@rev char)) in Ed. rewrite !rev_involutive in Ed.
    apply decimal_inj in Ed. injection Er as Er.
    apply (f_equal (@rev char)) in Er. rewrite !rev_involutive in Er.
    split; [exact Er|lia].
  - apply Forall_rev, decimal_digits.
  - apply Forall_rev, decimal_digits.
  - unfold is_digit, DASH. lia.
  - unfold is_digit, DASH. lia.
Qed.

(** The ids of the chunks of one document. *)
Lemma chunk_records_ids (mk : nat -> str -> record) (prefix : str) (chunks : list str) :
  (forall i ch, rec_id (mk i ch) = chunk_id prefix i) ->
  map rec_id (chunk_records mk chunks) = map (chunk_id prefix) (seq 0 (length chunks)).
Proof.
  intros Hmk. unfold chunk_records. rewrite map_map.
  generalize 0%nat. induction chunks as [|c cs IH]; intros k; [reflexivity|].
  cbn [length seq combine map fst snd]. now rewrite Hmk, IH.
Qed.

Lemma NoDup_map_inj {A B : Type} (f : A -> B) (l : list A) :
  (forall x y, In x l -> In y l -> f x = f y -> x = y) ->
  NoDup l -> NoDup (map f l).
Proof.
  intros Hinj Hl. induction Hl as [|x l Hx Hl IH]; cbn; constructor.
  - rewrite in_map_iff. intros (y & E & Hy).
    apply Hinj in E; [subst; contradiction|now right|now left].
  - apply IH. intros a b Ha Hb. apply Hinj; now right.
Qed.

Lemma block_NoDup (prefix : str) (n : nat) :
  NoDup (map (chunk_id prefix) (seq 0 n)).
Proof.
  apply NoDup_map_inj; [|apply seq_NoDup].
  intros i j _ _ E. now apply chunk_id_inj in E.
Qed.

Lemma chunk_records_In (mk : nat -> str -> record) (chunks : list str) (r : record) :
  In r (chunk_records mk chunks) -> exists i ch, r = mk i ch.
Proof.
  unfold chunk_records. rewrite in_map_iff. intros ((i & ch) & <- & _). now exists i, ch.
Qed.

(** ** Blocks of records under distinct keys *)

Section Keyed.

Variable Q : str -> record -> Prop.

Lemma keyed_In (ks : list str) (rs : list record) :
  keyed Q ks rs -> forall r, In r rs -> exists k, In k ks /\ Q k r.
Proof.
  induction 1 as [ks|k ks rs H IH|k ks recs rs Hq Hnd H IH]; intros r Hr.
  - contradiction.
  - destruct (IH r Hr) as (k' & Hk' & Hq). exists k'. split; [now right|exact Hq].
  - apply in_app_or in Hr. destruct Hr as [Hr|Hr].
    + exists k. split; [now left|auto].
    + destruct (IH r Hr) as (k' & Hk' & Hq'). exists k'. split; [now right|exact Hq'].
Qed.

Lemma keyed_NoDup (ks : list str) (rs : list record) :
  (forall k1 k2 r1 r2, In k1 ks -> In k2 ks -> Q k1 r1 -> Q k2 r2 ->
     rec_id r1 = rec_id r2 -> k1 = k2) ->
  keyed Q ks rs -> NoDup ks -> NoDup (map rec_id rs).
Proof.
  intros Hinj H. induction H as [ks|k ks rs H IH|k ks recs rs Hq Hnd H IH]; intros Hks.
  - constructor.
  - apply IH; [|now inversion Hks]. intros; apply (Hinj k1 k2 r1 r2); auto; now right.
  - rewrite map_app. apply NoDup_app; [exact Hnd| |].
    + apply IH; [|now inversion Hks]. intros; apply (Hinj k1 k2 r1 r2); auto; now right.
    + intros id H1 H2. apply in_map_iff in H1, H2.
      destruct H1 as (r1 & E1 & Hr1). destruct H2 as (r2 & E2 & Hr2).
      destruct (keyed_In _ _ H r2 Hr2) as (k2 & Hk2 & Hq2).
      assert (k = k2).
      { apply (Hinj k k2 r1 r2); auto; [now left|now right|congruence]. }
      subst k2. inversion Hks. contradiction.
Qed.

Lemma keyed_app (ks1 ks2 : list str) (rs1 rs2 : list record) :
  keyed Q ks1 rs1 -> keyed Q ks2 rs2 -> keyed Q (ks1 ++ ks2) (rs1 ++ rs2).
Proof.
  intros H1 H2. induction H1 as [ks|k ks rs H IH|k ks recs rs Hq Hnd H IH]; cbn.
  - induction ks as [|k ks IH]; [exact H2|]. now apply keyed_skip.
  - now apply keyed_skip.
  - rewrite <- app_assoc. now apply keyed_block.
Qed.

Lemma keyed_one (k : str) (recs : list record) :
  (forall r, In r recs -> Q k r) -> NoDup (map rec_id recs) -> keyed Q [k] recs.
Proof.
  intros Hq Hnd. rewrite <- (app_nil_r recs). apply keyed_block; auto. constructor.
Qed.

Lemma keyed_none (ks : list str) : keyed Q ks [].
Proof. constructor. Qed.

(** A loop that stops at the first exception keeps its blocks keyed. *)
Lemma records_until_raise_keyed {A : Type}
    (body : A -> option (list record)) (key : A -> list str) (items : list A) :
  (forall x recs, body x = Some recs -> keyed Q (key x) recs) ->
  forall rs raised,
  records_until_raise body items = (rs, raised) ->
  keyed Q (flat_map key items) rs.
Proof.
  intros Hbody. induction items as [|x rest IH]; intros rs raised H; cbn in H.
  - injection H as <- _. constructor.
  - cbn [flat_map]. destruct (body x) as [recs|] eqn:E.
    + destruct (records_until_raise body rest) as [rs' raised'].
      injection H as <- _. apply keyed_app; [now apply Hbody|]. now apply (IH rs' raised').
    + injection H as <- _. constructor.
Qed.

End Keyed.

(** ** The documentation loop *)

Section Corpus.

Variables (lib : PyLib) (web : Web) (gh : GitHub) (cfg : Config) (fetched_at : str).

Lemma doc_page_records_keyed (u : str) (recs : list record) :
  doc_page_records lib web cfg fetched_at u = Some recs ->
  keyed (docs_rec lib web cfg fetched_at) [u] recs.
Proof.
  intros H. pose proof H as H0. unfold doc_page_records in H.
  destruct (extract_doc_page lib web u) as [pg|]; [|discriminate].
  destruct (is_nil (page_content pg) || (len (page_content pg) <? 200)).
  - injection H as <-. constructor.
  - destruct (split_into_chunks _ _ _ _) as [chunks|]; [|discriminate].
    injection H as <-. apply keyed_one.
    + intros r Hr. pose proof Hr as Hr0.
      apply chunk_records_In in Hr. destruct Hr as (i & ch & ->).
      repeat split; try reflexivity.
      * exists i. cbn [rec_id docs_record]. unfold chunk_id, docs_prefix.
        now rewrite <- app_assoc.
      * eexists. split; [exact H0|exact Hr0].
    + rewrite (chunk_records_ids _ (docs_prefix u)); [apply block_NoDup|].
      intros i ch. cbn [rec_id docs_record]. unfold chunk_id, docs_prefix.
      now rewrite <- app_assoc.
Qed.

Lemma docs_phase_keyed (urls : list str) :
  forall rs ws,
  docs_phase lib web cfg fetched_at urls = (rs, ws) ->
  keyed (docs_rec lib web cfg fetched_at) urls rs
  /\ forall w, In w ws ->
       exists u, w = WarnDocs u /\ doc_page_records lib web cfg fetched_at u = None.
Proof.
  induction urls as [|u rest IH]; intros rs ws H; cbn [docs_phase] in H.
  - injection H as <- <-. split; [constructor|contradiction].
  - destruct (docs_phase lib web cfg fetched_at rest) as [rs' ws'].
    destruct (IH rs' ws' eq_refl) as (Hk & Hw).
    destruct (doc_page_records lib web cfg fetched_at u) as [recs|] eqn:E;
      injection H as <- <-.
    + split; [|exact Hw].
      apply (keyed_app _ [u] rest); [now apply doc_page_records_keyed|exact Hk].
    + split; [now apply keyed_skip|].
      intros w [<-|Hin]; [now exists u|auto].
Qed.

Lemma docs_rec_inj (u1 u2 : str) (r1 r2 : record) :
  docs_rec lib web cfg fetched_at u1 r1 -> docs_rec lib web cfg fetched_at u2 r2 ->
  rec_id r1 = rec_id r2 -> u1 = u2.
Proof.
  intros (_ & _ & (i & E1) & _) (_ & _ & (j & E2) & _) E.
  rewrite E1, E2 in E. apply chunk_id_inj in E. destruct E as (E & _).
  unfold docs_prefix in E. now apply app_inv_head in E.
Qed.

(** ** The repository loop *)

Lemma node_records_keyed (name branch : str) (sha lic : option str) (sha0 : str)
    (node : tree_node) (recs : list record) :
  (forall s, sha = Some s -> s = sha0) ->
  node_records lib gh cfg fetched_at name branch sha lic node = Some recs ->
  keyed (repo_file_rec name sha0) (node_key node) recs.
Proof.
  intros Hsha. unfold node_records, node_key.
  destruct (str_eqb (node_type node) (lit "blob")); cbn [negb];
    [|intros [= <-]; constructor].
  set (path := match node_path node with Some p => p | None => [] end).
  destruct (negb (is_nil (include_exts cfg)) && _); [intros [= <-]; constructor|].
  destruct (negb (_ =? 0) && _); [intros [= <-]; constructor|].
  destruct (path_excluded (exclude_path_globs cfg) path) as [[|]|];
    [intros [= <-]; constructor| |discriminate].
  destruct (get_raw_file gh (org cfg) name branch path) as [[|c t]|];
    [intros [= <-]; constructor| |intros [= <-]; constructor].
  destruct (split_into_chunks _ _ _ _) as [[|ch chs]|];
    [intros [= <-]; constructor| |discriminate].
  destruct sha as [s|]; [|discriminate]. rewrite (Hsha s eq_refl).
  intros [= <-]. apply keyed_one.
  - intros r Hr. apply chunk_records_In in Hr. destruct Hr as (i & ch' & ->).
    split; [reflexivity|]. exists i. cbn [rec_id repo_record].
    unfold chunk_id, repo_prefix. now rewrite <- !app_assoc.
  - rewrite (chunk_records_ids _ (repo_prefix name path sha0)); [apply block_NoDup|].
    intros i ch'. cbn [rec_id repo_record]. unfold chunk_id, repo_prefix.
    now rewrite <- !app_assoc.
Qed.

Lemma repo_file_rec_inj (name sha p1 p2 : str) (r1 r2 : record) :
  repo_file_rec name sha p1 r1 -> repo_file_rec name sha p2 r2 ->
  rec_id r1 = rec_id r2 -> p1 = p2.
Proof.
  intros (_ & i & E1) (_ & j & E2) E. rewrite E1, E2 in E.
  apply chunk_id_inj in E. destruct E as (E & _). unfold repo_prefix in E.
  apply app_inv_head in E. apply app_inv_head in E. apply app_inv_head in E.
  now apply app_inv_tail in E.
Qed.

Lemma repo_file_rec_repo (name sha path : str) (r : record) :
  repo_file_rec name sha path r -> repo_rec name r.
Proof.
  intros (Hs & i & E). split; [exact Hs|].
  exists (path ++ lit "::" ++ firstn 8 sha), i. exact E.
Qed.

Lemma repo_records_keyed (name : str) (rs : list record) (ws : list warning) :
  (forall branch sha tree,
     get_default_branch_sha gh (org cfg) name = Some (branch, sha) ->
     list_repo_tree gh (org cfg) name sha = Some tree -> NoDup (blob_paths tree)) ->
  repo_records lib gh cfg fetched_at name = (rs, ws) ->
  keyed repo_rec [name] rs /\ forall w, In w ws -> w = WarnRepo name.
Proof.
  intros Hpaths. unfold repo_records.
  destruct (get_default_branch_sha gh (org cfg) name) as [[branch sha]|];
    [|intros [= <- <-]; split; [constructor|intros w [<-|[]]; reflexivity]].
  destruct (list_repo_tree gh (org cfg) name sha) as [tree|] eqn:Et;
    [|intros [= <- <-]; split; [constructor|intros w [<-|[]]; reflexivity]].
  destruct (records_until_raise _ tree) as [rs' raised] eqn:Er.
  intros [= <- <-]. split.
  - set (sha0 := match sha with Some s => s | None => [] end).
    assert (Hk : keyed (repo_file_rec name sha0) (blob_paths tree) rs').
    { eapply records_until_raise_keyed; [|exact Er].
      intros node recs. apply node_records_keyed.
      intros s ->. reflexivity. }
    apply keyed_one.
    + intros r Hr. destruct (keyed_In _ _ _ Hk r Hr) as (path & _ & Hq).
      now apply repo_file_rec_repo in Hq.
    + eapply keyed_NoDup; [|exact Hk|now apply (Hpaths branch sha)].
      intros p1 p2 r1 r2 _ _. apply repo_file_rec_inj.
  - destruct raised; intros w Hw; [destruct Hw as [<-|[]]; reflexivity|destruct Hw].
Qed.

Lemma repos_phase_keyed (names : list str) :
  (forall name branch sha tree, In name names ->
     get_default_branch_sha gh (org cfg) name = Some (branch, sha) ->
     list_repo_tree gh (org cfg) name sha = Some tree -> NoDup (blob_paths tree)) ->
  forall rs ws,
  repos_phase lib gh cfg fetched_at names = (rs, ws) ->
  keyed repo_rec names rs /\ forall w, In w ws -> exists name, w = WarnRepo name.
Proof.
  induction names as [|name rest IH]; intros Hpaths rs ws H; cbn [repos_phase] in H.
  - injection H as <- <-. split; [constructor|contradiction].
  - destruct (repo_records lib gh cfg fetched_at name) as [rs1 ws1] eqn:E1.
    destruct (repos_phase lib gh cfg fetched_at rest) as [rs2 ws2].
    injection H as <- <-.
    apply repo_records_keyed in E1;
      [|intros branch sha tree; apply (Hpaths name); now left].
    destruct E1 as (Hk1 & Hw1).
    destruct (IH (fun n b s t Hn => Hpaths n b s t (or_intror Hn)) rs2 ws2 eq_refl)
      as (Hk2 & Hw2).
    split; [apply (keyed_app _ [name] rest); assumption|].
    intros w Hw. apply in_app_or in Hw. destruct Hw as [Hw|Hw]; [|auto].
    exists name. auto.
Qed.

(** Ids that start with a name without colon followed by [::] come from
    the same name. *)
Lemma colon_prefix_inj (tag n1 n2 rest1 rest2 : str) :
  no_colon n1 -> no_colon n2 ->
  tag ++ n1 ++ lit "::" ++ rest1 = tag ++ n2 ++ lit "::" ++ rest2 -> n1 = n2.
Proof.
  intros H1 H2 E. apply app_inv_head in E.
  change (lit "::" ++ rest1) with (COLON :: COLON :: rest1) in E.
  change (lit "::" ++ rest2) with (COLON :: COLON :: rest2) in E.
  apply (first_outside_unique (fun c => c <> COLON)) in E; auto; tauto.
Qed.

Lemma repo_rec_inj (n1 n2 : str) (r1 r2 : record) :
  no_colon n1 -> no_colon n2 -> repo_rec n1 r1 -> repo_rec n2 r2 ->
  rec_id r1 = rec_id r2 -> n1 = n2.
Proof.
  intros H1 H2 (_ & rest1 & i & E1) (_ & rest2 & j & E2) E. rewrite E1, E2 in E.
  apply chunk_id_inj in E. destruct E as (E & _).
  now apply colon_prefix_inj in E.
Qed.

(** ** The release loop *)

Lemma release_records_keyed (repo_name : str) (rel : release) (recs : list record) :
  release_records lib gh cfg fetched_at repo_name rel = Some recs ->
  keyed (release_title_rec repo_name) (release_key rel) recs.
Proof.
  unfold release_records, release_key.
  destruct (release_title rel) as [[|c t]|]; try (intros [= <-]; constructor).
  destruct (split_into_chunks _ _ _ _) as [chunks|]; [|discriminate].
  intros [= <-]. apply keyed_one.
  - intros r Hr. apply chunk_records_In in Hr. destruct Hr as (i & ch & ->).
    split; [reflexivity|]. exists i. cbn [rec_id release_record].
    unfold chunk_id, release_prefix. now rewrite <- !app_assoc.
  - rewrite (chunk_records_ids _ (release_prefix repo_name (c :: t)));
      [apply block_NoDup|].
    intros i ch. cbn [rec_id release_record]. unfold chunk_id, release_prefix.
    now rewrite <- !app_assoc.
Qed.

Lemma titles_from_S (org repo_name : str) (page n : nat) :
  titles_from gh org repo_name page (S n)
  = match releases_page gh org repo_name page with
    | Some rels => page_titles rels
    | None => []
    end ++ titles_from gh org repo_name (S page) n.
Proof. reflexivity. Qed.

Lemma release_pages_keyed (repo_name : str) (fuel : nat) :
  forall page rs raised,
  release_pages fuel lib gh cfg fetched_at repo_name page = Ret (rs, raised) ->
  keyed (release_title_rec repo_name) (titles_from gh (org cfg) repo_name page fuel) rs.
Proof.
  induction fuel as [|fuel IH]; intros page rs raised H; cbn [release_pages] in H;
    [discriminate|].
  rewrite titles_from_S.
  destruct (releases_page gh (org cfg) repo_name page) as [[|rel rels]|];
    try (injection H as <- _; constructor).
  destruct (records_until_raise _ (rel :: rels)) as [rs0 raised0] eqn:Er.
  assert (Hk0 : keyed (release_title_rec repo_name) (page_titles (rel :: rels)) rs0).
  { eapply records_until_raise_keyed; [|exact Er].
    intros x recs. apply release_records_keyed. }
  destruct raised0.
  - injection H as <- _. rewrite <- (app_nil_r rs0).
    apply keyed_app; [exact Hk0|constructor].
  - destruct (release_pages fuel lib gh cfg fetched_at repo_name (S page))
      as [[rs1 raised1]| |] eqn:E1; try discriminate.
    cbn in H. injection H as <- _.
    apply keyed_app; [exact Hk0|]. now apply (IH (S page) rs1 raised1).
Qed.

Lemma release_title_rec_inj (repo_name t1 t2 : str) (r1 r2 : record) :
  release_title_rec repo_name t1 r1 -> release_title_rec repo_name t2 r2 ->
  rec_id r1 = rec_id r2 -> t1 = t2.
Proof.
  intros (_ & i & E1) (_ & j & E2) E. rewrite E1, E2 in E.
  apply chunk_id_inj in E. destruct E as (E & _). unfold release_prefix in E.
  apply app_inv_head in E. apply app_inv_head in E. now apply app_inv_head in E.
Qed.

Lemma release_title_rec_release (repo_name title : str) (r : record) :
  release_title_rec repo_name title r -> release_rec repo_name r.
Proof.
  intros (Hs & i & E). split; [exact Hs|]. now exists title, i.
Qed.

Lemma releases_phase_keyed (fuel : nat) (repo_names : list str) :
  (forall repo_name, In repo_name repo_names ->
     NoDup (titles_from gh (org cfg) repo_name 1 fuel)) ->
  forall rs ws,
  releases_phase fuel lib gh cfg fetched_at repo_names = Ret (rs, ws) ->
  keyed release_rec repo_names rs
  /\ forall w, In w ws -> exists repo_name, w = WarnReleases repo_name.
Proof.
  induction repo_names as [|repo_name rest IH]; intros Htitles rs ws H;
    cbn [releases_phase] in H.
  - injection H as <- <-. split; [constructor|contradiction].
  - destruct (release_pages fuel lib gh cfg fetched_at repo_name 1)
      as [[rs1 raised]| |] eqn:E1; try discriminate.
    cbn [bind] in H.
    destruct (releases_phase fuel lib gh cfg fetched_at rest)
      as [[rs2 ws2]| |] eqn:E2; try discriminate.
    cbn in H. injection H as <- <-.
    destruct (IH (fun n Hn => Htitles n (or_intror Hn)) rs2 ws2 eq_refl) as (Hk2 & Hw2).
    pose proof (release_pages_keyed _ _ _ _ _ E1) as Hk1.
    split.
    + apply (keyed_app _ [repo_name] rest); [|exact Hk2]. apply keyed_one.
      * intros r Hr. destruct (keyed_In _ _ _ Hk1 r Hr) as (t & _ & Hq).
        now apply release_title_rec_release in Hq.
      * eapply keyed_NoDup; [|exact Hk1|apply Htitles; now left].
        intros t1 t2 r1 r2 _ _. apply release_title_rec_inj.
    + intros w Hw. apply in_app_or in Hw. destruct Hw as [Hw|Hw]; [|auto].
      exists repo_name. destruct raised; [|destruct Hw].
      destruct Hw as [<-|[]]. reflexivity.
Qed.

Lemma release_rec_inj (n1 n2 : str) (r1 r2 : record) :
  no_colon n1 -> no_colon n2 -> release_rec n1 r1 -> release_rec n2 r2 ->
  rec_id r1 = rec_id r2 -> n1 = n2.
Proof.
  intros H1 H2 (_ & rest1 & i & E1) (_ & rest2 & j & E2) E. rewrite E1, E2 in E.
  apply chunk_id_inj in E. destruct E as (E & _).
  now apply colon_prefix_inj in E.
Qed.

(** ** The whole run *)

Lemma discover_doc_urls_NoDup (fuel : nat) (base : str) (seeds urls : list str) :
  discover_doc_urls lib web fuel base seeds = Ret urls -> NoDup urls.
Proof.
  unfold discover_doc_urls.
  destruct (sitemap_discovery lib web fuel (rstrip_chars (lit "/") base))
    as [found| |] eqn:E; try discriminate.
  cbn [bind]. destruct (sitemap_discovery_inv _ _ _ _ _ E) as (Hnd & Hall).
  destruct (negb (is_nil found)).
  - intros [= <-]. now apply sorted_NoDup.
  - destruct (bfs_loop _ _ _ _ _ _ _) as [found'| |] eqn:Eb; try discriminate.
    cbn [bind]. intros [= <-]. apply sorted_NoDup.
    now destruct (bfs_loop_inv _ _ _ _ _ _ _ _ Eb Hnd Hall).
Qed.

(** The parts of a finished run. *)
Lemma build_corpus_parts (fuel : nat) (recs : list record) (warns : list warning) :
  build_corpus lib web gh cfg fetched_at fuel = Ret (recs, warns) ->
  exists doc_urls listed docs_recs docs_warns repo_recs repo_warns rel_recs rel_warns,
    discover_doc_urls lib web fuel (rstrip_chars (lit "/") (docs_base cfg)) (doc_seeds cfg)
    = Ret doc_urls
    /\ docs_phase lib web cfg fetched_at doc_urls = (docs_recs, docs_warns)
    /\ list_org_repos fuel gh (org cfg) 1 = Ret listed
    /\ repos_phase lib gh cfg fetched_at (ingested_repos cfg listed) = (repo_recs, repo_warns)
    /\ releases_phase fuel lib gh cfg fetched_at (releases_include_from cfg)
       = Ret (rel_recs, rel_warns)
    /\ recs = docs_recs ++ repo_recs ++ rel_recs
    /\ warns = docs_warns ++ repo_warns ++ rel_warns.
Proof.
  unfold build_corpus, ingested_repos.
  destruct (discover_doc_urls _ _ _ _ _) as [doc_urls| |] eqn:Hd; try discriminate.
  cbn [bind]. destruct (docs_phase _ _ _ _ doc_urls) as [docs_recs docs_warns] eqn:Hdp.
  destruct (list_org_repos fuel gh (org cfg) 1) as [listed| |] eqn:Hl; try discriminate.
  cbn [bind]. destruct (repos_phase _ _ _ _ _) as [repo_recs repo_warns] eqn:Hrp.
  destruct (releases_phase _ _ _ _ _ _) as [[rel_recs rel_warns]| |] eqn:Hlp;
    try discriminate.
  cbn. intros [= <- <-].
  exists doc_urls, listed, docs_recs, docs_warns, repo_recs, repo_warns, rel_recs, rel_warns.
  repeat split; assumption || reflexivity.
Qed.

(** The records and warnings of the two GitHub loops are of their kind. *)
Lemma repos_phase_kinds (names : list str) :
  forall rs ws,
  repos_phase lib gh cfg fetched_at names = (rs, ws) ->
  (forall r, In r rs -> rec_source_type r = Repo)
  /\ (forall w, In w ws -> exists name, w = WarnRepo name).
Proof.
  induction names as [|name rest IH]; intros rs ws H; cbn [repos_phase] in H.
  - injection H as <- <-. split; contradiction.
  - destruct (repo_records lib gh cfg fetched_at name) as [rs1 ws1] eqn:E1.
    destruct (repos_phase lib gh cfg fetched_at rest) as [rs2 ws2].
    injection H as <- <-. destruct (IH rs2 ws2 eq_refl) as (Hr2 & Hw2).
    assert (H1 : (forall r, In r rs1 -> rec_source_type r = Repo)
                 /\ (forall w, In w ws1 -> w = WarnRepo name)).
    { unfold repo_records in E1.
      destruct (get_default_branch_sha gh (org cfg) name) as [[branch sha]|];
        [|injection E1 as <- <-; split; [contradiction|intros w [<-|[]]; reflexivity]].
      destruct (list_repo_tree gh (org cfg) name sha) as [tree|];
        [|injection E1 as <- <-; split; [contradiction|intros w [<-|[]]; reflexivity]].
      destruct (records_until_raise _ tree) as [rs' raised] eqn:Er.
      injection E1 as <- <-. split.
      - assert (Hk : keyed (repo_file_rec name
                              match sha with Some s => s | None => [] end)
                       (blob_paths tree) rs').
        { eapply records_until_raise_keyed; [|exact Er].
          intros node recs'. apply node_records_keyed. intros s ->. reflexivity. }
        intros r Hr. destruct (keyed_In _ _ _ Hk r Hr) as (path & _ & Hs & _). exact Hs.
      - destruct raised; intros w Hw; [destruct Hw as [<-|[]]; reflexivity|destruct Hw]. }
    destruct H1 as (Hr1 & Hw1). split.
    + intros r Hr. apply in_app_or in Hr. destruct Hr; auto.
    + intros w Hw. apply in_app_or in Hw. destruct Hw as [Hw|Hw]; [|auto].
      exists name. auto.
Qed.

Lemma releases_phase_kinds (fuel : nat) (repo_names : list str) :
  forall rs ws,
  releases_phase fuel lib gh cfg fetched_at repo_names = Ret (rs, ws) ->
  (forall r, In r rs -> rec_source_type r = Release)
  /\ (forall w, In w ws -> exists repo_name, w = WarnReleases repo_name).
Proof.
  induction repo_names as [|repo_name rest IH]; intros rs ws H;
    cbn [releases_phase] in H.
  - injection H as <- <-. split; contradiction.
  - destruct (release_pages fuel lib gh cfg fetched_at repo_name 1)
      as [[rs1 raised]| |] eqn:E1; try discriminate.
    cbn [bind] in H.
    destruct (releases_phase fuel lib gh cfg fetched_at rest)
      as [[rs2 ws2]| |] eqn:E2; try discriminate.
    cbn in H. injection H as <- <-.
    destruct (IH rs2 ws2 eq_refl) as (Hr2 & Hw2).
    pose proof (release_pages_keyed _ _ _ _ _ E1) as Hk1. split.
    + intros r Hr. apply in_app_or in Hr. destruct Hr as [Hr|Hr]; [|auto].
      destruct (keyed_In _ _ _ Hk1 r Hr) as (t & _ & Hs & _). exact Hs.
    + intros w Hw. apply in_app_or in Hw. destruct Hw as [Hw|Hw]; [|auto].
      exists repo_name. destruct raised; [|destruct Hw].
      destruct Hw as [<-|[]]. reflexivity.
Qed.

(** C3 (amended). The ids of the records of a run are pairwise distinct
    when the locators are: the repositories ingested are pairwise distinct
    and their names have no colon, no tree lists a blob path twice, the
    repositories whose releases are ingested are pairwise distinct with
    names without colon, and no repository has two releases of the same
    name. *)
Theorem build_corpus_ids_distinct (fuel : nat) (recs : list record) (warns : list warning)
    (listed : list str) :
  build_corpus lib web gh cfg fetched_at fuel = Ret (recs, warns) ->
  list_org_repos fuel gh (org cfg) 1 = Ret listed ->
  NoDup (ingested_repos cfg listed) ->
  Forall no_colon (ingested_repos cfg listed) ->
  (forall name branch sha tree, In name (ingested_repos cfg listed) ->
     get_default_branch_sha gh (org cfg) name = Some (branch, sha) ->
     list_repo_tree gh (org cfg) name sha = Some tree -> NoDup (blob_paths tree)) ->
  NoDup (releases_include_from cfg) ->
  Forall no_colon (releases_include_from cfg) ->
  (forall repo_name, In repo_name (releases_include_from cfg) ->
     NoDup (titles_from gh (org cfg) repo_name 1 fuel)) ->
  NoDup (map rec_id recs).
Proof.
  intros Hrun Hlisted Hnames Hnc Hpaths Hrels Hrnc Htitles.
  destruct (build_corpus_parts _ _ _ Hrun)
    as (doc_urls & listed' & drs & dws & rrs & rws & lrs & lws
        & Hd & Hdp & Hl & Hrp & Hlp & -> & _).
  rewrite Hlisted in Hl. injection Hl as <-.
  apply discover_doc_urls_NoDup in Hd.
  destruct (docs_phase_keyed _ _ _ Hdp) as (Hkd & _).
  destruct (repos_phase_keyed _ Hpaths _ _ Hrp) as (Hkr & _).
  destruct (releases_phase_keyed _ _ Htitles _ _ Hlp) as (Hkl & _).
  rewrite Forall_forall in Hnc, Hrnc.
  assert (Hnd_d : NoDup (map rec_id drs)).
  { eapply keyed_NoDup; [|exact Hkd|exact Hd].
    intros u1 u2 r1 r2 _ _. apply docs_rec_inj. }
  assert (Hnd_r : NoDup (map rec_id rrs)).
  { eapply keyed_NoDup; [|exact Hkr|exact Hnames].
    intros n1 n2 r1 r2 H1 H2. apply repo_rec_inj; auto. }
  assert (Hnd_l : NoDup (map rec_id lrs)).
  { eapply keyed_NoDup; [|exact Hkl|exact Hrels].
    intros n1 n2 r1 r2 H1 H2. apply release_rec_inj; auto. }
  rewrite !map_app.
  apply NoDup_app; [exact Hnd_d|apply NoDup_app; [exact Hnd_r|exact Hnd_l|]|].
  - intros id H1 H2. apply in_map_iff in H1, H2.
    destruct H1 as (r1 & E1 & Hr1). destruct H2 as (r2 & E2 & Hr2).
    destruct (keyed_In _ _ _ Hkr r1 Hr1) as (n1 & _ & _ & rest1 & i & Ei).
    destruct (keyed_In _ _ _ Hkl r2 Hr2) as (n2 & _ & _ & rest2 & j & Ej).
    rewrite <- E2, Ei, Ej in E1. apply chunk_id_inj in E1.
    destruct E1 as (E1 & _). cbn in E1. discriminate.
  - intros id H1 H2. apply in_map_iff in H1.
    destruct H1 as (r1 & E1 & Hr1).
    destruct (keyed_In _ _ _ Hkd r1 Hr1) as (u & _ & _ & _ & (i & Ei) & _).
    apply in_app_or in H2. destruct H2 as [H2|H2]; apply in_map_iff in H2;
      destruct H2 as (r2 & E2 & Hr2).
    + destruct (keyed_In _ _ _ Hkr r2 Hr2) as (n2 & _ & _ & rest2 & j & Ej).
      rewrite <- E2, Ei, Ej in E1. apply chunk_id_inj in E1.
      destruct E1 as (E1 & _). cbn in E1. discriminate.
    + destruct (keyed_In _ _ _ Hkl r2 Hr2) as (n2 & _ & _ & rest2 & j & Ej).
      rewrite <- E2, Ei, Ej in E1. apply chunk_id_inj in E1.
      destruct E1 as (E1 & _). cbn in E1. discriminate.
Qed.

(** C10. A page whose normalized content is empty or shorter than 200
    characters leaves no documentation record in the corpus and no
    warning. *)
Theorem short_doc_pages_emit_nothing (fuel : nat) (recs : list record)
    (warns : list warning) (u : str) (pg : page) :
  build_corpus lib web gh cfg fetched_at fuel = Ret (recs, warns) ->
  extract_doc_page lib web u = Some pg ->
  page_content pg = [] \/ len (page_content pg) < 200 ->
  (forall r, In r recs -> rec_source_type r = Docs -> rec_url r <> Some u)
  /\ ~ In (WarnDocs u) warns.
Proof.
  intros Hrun Hpg Hshort.
  assert (Hskip : doc_page_records lib web cfg fetched_at u = Some []).
  { unfold doc_page_records. rewrite Hpg.
    replace (is_nil (page_content pg) || (len (page_content pg) <? 200)) with true;
      [reflexivity|].
    symmetry. apply orb_true_iff. destruct Hshort as [->|Hlt]; [now left|].
    right. now apply Z.ltb_lt. }
  destruct (build_corpus_parts _ _ _ Hrun)
    as (doc_urls & listed & drs & dws & rrs & rws & lrs & lws
        & Hd & Hdp & Hl & Hrp & Hlp & -> & ->).
  destruct (docs_phase_keyed _ _ _ Hdp) as (Hkd & Hwd).
  destruct (repos_phase_kinds _ _ _ Hrp) as (Hrk & Hrw).
  destruct (releases_phase_kinds _ _ _ _ Hlp) as (Hlk & Hlw).
  split.
  - intros r Hr Hdocs Hurl. apply in_app_or in Hr. destruct Hr as [Hr|Hr].
    + destruct (keyed_In _ _ _ Hkd r Hr) as (u' & _ & _ & Hu' & _ & recs' & He & Hin).
      rewrite Hurl in Hu'. injection Hu' as <-. rewrite Hskip in He.
      injection He as <-. contradiction.
    + apply in_app_or in Hr. destruct Hr as [Hr|Hr].
      * apply Hrk in Hr. congruence.
      * apply Hlk in Hr. congruence.
  - intros Hw. apply in_app_or in Hw. destruct Hw as [Hw|Hw].
    + destruct (Hwd _ Hw) as (u' & [= <-] & Hnone). congruence.
    + apply in_app_or in Hw. destruct Hw as [Hw|Hw].
      * destruct (Hrw _ Hw) as (name & E). discriminate.
      * destruct (Hlw _ Hw) as (name & E). discriminate.
Qed.

End Corpus.

(** ** The builder on the scenarios *)

Lemma nodupb_NoDup (l : list str) : nodupb l = true <-> NoDup l.
Proof.
  induction l as [|x r IH]; cbn [nodupb].
  - split; [constructor|reflexivity].
  - rewrite andb_true_iff, negb_true_iff, mem_not_In, IH. split.
    + intros (Hx & Hr). now constructor.
    + intros H. inversion H. auto.
Qed.

Example discover_sitemap_index_ex :
  discover_doc_urls demo_lib demo_web 20 (lit "https://opentdf.io/") [lit "/introduction"]
  = Ret [lit "https://opentdf.io/introduction"; lit "https://opentdf.io/spec/stub"].
Proof. vm_compute. reflexivity. Qed.

Example discover_fallback_ex :
  sitemap_discovery demo_lib demo_web_no_sitemap 20 (lit "https://opentdf.io") = Ret []
  /\ discover_doc_urls demo_lib demo_web_no_sitemap 20 (lit "https://opentdf.io/")
       [lit "/introduction"; lit "/missing"]
     = Ret [lit "https://opentdf.io/introduction"].
Proof. split; vm_compute; reflexivity. Qed.

(** On the site with cycles the sitemap phase ends without a page, and
    the crawl ends with the two pages that can be fetched. *)
Example discover_doc_urls_cyclic_ex :
  sitemap_discovery demo_lib_links demo_web_cyclic 20 (lit "https://opentdf.io") = Ret []
  /\ fallback_crawl demo_lib_links demo_web_cyclic 20 (lit "https://opentdf.io")
       [lit "/introduction"]
     = Ret [lit "https://opentdf.io/introduction"; lit "https://opentdf.io/spec/a"].
Proof. split; vm_compute; reflexivity. Qed.

Lemma discover_doc_urls_sitemap_then_fallback_witness :
  discover_doc_urls demo_lib demo_web 20 (lit "https://opentdf.io/") [lit "/introduction"]
  = Ret (sorted [lit "https://opentdf.io/spec/stub"; lit "https://opentdf.io/introduction"])
  /\ discover_doc_urls demo_lib_links demo_web_cyclic 20 (lit "https://opentdf.io/")
       [lit "/introduction"]
     = Ret [lit "https://opentdf.io/introduction"; lit "https://opentdf.io/spec/a"].
Proof.
  split.
  - destruct (discover_doc_urls_sitemap_then_fallback demo_lib demo_web 20
                (lit "https://opentdf.io/") [lit "/introduction"]
                [lit "https://opentdf.io/spec/stub"; lit "https://opentdf.io/introduction"])
      as (_ & _ & Hfound & _).
    + vm_compute. reflexivity.
    + apply Hfound; [discriminate|lia].
  - destruct (discover_doc_urls_sitemap_then_fallback demo_lib_links demo_web_cyclic 20
                (lit "https://opentdf.io/") [lit "/introduction"] [])
      as (_ & _ & _ & Hcrawl).
    + vm_compute. reflexivity.
    + destruct (Hcrawl eq_refl) as (_ & Hurls).
      destruct (Hurls [lit "https://opentdf.io/introduction"; lit "https://opentdf.io/spec/a"])
        as (Hrun & _).
      * vm_compute. reflexivity.
      * apply Hrun. lia.
Defined.

Example build_corpus_ids_ex :
  exists recs warns,
    build_corpus demo_lib demo_web (demo_github [demo_release "v1.0" "v1.0.0"])
      demo_config demo_now 20 = Ret (recs, warns)
    /\ warns = []
    /\ map rec_id recs
       = [lit "docs::https://opentdf.io/introduction::chunk-1";
          lit "repo::platform::README.md::8f3a1c2d::chunk-1";
          lit "repo::platform::README.md::8f3a1c2d::chunk-2";
          lit "repo::spec::README.md::8f3a1c2d::chunk-1";
          lit "repo::spec::README.md::8f3a1c2d::chunk-2";
          lit "release::platform::v1.0::chunk-1"].
Proof. eexists. eexists. split; [vm_compute; reflexivity|]. split; reflexivity. Qed.

Lemma build_corpus_ids_distinct_witness :
  exists recs warns,
    build_corpus demo_lib demo_web (demo_github [demo_release "v1.0" "v1.0.0"])
      demo_config demo_now 20 = Ret (recs, warns)
    /\ NoDup (map rec_id recs).
Proof.
  eexists. eexists. split; [vm_compute; reflexivity|].
  eapply (build_corpus_ids_distinct demo_lib demo_web
            (demo_github [demo_release "v1.0" "v1.0.0"]) demo_config demo_now 20
            _ _ [lit "platform"; lit "spec"]).
  - vm_compute. reflexivity.
  - vm_compute. reflexivity.
  - apply nodupb_NoDup. vm_compute. reflexivity.
  - vm_compute. repeat constructor; intro; discriminate.
  - intros name branch sha tree _ _ H. cbn in H. injection H as <-.
    apply nodupb_NoDup. vm_compute. reflexivity.
  - apply nodupb_NoDup. vm_compute. reflexivity.
  - vm_compute. repeat constructor; intro; discriminate.
  - intros repo_name _. apply nodupb_NoDup. vm_compute. reflexivity.
Defined.

(** C3 as stated fails: release ids are derived from the release name,
    and a repository may hold two releases of the same name (under
    different tags). *)
Lemma build_corpus_ids_counterexample :
  exists recs warns,
    build_corpus demo_lib demo_web
      (demo_github [demo_release "Nightly" "nightly-2024-05-01";
                    demo_release "Nightly" "nightly-2024-04-30"])
      demo_config demo_now 20 = Ret (recs, warns)
    /\ ~ NoDup (map rec_id recs).
Proof.
  eexists. eexists. split; [vm_compute; reflexivity|].
  intros H. apply nodupb_NoDup in H. vm_compute in H. discriminate.
Qed.

Lemma short_doc_pages_emit_nothing_witness :
  exists recs warns,
    build_corpus demo_lib demo_web (demo_github [demo_release "v1.0" "v1.0.0"])
      demo_config demo_now 20 = Ret (recs, warns)
    /\ (forall r, In r recs -> rec_source_type r = Docs ->
          rec_url r <> Some (lit "https://opentdf.io/spec/stub"))
    /\ ~ In (WarnDocs (lit "https://opentdf.io/spec/stub")) warns.
Proof.
  eexists. eexists. split; [vm_compute; reflexivity|].
  eapply (short_doc_pages_emit_nothing demo_lib demo_web
            (demo_github [demo_release "v1.0" "v1.0.0"]) demo_config demo_now 20).
  - vm_compute. reflexivity.
  - vm_compute. reflexivity.
  - right. vm_compute. reflexivity.
Defined.

(* ================================================================== *)
(** * Part III: further properties of the builder *)
(* ================================================================== *)

(** ** Normalized text *)

Lemma blanks_ok_no_tab (b : bool) (s : str) : blanks_ok b s -> ~ In TAB s.
Proof.
  revert b. induction s as [|c t IH]; intros b H; [auto|].
  cbn [blanks_ok] in H. intros [->|Hin].
  - cbn in H. destruct H as (H & _). discriminate.
  - destruct (is_blank c); [destruct H as (_ & _ & H)|]; now apply IH in H.
Qed.

Lemma blanks_ok_no_double_space (b : bool) (s : str) :
  blanks_ok b s -> contains [SP; SP] s = false.
Proof.
  revert b. induction s as [|c t IH]; intros b H; [reflexivity|].
  cbn [contains]. apply orb_false_iff. split.
  - rewrite startswith_cons. destruct (SP =? c)%N eqn:Ec; [|reflexivity].
    apply N.eqb_eq in Ec. subst c. cbn in H. destruct H as (_ & _ & H).
    destruct t as [|c2 t2]; [reflexivity|].
    rewrite startswith_cons. destruct (SP =? c2)%N eqn:Ec2; [|reflexivity].
    apply N.eqb_eq in Ec2. subst c2. cbn in H. destruct H as (_ & H & _). discriminate.
  - cbn [blanks_ok] in H.
    destruct (is_blank c); [destruct H as (_ & _ & H)|]; now apply IH in H.
Qed.

Lemma newlines_ok_no_triple (k : nat) (s : str) :
  newlines_ok k s -> contains [LF; LF; LF] s = false.
Proof.
  revert k. induction s as [|c t IH]; intros k H; [reflexivity|].
  cbn [contains]. apply orb_false_iff. split.
  - rewrite startswith_cons. destruct (LF =? c)%N eqn:Ec; [|reflexivity].
    apply N.eqb_eq in Ec. subst c. cbn in H. destruct H as (H1 & H).
    destruct t as [|c2 t2]; [reflexivity|].
    rewrite startswith_cons. destruct (LF =? c2)%N eqn:Ec2; [|reflexivity].
    apply N.eqb_eq in Ec2. subst c2. cbn in H. destruct H as (H2 & H).
    destruct t2 as [|c3 t3]; [reflexivity|].
    rewrite startswith_cons. destruct (LF =? c3)%N eqn:Ec3; [|reflexivity].
    apply N.eqb_eq in Ec3. subst c3. cbn in H. lia.
  - cbn [newlines_ok] in H.
    destruct (c =? LF)%N; [destruct H as (_ & H)|]; now apply IH in H.
Qed.

(** X1. The result of [clean_text] holds no carriage return and no tab,
    no two spaces and no three newlines in a row, and no white space at
    its ends. *)
Theorem clean_text_normal_form (s : str) :
  ~ In CR (clean_text s)
  /\ ~ In TAB (clean_text s)
  /\ contains [SP; SP] (clean_text s) = false
  /\ contains [LF; LF; LF] (clean_text s) = false
  /\ strip (clean_text s) = clean_text s.
Proof.
  destruct (clean_text_normal s) as (Hcr & Hb & Hn). repeat split.
  - intros Hin. unfold no_cr in Hcr. rewrite Forall_forall in Hcr.
    now apply (Hcr CR Hin).
  - now apply blanks_ok_no_tab in Hb.
  - now apply blanks_ok_no_double_space in Hb.
  - now apply newlines_ok_no_triple in Hn.
  - unfold clean_text. apply strip_idem.
Qed.

Lemma sub_crlf_length_upto (n : nat) :
  forall s, (length s <= n)%nat -> (length (sub_crlf s) <= length s)%nat.
Proof.
  induction n as [|n IH]; intros [|c t] Hl; cbn [sub_crlf length] in *; try lia.
  destruct (c =? CR)%N.
  - destruct t as [|c2 t2]; [cbn; lia|].
    destruct (c2 =? LF)%N.
    + pose proof (IH t2). cbn [length] in *. specialize (H ltac:(lia)). lia.
    + pose proof (IH (c2 :: t2) ltac:(cbn [length] in *; lia)). cbn [length] in *. lia.
  - pose proof (IH t ltac:(lia)). cbn [length]. lia.
Qed.

Lemma sub_blanks_length (b : bool) (s : str) :
  (length (sub_blanks_from b s) <= length s)%nat.
Proof.
  revert b. induction s as [|c t IH]; intros b; cbn [sub_blanks_from length]; [lia|].
  destruct (is_blank c); [destruct b|]; cbn [length];
    [pose proof (IH true)|pose proof (IH true)|pose proof (IH false)]; lia.
Qed.

Lemma sub_newlines_length (k : nat) (s : str) :
  (length (sub_newlines_from k s) <= length s)%nat.
Proof.
  revert k. induction s as [|c t IH]; intros k; cbn [sub_newlines_from length]; [lia|].
  destruct (c =? LF)%N; [destruct (k <? 2)%nat|]; cbn [length];
    [pose proof (IH (S k))|pose proof (IH k)|pose proof (IH 0%nat)]; lia.
Qed.

(** X2. [clean_text] never lengthens a text. *)
Theorem clean_text_length (s : str) : len (clean_text s) <= len s.
Proof.
  unfold clean_text, len, sub_blanks, sub_newlines.
  pose proof (strip_length (sub_newlines_from 0 (sub_blanks_from false (sub_crlf s)))).
  pose proof (sub_newlines_length 0 (sub_blanks_from false (sub_crlf s))).
  pose proof (sub_blanks_length false (sub_crlf s)).
  pose proof (sub_crlf_length_upto (length s) s (le_n _)).
  lia.
Qed.

Lemma sub_crlf_all_space_upto (n : nat) :
  forall s, (length s <= n)%nat -> all_space s -> all_space (sub_crlf s).
Proof.
  induction n as [|n IH]; intros [|c t] Hl Hs; cbn [sub_crlf length] in *;
    try constructor; try lia.
  inversion Hs as [|? ? Hc Ht]; subst.
  destruct (c =? CR)%N.
  - constructor; [reflexivity|].
    destruct t as [|c2 t2]; [constructor|].
    destruct (c2 =? LF)%N; apply IH; cbn [length] in *; try lia; auto.
    now inversion Ht.
  - constructor; [exact Hc|]. apply IH; [lia|exact Ht].
Qed.

Lemma sub_blanks_all_space (b : bool) (s : str) :
  all_space s -> all_space (sub_blanks_from b s).
Proof.
  intros H. revert b. induction H as [|c t Hc Ht IH]; intros b; cbn [sub_blanks_from];
    [constructor|].
  destruct (is_blank c); [destruct b|].
  - apply IH.
  - constructor; [reflexivity|apply IH].
  - constructor; [exact Hc|apply IH].
Qed.

Lemma sub_newlines_all_space (k : nat) (s : str) :
  all_space s -> all_space (sub_newlines_from k s).
Proof.
  intros H. revert k. induction H as [|c t Hc Ht IH]; intros k; cbn [sub_newlines_from];
    [constructor|].
  destruct (c =? LF)%N; [destruct (k <? 2)%nat|].
  - constructor; [reflexivity|apply IH].
  - apply IH.
  - constructor; [exact Hc|apply IH].
Qed.

Lemma lstrip_all_space (s : str) : all_space s -> lstrip s = [].
Proof.
  induction 1 as [|c t Hc Ht IH]; [reflexivity|]. cbn. now rewrite Hc.
Qed.

Lemma sub_crlf_keeps_upto (n : nat) (x : char) :
  isspace x = false ->
  forall s, (length s <= n)%nat -> In x s -> In x (sub_crlf s).
Proof.
  intros Hx. induction n as [|n IH]; intros [|c t] Hl Hin; cbn [sub_crlf length] in *;
    try contradiction; try lia.
  destruct (c =? CR)%N eqn:Ec.
  - apply N.eqb_eq in Ec. subst c. right.
    destruct Hin as [<-|Hin]; [discriminate|].
    destruct t as [|c2 t2]; [contradiction|].
    destruct (c2 =? LF)%N eqn:Ec2.
    + apply N.eqb_eq in Ec2. subst c2. destruct Hin as [<-|Hin]; [discriminate|].
      apply IH; [cbn [length] in *; lia|exact Hin].
    + apply IH; [cbn [length] in *; lia|exact Hin].
  - destruct Hin as [->|Hin]; [now left|]. right. apply IH; [lia|exact Hin].
Qed.

Lemma nonspace_not_blank (x : char) : isspace x = false -> is_blank x = false.
Proof.
  intros Hx. destruct (is_blank x) eqn:E; [|reflexivity].
  apply blank_isspace in E. congruence.
Qed.

Lemma nonspace_not_LF (x : char) : isspace x = false -> (x =? LF)%N = false.
Proof.
  intros Hx. destruct (x =? LF)%N eqn:E; [|reflexivity].
  apply LF_isspace in E. congruence.
Qed.

Lemma sub_blanks_keeps (x : char) (b : bool) (s : str) :
  isspace x = false -> In x s -> In x (sub_blanks_from b s).
Proof.
  intros Hx. revert b. induction s as [|c t IH]; intros b Hin; [contradiction|].
  cbn [sub_blanks_from]. destruct Hin as [->|Hin].
  - rewrite (nonspace_not_blank _ Hx). now left.
  - destruct (is_blank c); [destruct b|]; try (right; now apply IH); now apply IH.
Qed.

Lemma sub_newlines_keeps (x : char) (k : nat) (s : str) :
  isspace x = false -> In x s -> In x (sub_newlines_from k s).
Proof.
  intros Hx. revert k. induction s as [|c t IH]; intros k Hin; [contradiction|].
  cbn [sub_newlines_from]. destruct Hin as [->|Hin].
  - rewrite (nonspace_not_LF _ Hx). now left.
  - destruct (c =? LF)%N; [destruct (k <? 2)%nat|]; try (right; now apply IH);
      now apply IH.
Qed.

Lemma lstrip_keeps (x : char) (s : str) :
  isspace x = false -> In x s -> In x (lstrip s).
Proof.
  intros Hx. induction s as [|c t IH]; intros Hin; [contradiction|].
  cbn [lstrip]. destruct (isspace c) eqn:Ec; [|exact Hin].
  destruct Hin as [->|Hin]; [congruence|now apply IH].
Qed.

Lemma rstrip_keeps (x : char) (s : str) :
  isspace x = false -> In x s -> In x (rstrip s).
Proof.
  intros Hx. induction s as [|c t IH]; intros Hin; [contradiction|].
  destruct (rstrip_cons c t) as [(E & Hc & Ht)|[(E & Hc & Ht)|(E & Hne)]]; rewrite E.
  - destruct Hin as [->|Hin]; [congruence|]. apply IH in Hin. now rewrite Ht in Hin.
  - destruct Hin as [->|Hin]; [now left|]. apply IH in Hin. now rewrite Ht in Hin.
  - destruct Hin as [->|Hin]; [now left|]. right. now apply IH.
Qed.

(** X3. [clean_text] gives the empty string exactly on the texts made of
    white space only: every other character of a text survives it. *)
Theorem clean_text_empty_iff (s : str) : clean_text s = [] <-> all_space s.
Proof.
  split.
  - intros E. apply Forall_forall. intros x Hin.
    destruct (isspace x) eqn:Hx; [reflexivity|]. exfalso.
    assert (Hk : In x (clean_text s)).
    { unfold clean_text, strip, sub_newlines, sub_blanks.
      apply rstrip_keeps, lstrip_keeps, sub_newlines_keeps, sub_blanks_keeps; auto.
      now apply (sub_crlf_keeps_upto (length s)). }
    rewrite E in Hk. contradiction.
  - intros H. unfold clean_text, strip, sub_newlines, sub_blanks.
    rewrite lstrip_all_space; [reflexivity|].
    apply sub_newlines_all_space, sub_blanks_all_space.
    now apply (sub_crlf_all_space_upto (length s)).
Qed.

(** X4. The token estimate is at least 1 and is the length divided by 4,
    rounded down, from 4 characters on. *)
Theorem approx_tokens_bounds (text : str) :
  1 <= approx_tokens text
  /\ 4 * approx_tokens text <= Z.max 4 (len text)
  /\ len text < 4 * approx_tokens text + 4.
Proof.
  unfold approx_tokens. pose proof (len_nonneg text).
  pose proof (Z.div_mod (len text) 4 ltac:(lia)).
  pose proof (Z.mod_pos_bound (len text) 4 ltac:(lia)). lia.
Qed.

(** ** The chunker: errors and edge cases *)

Lemma brutal_split_some (p : str) (hard_max : Z) :
  hard_max <> 0 -> exists pieces, brutal_split p hard_max = Some pieces.
Proof.
  intros H. unfold brutal_split. apply Z.eqb_neq in H. rewrite H.
  destruct (hard_max <? 0); eexists; reflexivity.
Qed.

Lemma chunk_loop_some (target_chars hard_max min_chars : Z) (paras : list str) :
  hard_max <> 0 ->
  forall st, exists st', chunk_loop target_chars hard_max min_chars paras st = Some st'.
Proof.
  intros H. induction paras as [|p ps IH]; intros st; cbn [chunk_loop].
  - now exists st.
  - unfold chunk_step. destruct (cur st + len p + 2 <=? target_chars); [apply IH|].
    destruct (hard_max <? len p); [|apply IH].
    destruct (brutal_split_some p hard_max H) as (pieces & ->). apply IH.
Qed.

(** X5. With a hard maximum other than 0, [split_into_chunks] raises no
    exception: it returns a list of chunks for every text and every
    target and minimum. *)
Theorem split_into_chunks_total (text : str) (target_chars hard_max min_chars : Z) :
  hard_max <> 0 ->
  exists cs, split_into_chunks text target_chars hard_max min_chars = Some cs.
Proof.
  intros H. unfold split_into_chunks.
  destruct (len text <=? hard_max); [now eexists|].
  destruct (chunk_loop_some target_chars hard_max min_chars
              (re_split_paras (strip text)) H (mkChunker [] [] 0)) as (st & ->).
  destruct (buf st); eexists; reflexivity.
Qed.

Lemma split_into_chunks_total_witness :
  exists cs, split_into_chunks (lit "abcdefghijk") 0 2 0 = Some cs.
Proof. apply split_into_chunks_total. discriminate. Defined.

Lemma range_step_nonempty (n h : nat) :
  (1 <= n)%nat -> (1 <= h)%nat -> range_step n h <> [].
Proof.
  intros Hn Hh. unfold range_step.
  assert (0 < (n + h - 1) / h)%nat by (apply Nat.div_str_pos; lia).
  destruct ((n + h - 1) / h)%nat; [lia|]. discriminate.
Qed.

Lemma chunk_step_progress (target_chars hard_max min_chars : Z) (st st' : chunker)
    (p : str) :
  0 <= hard_max ->
  chunk_step target_chars hard_max min_chars st p = Some st' ->
  chunks st' <> [] \/ buf st' <> [].
Proof.
  intros Hh. unfold chunk_step.
  destruct (cur st + len p + 2 <=? target_chars).
  - intros [= <-]. right. cbn. destruct (buf st); discriminate.
  - destruct (hard_max <? len p) eqn:Ebig.
    + unfold brutal_split. destruct (hard_max =? 0) eqn:E0; [discriminate|].
      replace (hard_max <? 0) with false by (symmetry; apply Z.ltb_ge; lia).
      intros [= <-]. left. cbn. apply Z.ltb_lt in Ebig. apply Z.eqb_neq in E0.
      intros E. apply app_eq_nil in E. destruct E as (_ & E).
      apply map_eq_nil in E. revert E. apply range_step_nonempty; unfold len in *; lia.
    + intros [= <-]. right. discriminate.
Qed.

Lemma chunk_loop_progress (target_chars hard_max min_chars : Z) (paras : list str) :
  0 <= hard_max ->
  forall st st',
  paras <> [] \/ chunks st <> [] \/ buf st <> [] ->
  chunk_loop target_chars hard_max min_chars paras st = Some st' ->
  chunks st' <> [] \/ buf st' <> [].
Proof.
  intros Hh. induction paras as [|p ps IH]; intros st st' Hst; cbn [chunk_loop].
  - intros [= <-]. destruct Hst as [Hst|Hst]; [contradiction|exact Hst].
  - destruct (chunk_step target_chars hard_max min_chars st p) as [st1|] eqn:E;
      [|discriminate].
    apply IH. right. now apply (chunk_step_progress _ _ _ _ _ _ Hh E).
Qed.

(** X6. With a hard maximum of 0 or more, the list [split_into_chunks]
    returns is never empty. *)
Theorem split_into_chunks_nonempty (text : str) (target_chars hard_max min_chars : Z)
    (cs : list str) :
  0 <= hard_max ->
  split_into_chunks text target_chars hard_max min_chars = Some cs ->
  cs <> [].
Proof.
  intros Hh. unfold split_into_chunks.
  destruct (len text <=? hard_max); [intros [= <-]; discriminate|].
  destruct (chunk_loop _ _ _ _ _) as [st|] eqn:El; [|discriminate].
  apply chunk_loop_progress in El; [|exact Hh|].
  - destruct (buf st) as [|x r]; intros [= <-].
    + destruct El as [El|El]; [exact El|contradiction].
    + intros E. apply app_eq_nil in E. destruct E as (_ & E). discriminate.
  - left. unfold re_split_paras. destruct (re_split_from false (strip text)). discriminate.
Qed.

Lemma split_into_chunks_nonempty_witness :
  [lit "aaaa"; lit "cccc"] <> [].
Proof.
  apply (split_into_chunks_nonempty
           (lit "aaaa" ++ NLNL ++ lit "b" ++ NLNL ++ lit "cccc") 5 6 3).
  - lia.
  - reflexivity.
Defined.

Lemma strip_head (s : str) :
  strip s = [] \/ exists c t, strip s = c :: t /\ isspace c = false.
Proof.
  destruct (lstrip_head (strip s)) as [E|(c & t & E & Hc)];
    rewrite lstrip_strip in E; [now left|right; now exists c, t].
Qed.

(** X7. With a hard maximum of 0 and a target below 2, [split_into_chunks]
    raises on every text that has a character other than white space (the
    brutal split calls [range] with a step of 0). *)
Theorem split_into_chunks_zero_raises (text : str) (target_chars min_chars : Z) :
  target_chars < 2 ->
  strip text <> [] ->
  split_into_chunks text target_chars 0 min_chars = None.
Proof.
  intros Ht Hs. unfold split_into_chunks.
  assert (Hlen : (len text <=? 0) = false).
  { apply Z.leb_gt. destruct text as [|c t]; [now contradiction Hs|]. unfold len. cbn. lia. }
  rewrite Hlen.
  destruct (strip_head text) as [E|(c & t & E & Hc)]; [contradiction|].
  rewrite E. unfold re_split_paras. cbn [re_split_from].
  rewrite (nonspace_not_LF c Hc). cbn [andb].
  destruct (re_split_from false t) as [p ps]. cbn [chunk_loop].
  unfold chunk_step. cbn [cur buf chunks flush_buf].
  pose proof (len_nonneg p).
  replace (0 + len (c :: p) + 2 <=? target_chars) with false
    by (symmetry; apply Z.leb_gt; unfold len in *; cbn [length]; lia).
  replace (0 <? len (c :: p)) with true
    by (symmetry; apply Z.ltb_lt; unfold len; cbn [length]; lia).
  reflexivity.
Qed.

Lemma split_into_chunks_zero_raises_witness :
  split_into_chunks (lit " some text ") 1 0 200 = None.
Proof.
  apply split_into_chunks_zero_raises.
  - lia.
  - vm_compute. discriminate.
Defined.

Lemma firstn_add {A : Type} (a b : nat) (l : list A) :
  firstn (a + b) l = firstn a l ++ firstn b (skipn a l).
Proof.
  revert l. induction a as [|a IH]; intros l; [reflexivity|].
  destruct l as [|x l]; cbn; [now rewrite firstn_nil|]. now rewrite IH.
Qed.

Lemma concat_slices (p : str) (h k : nat) :
  concat (map (fun i => slice p i (i + h)) (map (fun j => (j * h)%nat) (seq 0 k)))
  = firstn (k * h) p.
Proof.
  induction k as [|k IH]; [reflexivity|].
  rewrite seq_S, !map_app, concat_app, IH. cbn [map concat plus].
  rewrite app_nil_r. unfold slice.
  replace (k * h + h - k * h)%nat with h by lia.
  replace (S k * h)%nat with (k * h + h)%nat by lia.
  symmetry. apply firstn_add.
Qed.

(** X8. The brutal split of a paragraph, for a hard maximum above 0, cuts
    it into non-empty pieces of at most [hard_max] characters that,
    put end to end, are the paragraph: no character is lost or added. *)
Theorem brutal_split_pieces (p : str) (hard_max : Z) :
  0 < hard_max ->
  exists pieces,
    brutal_split p hard_max = Some pieces
    /\ concat pieces = p
    /\ Forall (fun c => 1 <= len c <= hard_max) pieces.
Proof.
  intros Hh. unfold brutal_split.
  replace (hard_max =? 0) with false by (symmetry; apply Z.eqb_neq; lia).
  replace (hard_max <? 0) with false by (symmetry; apply Z.ltb_ge; lia).
  cbn zeta. set (h := Z.to_nat hard_max). set (n := length p).
  assert (Hh' : (1 <= h)%nat) by (unfold h; lia).
  eexists. split; [reflexivity|]. unfold range_step. fold n.
  set (m := ((n + h - 1) / h)%nat).
  pose proof (Nat.div_mod_eq (n + h - 1) h) as Hd. fold m in Hd.
  pose proof (Nat.mod_upper_bound (n + h - 1) h ltac:(lia)) as Hm.
  split.
  - rewrite concat_slices. apply firstn_all2. fold n. nia.
  - apply Forall_forall. intros c Hc.
    apply in_map_iff in Hc. destruct Hc as (i & <- & Hi).
    apply in_map_iff in Hi. destruct Hi as (j & <- & Hj).
    apply in_seq in Hj. unfold slice, len.
    replace (j * h + h - j * h)%nat with h by lia.
    rewrite length_firstn, length_skipn. fold n.
    assert (j * h + 1 <= n)%nat by nia. unfold h in *. lia.
Qed.

Lemma brutal_split_pieces_witness :
  exists pieces,
    brutal_split (lit "abcdefghijk") 3 = Some pieces
    /\ concat pieces = lit "abcdefghijk"
    /\ Forall (fun c => 1 <= len c <= 3) pieces.
Proof. apply brutal_split_pieces. lia. Defined.

Lemma re_split_in_sep (s : str) :
  startswith [LF] s = false -> re_split_from true s = re_split_from false s.
Proof.
  destruct s as [|c t]; [reflexivity|]. rewrite startswith_cons, andb_true_r.
  intros H. rewrite N.eqb_sym in H. cbn [re_split_from]. now rewrite H.
Qed.

Lemma join_cons_char (sep : str) (c : char) (p : str) (ps : list str) :
  join sep ((c :: p) :: ps) = c :: join sep (p :: ps).
Proof. destruct ps; reflexivity. Qed.

Lemma re_split_join_upto (n : nat) :
  forall s, (length s <= n)%nat -> contains [LF; LF; LF] s = false ->
  join NLNL (re_split_paras s) = s.
Proof.
  unfold re_split_paras.
  induction n as [|n IH]; intros [|c t] Hl Hs; cbn [length] in Hl; try reflexivity; try lia.
  cbn [contains] in Hs. apply orb_false_iff in Hs. destruct Hs as (Hhead & Htail).
  cbn [re_split_from].
  destruct ((c =? LF)%N && match t with c2 :: _ => (c2 =? LF)%N | [] => false end)%bool
    eqn:Esep.
  - apply andb_true_iff in Esep. destruct Esep as (Ec & Ec2).
    destruct t as [|c2 t2]; [discriminate|].
    apply N.eqb_eq in Ec, Ec2. subst c c2.
    assert (Hno : startswith [LF] t2 = false).
    { destruct t2 as [|c3 t3]; [reflexivity|].
      rewrite !startswith_cons in Hhead. rewrite startswith_cons.
      now rewrite !N.eqb_refl in Hhead. }
    cbn [re_split_from]. rewrite N.eqb_refl, (re_split_in_sep _ Hno).
    cbn [contains] in Htail. apply orb_false_iff in Htail. destruct Htail as (_ & Htail).
    specialize (IH t2 ltac:(cbn [length] in Hl; lia) Htail).
    destruct (re_split_from false t2) as [p ps].
    change (join NLNL ([] :: p :: ps)) with (LF :: LF :: join NLNL (p :: ps)).
    now rewrite IH.
  - specialize (IH t ltac:(lia) Htail).
    destruct (re_split_from false t) as [p ps].
    rewrite join_cons_char. now rewrite IH.
Qed.

(** X9. Splitting a normalized text into paragraphs and joining them with
    a blank line gives the text back: on the output of [clean_text] the
    paragraph split of the chunker loses nothing. *)
Theorem clean_text_split_join (s : str) :
  join NLNL (re_split_paras (clean_text s)) = clean_text s.
Proof.
  apply (re_split_join_upto (length (clean_text s))); [lia|].
  destruct (clean_text_normal s) as (_ & _ & Hn).
  now apply newlines_ok_no_triple in Hn.
Qed.

(** ** The fetcher: outcomes *)

Section FetcherOutcomes.

Variables (net : transport) (url : str).

Lemma retry_loop_returns (fuel : nat) :
  forall n slept run r, (1 <= n)%nat ->
  retry_loop fuel net url n slept = Some run ->
  outcome run = inl r ->
  net (attempts run - 1)%nat = Responded r /\ status_code r < 400.
Proof.
  induction fuel as [|fuel IH]; intros n slept run r Hn H Hr; cbn [retry_loop] in H;
    [discriminate|].
  unfold http_get_once in H. destruct (net (n - 1)%nat) as [r0|e] eqn:E.
  - destruct (400 <=? status_code r0) eqn:Es.
    + cbn [retry_if_HttpError] in H. destruct (stop_after_attempt 5 n).
      * injection H as <-. discriminate.
      * eapply (IH (S n)); [lia|exact H|exact Hr].
    + injection H as <-. cbn in Hr. injection Hr as <-. cbn [attempts].
      split; [exact E|]. now apply Z.leb_gt.
  - cbn [retry_if_HttpError] in H. injection H as <-. discriminate.
Qed.

(** X10. A response [http_get] returns is the response of its last
    attempt, and its status is below 400. *)
Theorem http_get_returns_success (run : retry_run) (r : response) :
  http_get net url = Some run ->
  outcome run = inl r ->
  net (attempts run - 1)%nat = Responded r /\ status_code r < 400.
Proof. unfold http_get. apply retry_loop_returns. lia. Qed.

Lemma retry_loop_decided (fuel : nat) :
  forall n k slept,
  (1 <= n)%nat -> (n + fuel = 6)%nat -> (n - 1 <= k)%nat -> (k < 5)%nat ->
  (forall i, (n - 1 <= i < k)%nat -> http_failure (net i) = true) ->
  http_failure (net k) = false ->
  retry_loop fuel net url n slept
  = Some (mkRun (http_get_once url (net k)) (S k)
            (slept ++ map (wait_exponential 1 1 10) (seq n (S k - n)))).
Proof.
  induction fuel as [|fuel IH]; intros n k slept Hn Hsum Hk Hk5 Hfail Hok; [lia|].
  cbn [retry_loop]. destruct (Nat.eq_dec k (n - 1)) as [->|Hne].
  - replace (S (n - 1) - n)%nat with 0%nat by lia. cbn [seq map]. rewrite app_nil_r.
    replace (S (n - 1)) with n by lia.
    unfold http_get_once in *. destruct (net (n - 1)%nat) as [r|e]; cbn in Hok.
    + now rewrite Hok.
    + reflexivity.
  - assert (Hhere : http_failure (net (n - 1)%nat) = true) by (apply Hfail; lia).
    unfold http_get_once at 1. destruct (net (n - 1)%nat) as [r|e]; cbn in Hhere;
      [|discriminate].
    rewrite Hhere. cbn [retry_if_HttpError]. unfold stop_after_attempt.
    replace (5 <=? n)%nat with false by (symmetry; apply Nat.leb_gt; lia).
    rewrite (IH (S n) k); try lia; [|intros i Hi; apply Hfail; lia|exact Hok].
    rewrite <- app_assoc. do 3 f_equal.
    replace (S k - n)%nat with (S (S k - S n)) by lia. reflexivity.
Qed.

(** X11. The first attempt that does not end in an HTTP status of 400 or
    more decides the call: when the attempts before attempt [k + 1] all
    do and attempt [k + 1] does not, [http_get] ends after [k + 1]
    attempts with the outcome of that attempt, its response or the
    exception of the transport, having waited 1, 2, 4, ... between the
    attempts. *)
Theorem http_get_first_decisive (k : nat) :
  (k < 5)%nat ->
  (forall i, (i < k)%nat -> http_failure (net i) = true) ->
  http_failure (net k) = false ->
  http_get net url
  = Some (mkRun (http_get_once url (net k)) (S k) (firstn k [1; 2; 4; 8])).
Proof.
  intros Hk Hfail Hok. unfold http_get.
  rewrite (retry_loop_decided 5 1 k []); try lia; [|intros i Hi; apply Hfail; lia|exact Hok].
  cbn [app]. do 2 f_equal.
  assert (Hcases : (k = 0 \/ k = 1 \/ k = 2 \/ k = 3 \/ k = 4)%nat) by lia.
  destruct Hcases as [->|[->|[->|[->| ->]]]]; reflexivity.
Qed.

Lemma retry_loop_exhausted (fuel : nat) :
  forall n slept r5,
  (1 <= n <= 5)%nat -> (n + fuel = 6)%nat ->
  (forall i, (n - 1 <= i < 5)%nat -> http_failure (net i) = true) ->
  net 4%nat = Responded r5 ->
  retry_loop fuel net url n slept
  = Some (mkRun (inr (RetryError (HttpError url (status_code r5)))) 5
            (slept ++ map (wait_exponential 1 1 10) (seq n (5 - n)))).
Proof.
  induction fuel as [|fuel IH]; intros n slept r5 Hn Hsum Hfail H5; [lia|].
  cbn [retry_loop].
  assert (Hhere : http_failure (net (n - 1)%nat) = true) by (apply Hfail; lia).
  unfold http_get_once. destruct (net (n - 1)%nat) as [r|e] eqn:E; cbn in Hhere;
    [|discriminate].
  rewrite Hhere. cbn [retry_if_HttpError]. unfold stop_after_attempt.
  destruct (5 <=? n)%nat eqn:Estop.
  - apply Nat.leb_le in Estop. assert (n = 5%nat) by lia. subst n.
    cbn in E. rewrite H5 in E. injection E as <-. cbn. now rewrite app_nil_r.
  - apply Nat.leb_gt in Estop.
    rewrite (IH (S n) _ r5); try lia; [|intros i Hi; apply Hfail; lia|exact H5].
    rewrite <- app_assoc. do 3 f_equal.
    replace (5 - n)%nat with (S (5 - S n)) by lia. reflexivity.
Qed.

(** X12. When all five attempts end in an HTTP status of 400 or more,
    [http_get] gives up with a [RetryError] that wraps the [HttpError] of
    the fifth attempt, after waits of 1, 2, 4 and 8. *)
Theorem http_get_exhausted (r5 : response) :
  (forall i, (i < 5)%nat -> http_failure (net i) = true) ->
  net 4%nat = Responded r5 ->
  http_get net url
  = Some (mkRun (inr (RetryError (HttpError url (status_code r5)))) 5 [1; 2; 4; 8]).
Proof.
  intros Hfail H5. unfold http_get.
  rewrite (retry_loop_exhausted 5 1 [] r5); try lia; [reflexivity| |exact H5].
  intros i Hi. apply Hfail. lia.
Qed.

End FetcherOutcomes.

Lemma http_get_returns_success_witness :
  status_code (mkResponse 200 (lit "ok")) < 400.
Proof.
  apply (http_get_returns_success (fun _ => Responded (mkResponse 200 (lit "ok")))
           (lit "https://opentdf.io/") (mkRun (inl (mkResponse 200 (lit "ok"))) 1 [])).
  - reflexivity.
  - reflexivity.
Defined.

Lemma http_get_first_decisive_witness :
  http_get (fun i => if (i <? 2)%nat then Responded (mkResponse 503 [])
                     else Responded (mkResponse 200 (lit "ok")))
    (lit "https://opentdf.io/")
  = Some (mkRun (inl (mkResponse 200 (lit "ok"))) 3 [1; 2]).
Proof.
  apply (http_get_first_decisive
           (fun i => if (i <? 2)%nat then Responded (mkResponse 503 [])
                     else Responded (mkResponse 200 (lit "ok")))
           (lit "https://opentdf.io/") 2).
  - lia.
  - intros i Hi. destruct i as [|[|i]]; [reflexivity|reflexivity|lia].
  - reflexivity.
Defined.

Lemma http_get_exhausted_witness :
  http_get (fun _ => Responded (mkResponse 503 [])) (lit "https://opentdf.io/")
  = Some (mkRun (inr (RetryError (HttpError (lit "https://opentdf.io/") 503))) 5
            [1; 2; 4; 8]).
Proof.
  apply (http_get_exhausted (fun _ => Responded (mkResponse 503 []))
           (lit "https://opentdf.io/") (mkResponse 503 [])).
  - intros i _. reflexivity.
  - reflexivity.
Defined.

(** ** Path exclusion: lists of globs and literal patterns *)

Lemma glob_fullmatch_tokens (pat path : str) :
  glob_fullmatch pat path = Some (rx_match (map glob_item (glob_tokens pat)) path).
Proof.
  unfold glob_fullmatch, re_fullmatch.
  now rewrite glob_to_regex_tokens, (rx_parse_stage2 _ (glob_tokens_star_free pat)).
Qed.

(** X13. The loop over the exclude globs raises no exception and skips a
    path exactly when one of the globs matches it as a whole ([**]: any
    characters but newlines, [*]: any characters but [/]). *)
Theorem path_excluded_correct (globs : list str) (path : str) :
  exists b,
    path_excluded globs path = Some b
    /\ (b = true <-> exists pat, In pat globs /\ glob_matches_line pat path).
Proof.
  induction globs as [|pat rest IH]; cbn [path_excluded].
  - exists false. split; [reflexivity|]. split; [discriminate|].
    intros (pat & [] & _).
  - rewrite glob_fullmatch_tokens.
    destruct (rx_match (map glob_item (glob_tokens pat)) path) eqn:E.
    + exists true. split; [reflexivity|]. split; [|reflexivity]. intros _.
      exists pat. split; [now left|]. now apply rx_match_glob.
    + destruct IH as (b & Hb & Hiff). exists b. split; [exact Hb|].
      rewrite Hiff. split.
      * intros (q & Hq & Hm). exists q. split; [now right|exact Hm].
      * intros (q & [<-|Hq] & Hm).
        -- apply rx_match_glob in Hm. congruence.
        -- now exists q.
Qed.

Lemma glob_tokens_literal (pat : str) :
  Forall (fun c => c <> STAR) pat -> glob_tokens pat = map GLit pat.
Proof.
  induction 1 as [|c t Hc Ht IH]; [reflexivity|].
  cbn [glob_tokens map]. apply N.eqb_neq in Hc. now rewrite Hc, IH.
Qed.

Lemma rx_match_literal (pat path : str) :
  rx_match (map glob_item (map GLit pat)) path = str_eqb pat path.
Proof.
  revert path. induction pat as [|c t IH]; intros [|x path]; try reflexivity.
  cbn [map glob_item rx_match str_eqb]. now rewrite IH, (N.eqb_sym x c).
Qed.

(** X14. A glob without [*] excludes the path equal to it and no other:
    the characters that mean something in a regular expression ([.], [+],
    [(], ...) stand for themselves. *)
Theorem glob_fullmatch_literal (pat path : str) :
  Forall (fun c => c <> STAR) pat ->
  glob_fullmatch pat path = Some (str_eqb pat path).
Proof.
  intros H. rewrite glob_fullmatch_tokens, (glob_tokens_literal _ H).
  now rewrite rx_match_literal.
Qed.

Lemma glob_fullmatch_literal_witness :
  glob_fullmatch (lit "docs/a.b+c(1).md") (lit "docs/aXb+c(1).md") = Some false.
Proof.
  apply (glob_fullmatch_literal (lit "docs/a.b+c(1).md") (lit "docs/aXb+c(1).md")).
  repeat constructor; intro; discriminate.
Defined.

(** ** Discovery: what is returned *)

Lemma sorted_Forall (P : str -> Prop) (l : list str) :
  Forall P l -> Forall P (sorted l).
Proof.
  rewrite !Forall_forall. intros H x Hx. apply H.
  eapply Permutation_in; [apply sorted_perm|exact Hx].
Qed.

Section DiscoveryResults.

Variables (lib : PyLib) (web : Web).

(** X15. Whatever phase finds them, the URLs [discover_doc_urls] returns
    are in ascending order without repetition, start with the base
    (stripped of its final slashes) and contain one of the documentation
    section hints. *)
Theorem discover_doc_urls_result (fuel : nat) (base : str) (seeds urls : list str) :
  discover_doc_urls lib web fuel base seeds = Ret urls ->
  Sorted str_le urls
  /\ NoDup urls
  /\ Forall (fun u => startswith (rstrip_chars (lit "/") base) u = true
                      /\ existsb (fun h => contains h u) DOC_SECTION_HINTS = true) urls.
Proof.
  unfold discover_doc_urls.
  destruct (sitemap_discovery lib web fuel (rstrip_chars (lit "/") base))
    as [found| |] eqn:E; try discriminate.
  cbn [bind]. destruct (sitemap_discovery_inv _ _ _ _ _ E) as (Hnd & Hall).
  assert (Hdocs : forall l, NoDup l ->
            Forall (fun u => _is_docs_url u (rstrip_chars (lit "/") base) = true) l ->
            Sorted str_le (sorted l) /\ NoDup (sorted l)
            /\ Forall (fun u => startswith (rstrip_chars (lit "/") base) u = true
                        /\ existsb (fun h => contains h u) DOC_SECTION_HINTS = true)
                 (sorted l)).
  { intros l Hl Hd. split; [apply sorted_Sorted|]. split; [now apply sorted_NoDup|].
    apply sorted_Forall.
    eapply Forall_impl; [|exact Hd]. intros u Hu. unfold _is_docs_url in Hu.
    destruct (startswith (rstrip_chars (lit "/") base) u); [auto|discriminate]. }
  destruct (negb (is_nil found)).
  - intros [= <-]. now apply Hdocs.
  - destruct (bfs_loop _ _ _ _ _ _ _) as [found'| |] eqn:Eb; try discriminate.
    cbn [bind]. intros [= <-].
    destruct (bfs_loop_inv _ _ _ _ _ _ _ _ Eb Hnd Hall). now apply Hdocs.
Qed.

Lemma scan_locs_not_sitemap (base : str) (seen : list str) (locs : list str) :
  forall to_visit found to_visit' found',
  scan_locs base seen locs to_visit found = (to_visit', found') ->
  Forall not_sitemap_name found -> Forall not_sitemap_name found'.
Proof.
  induction locs as [|loc rest IH]; intros tv fd tv' fd' H Hall; cbn [scan_locs] in H.
  - now injection H as _ <-.
  - destruct (endswith (lit ".xml") loc || endswith (lit ".xml.gz") loc) eqn:Ex.
    + eapply IH; eauto.
    + destruct (_is_docs_url loc base); [|eapply IH; eauto].
      eapply IH; [exact H|]. apply Forall_forall. intros u Hu.
      apply set_add_In in Hu. destruct Hu as [->|Hu].
      * now apply orb_false_iff in Ex.
      * rewrite Forall_forall in Hall. now apply Hall.
Qed.

Lemma sitemap_loop_not_sitemap (base : str) (fuel : nat) :
  forall to_visit seen found result,
  sitemap_loop fuel lib web base to_visit seen found = Ret result ->
  Forall not_sitemap_name found -> Forall not_sitemap_name result.
Proof.
  induction fuel as [|fuel IH]; intros tv seen fd result H Hall; cbn [sitemap_loop] in H;
    [discriminate|].
  destruct tv as [|sm rest]; [now injection H as <-|].
  destruct (mem sm seen); [eapply IH; eauto|].
  destruct (_fetch_and_parse_sitemap lib web sm) as [locs|]; [|eapply IH; eauto].
  destruct (scan_locs base (set_add sm seen) locs rest fd) as [tv' fd'] eqn:Es.
  eapply IH; [exact H|]. eapply scan_locs_not_sitemap; eauto.
Qed.

(** X16. The sitemap phase never reports a location that ends in [.xml]
    or [.xml.gz] as a documentation page: such locations are queued as
    nested sitemaps, even under a documentation section. *)
Theorem sitemap_discovery_no_sitemap_names (fuel : nat) (base : str) (found : list str) :
  sitemap_discovery lib web fuel base = Ret found ->
  Forall (fun u => endswith (lit ".xml") u = false
                   /\ endswith (lit ".xml.gz") u = false) found.
Proof.
  unfold sitemap_discovery, bind.
  destruct (_extract_sitemap_urls_from_robots lib web base) as [sm| |]; try discriminate.
  intros H. eapply sitemap_loop_not_sitemap; [exact H|constructor].
Qed.

Lemma bfs_loop_fetched (base : str) (fuel : nat) :
  forall dq visited found result,
  bfs_loop fuel lib web base dq visited found = Ret result ->
  Forall (fun u => http_get_result (net web u) u <> None) found ->
  Forall (fun u => http_get_result (net web u) u <> None) result.
Proof.
  induction fuel as [|fuel IH]; intros dq visited fd result H Hall; cbn [bfs_loop] in H;
    [discriminate|].
  destruct dq as [|u rest]; [now injection H as <-|].
  destruct (mem u visited); [eapply IH; eauto|].
  destruct (http_get_result (net web u) u) as [resp|] eqn:Eg; [|eapply IH; eauto].
  destruct (_is_docs_url u base); [|eapply IH; eauto].
  eapply IH; [exact H|]. apply Forall_forall. intros v Hv.
  apply set_add_In in Hv. destruct Hv as [->|Hv].
  - congruence.
  - rewrite Forall_forall in Hall. now apply Hall.
Qed.

(** X17. The fallback crawl reports only pages it fetched: every URL it
    returns is one on which [http_get] returned a response. *)
Theorem fallback_crawl_fetched (fuel : nat) (base : str) (seeds urls : list str) :
  fallback_crawl lib web fuel base seeds = Ret urls ->
  Forall (fun u => http_get_result (net web u) u <> None) urls.
Proof.
  unfold fallback_crawl.
  destruct (bfs_loop _ _ _ _ _ _ _) as [found| |] eqn:Eb; try discriminate.
  cbn [bind]. intros [= <-].
  apply sorted_Forall.
  eapply bfs_loop_fetched; [exact Eb|constructor].
Qed.

End DiscoveryResults.

Lemma discover_doc_urls_result_witness :
  Sorted str_le [lit "https://opentdf.io/introduction"; lit "https://opentdf.io/spec/stub"].
Proof.
  apply (discover_doc_urls_result demo_lib demo_web 20 (lit "https://opentdf.io/")
           [lit "/introduction"]).
  vm_compute. reflexivity.
Defined.

Lemma sitemap_discovery_no_sitemap_names_witness :
  Forall (fun u => endswith (lit ".xml") u = false /\ endswith (lit ".xml.gz") u = false)
    [lit "https://opentdf.io/spec/stub"; lit "https://opentdf.io/introduction"].
Proof.
  apply (sitemap_discovery_no_sitemap_names demo_lib demo_web 20 (lit "https://opentdf.io")).
  vm_compute. reflexivity.
Defined.

Lemma fallback_crawl_fetched_witness :
  Forall (fun u => http_get_result (net demo_web_no_sitemap u) u <> None)
    [lit "https://opentdf.io/introduction"].
Proof.
  apply (fallback_crawl_fetched demo_lib demo_web_no_sitemap 20 (lit "https://opentdf.io")
           [lit "/introduction"; lit "/missing"]).
  vm_compute. reflexivity.
Defined.

(** ** Discovery: termination on a finite site *)

Lemma mem_set_add (u x : str) (s : list str) :
  mem u (set_add x s) = (str_eqb u x || mem u s)%bool.
Proof.
  apply Bool.eq_iff_eq_true.
  rewrite orb_true_iff, !mem_In, set_add_In, str_eqb_eq. reflexivity.
Qed.

Lemma pending_skip (cost : str -> nat) (x : str) (universe visited : list str) :
  ~ In x universe ->
  pending cost universe (set_add x visited) = pending cost universe visited.
Proof.
  unfold pending. induction universe as [|u us IH]; intros Hx; [reflexivity|].
  cbn [filter]. rewrite mem_set_add.
  assert (E : str_eqb u x = false).
  { destruct (str_eqb u x) eqn:E; [|reflexivity]. apply str_eqb_eq in E. subst u.
    exfalso. apply Hx. now left. }
  rewrite E. cbn [orb].
  assert (Hx' : ~ In x us) by (intros H; apply Hx; now right).
  specialize (IH Hx'). destruct (negb (mem u visited)); [|exact IH].
  cbn [map]. unfold list_sum in *. cbn [fold_right]. now rewrite IH.
Qed.

Lemma pending_visit (cost : str -> nat) (x : str) (universe visited : list str) :
  NoDup universe -> In x universe -> mem x visited = false ->
  (pending cost universe (set_add x visited) + cost x)%nat = pending cost universe visited.
Proof.
  intros Hnd. induction Hnd as [|u us Hu Hnd IH]; intros Hx Hv; [contradiction|].
  destruct (str_eqb u x) eqn:E.
  - apply str_eqb_eq in E. subst u.
    pose proof (pending_skip cost x us visited Hu) as Hs. unfold pending in *.
    cbn [filter]. rewrite mem_set_add, Hv.
    replace (str_eqb x x) with true by (symmetry; now apply str_eqb_eq).
    cbn [orb negb]. rewrite Hs. unfold list_sum. cbn [map fold_right]. lia.
  - destruct Hx as [->|Hx];
      [replace (str_eqb x x) with true in E by (symmetry; now apply str_eqb_eq);
       discriminate|].
    specialize (IH Hx Hv). unfold pending in *.
    cbn [filter]. rewrite mem_set_add, E. cbn [orb].
    destruct (negb (mem u visited)); [|exact IH].
    unfold list_sum in *. cbn [map fold_right]. lia.
Qed.

Lemma dedupe_from_In (x : str) (l seen : list str) :
  In x (dedupe_from seen l) -> In x l.
Proof.
  revert seen. induction l as [|y r IH]; intros seen H; [contradiction|].
  cbn [dedupe_from] in H. destruct (mem y seen).
  - right. now apply (IH seen).
  - destruct H as [->|H]; [now left|right; now apply (IH (y :: seen))].
Qed.

Lemma robots_sitemaps_ends (lib : PyLib) (lines : list str) :
  robots_sitemaps lib lines <> NoFuel.
Proof.
  induction lines as [|line rest IH]; cbn [robots_sitemaps]; [discriminate|].
  destruct (startswith (lit "sitemap:") (str_lower lib line)); [|exact IH].
  destruct (after_first COLON line); [|discriminate].
  destruct (robots_sitemaps lib rest); [discriminate..|contradiction].
Qed.

Section DiscoveryEnds.

Variables (lib : PyLib) (web : Web) (base : str) (universe : list str).

Hypothesis universe_NoDup : NoDup universe.

(** The nested sitemaps named by a sitemap of the universe are in it. *)
Hypothesis sitemaps_closed :
  forall sm locs, In sm universe -> _fetch_and_parse_sitemap lib web sm = Some locs ->
  Forall (fun loc => endswith (lit ".xml") loc || endswith (lit ".xml.gz") loc = true ->
                     In loc universe) locs.

(** The documentation links of a page of the universe are in it. *)
Hypothesis pages_closed :
  forall u resp, In u universe -> http_get_result (net web u) u = Some resp ->
  Forall (fun h => startswith (lit "#") (strip h) = false ->
                   _is_docs_url (href_target lib u h) base = true ->
                   In (href_target lib u h) universe)
         (html_hrefs lib (resp_text resp)).

Lemma scan_locs_queue (seen locs : list str) :
  forall to_visit found to_visit' found',
  scan_locs base seen locs to_visit found = (to_visit', found') ->
  Forall (fun loc => endswith (lit ".xml") loc || endswith (lit ".xml.gz") loc = true ->
                     In loc universe) locs ->
  Forall (fun u => In u universe) to_visit ->
  (length to_visit' <= length to_visit + length locs)%nat
  /\ Forall (fun u => In u universe) to_visit'.
Proof.
  induction locs as [|loc rest IH]; intros tv fd tv' fd' H Hlocs Htv; cbn [scan_locs] in H.
  - injection H as <- _. split; [cbn; lia|exact Htv].
  - inversion Hlocs as [|? ? Hloc Hrest]; subst. cbn [length].
    destruct (endswith (lit ".xml") loc || endswith (lit ".xml.gz") loc).
    + destruct (mem loc seen).
      * destruct (IH _ _ _ _ H Hrest Htv). split; [lia|assumption].
      * destruct (IH _ _ _ _ H Hrest) as (Hl & Hf).
        -- apply Forall_app. split; [exact Htv|constructor; [now apply Hloc|constructor]].
        -- rewrite length_app in Hl. cbn [length] in Hl. split; [lia|exact Hf].
    + destruct (_is_docs_url loc base);
        destruct (IH _ _ _ _ H Hrest Htv); split; try lia; assumption.
Qed.

Lemma sitemap_loop_ends (fuel : nat) :
  forall to_visit seen found,
  Forall (fun u => In u universe) to_visit ->
  (length to_visit + pending (sitemap_cost lib web) universe seen < fuel)%nat ->
  exists result, sitemap_loop fuel lib web base to_visit seen found = Ret result.
Proof.
  induction fuel as [|fuel IH]; intros tv seen fd Htv Hm; [lia|].
  cbn [sitemap_loop]. destruct tv as [|sm rest]; [now eexists|].
  inversion Htv as [|? ? Hsm Hrest]; subst. cbn [length] in Hm.
  destruct (mem sm seen) eqn:Eseen; [apply IH; [exact Hrest|lia]|].
  pose proof (pending_visit (sitemap_cost lib web) sm universe seen
                universe_NoDup Hsm Eseen) as Hp.
  unfold sitemap_cost at 2 in Hp.
  destruct (_fetch_and_parse_sitemap lib web sm) as [locs|] eqn:Ef.
  - destruct (scan_locs base (set_add sm seen) locs rest fd) as [tv' fd'] eqn:Es.
    destruct (scan_locs_queue _ _ _ _ _ _ Es (sitemaps_closed _ _ Hsm Ef) Hrest)
      as (Hl & Hf).
    apply IH; [exact Hf|lia].
  - apply IH; [exact Hrest|lia].
Qed.

Lemma scan_hrefs_queue (u : str) (visited hrefs : list str) :
  forall dq,
  Forall (fun h => startswith (lit "#") (strip h) = false ->
                   _is_docs_url (href_target lib u h) base = true ->
                   In (href_target lib u h) universe) hrefs ->
  Forall (fun v => In v universe) dq ->
  (length (scan_hrefs lib base u visited hrefs dq) <= length dq + length hrefs)%nat
  /\ Forall (fun v => In v universe) (scan_hrefs lib base u visited hrefs dq).
Proof.
  induction hrefs as [|h rest IH]; intros dq Hh Hdq; cbn [scan_hrefs].
  - split; [cbn; lia|exact Hdq].
  - inversion Hh as [|? ? Hhead Hrest]; subst. cbn [length].
    unfold href_target in Hhead. cbn zeta in Hhead |- *.
    destruct (startswith (lit "#") (strip h));
      [destruct (IH dq Hrest Hdq); split; [lia|assumption]|].
    destruct (_is_docs_url _ base); cbn [andb].
    + destruct (negb (mem _ visited)).
      * destruct (IH (dq ++ [if startswith (lit "http") (strip h) then strip h
                             else urijoin lib u (strip h)]) Hrest) as (Hl & Hf).
        -- apply Forall_app. split; [exact Hdq|constructor; [now apply Hhead|constructor]].
        -- rewrite length_app in Hl. cbn [length] in Hl. split; [lia|exact Hf].
      * destruct (IH dq Hrest Hdq); split; [lia|assumption].
    + destruct (IH dq Hrest Hdq); split; [lia|assumption].
Qed.

Lemma bfs_loop_ends (fuel : nat) :
  forall dq visited found,
  Forall (fun u => In u universe) dq ->
  (length dq + pending (page_cost lib web) universe visited < fuel)%nat ->
  exists result, bfs_loop fuel lib web base dq visited found = Ret result.
Proof.
  induction fuel as [|fuel IH]; intros dq visited fd Hdq Hm; [lia|].
  cbn [bfs_loop]. destruct dq as [|u rest]; [now eexists|].
  inversion Hdq as [|? ? Hu Hrest]; subst. cbn [length] in Hm.
  destruct (mem u visited) eqn:Ev; [apply IH; [exact Hrest|lia]|].
  pose proof (pending_visit (page_cost lib web) u universe visited
                universe_NoDup Hu Ev) as Hp.
  unfold page_cost at 2 in Hp.
  destruct (http_get_result (net web u) u) as [resp|] eqn:Eg.
  - destruct (scan_hrefs_queue u (set_add u visited) (html_hrefs lib (resp_text resp))
                rest (pages_closed _ _ Hu Eg) Hrest) as (Hl & Hf).
    apply IH; [exact Hf|lia].
  - apply IH; [exact Hrest|lia].
Qed.

(** X18. On a finite site the discovery ends.  [base] is the base URL
    without its trailing slashes.  When every URL that [robots.txt], the
    sitemaps and the pages mention, the well-known sitemap names and the
    seeds resolved against the base lie in one duplicate-free list, then
    with enough fuel [discover_doc_urls] returns or raises: neither the
    sitemap loop nor the crawl runs for ever, whatever cycles the
    sitemaps and the links form. *)
Theorem discover_doc_urls_ends (base0 : str) (seeds : list str) :
  rstrip_chars (lit "/") base0 = base ->
  (forall sm_urls, _extract_sitemap_urls_from_robots lib web base = Ret sm_urls ->
     Forall (fun u => In u universe) sm_urls) ->
  Forall (fun c => In (urijoin lib base c) universe) SITEMAP_CANDIDATES ->
  Forall (fun s => In (urijoin lib base s) universe) seeds ->
  exists fuel, forall fuel', (fuel <= fuel')%nat ->
    discover_doc_urls lib web fuel' base0 seeds <> NoFuel.
Proof.
  intros Hbase Hrobots Hcand Hseeds.
  unfold discover_doc_urls, sitemap_discovery. rewrite Hbase.
  destruct (_extract_sitemap_urls_from_robots lib web base) as [sm_urls| |] eqn:Er;
    [|exists 0%nat; intros fuel' _; cbn; discriminate|].
  2:{ exfalso. unfold _extract_sitemap_urls_from_robots in Er.
      destruct (_fetch_text web (urijoin lib base (lit "/robots.txt")));
        [now apply robots_sitemaps_ends in Er|discriminate]. }
  cbn [bind].
  set (queue := dedupe (sm_urls ++ map (urijoin lib base) SITEMAP_CANDIDATES)).
  assert (Hqueue : Forall (fun u => In u universe) queue).
  { apply Forall_forall. intros x Hx. apply dedupe_from_In in Hx.
    apply in_app_or in Hx. destruct Hx as [Hx|Hx].
    - specialize (Hrobots _ eq_refl). rewrite Forall_forall in Hrobots. auto.
    - apply in_map_iff in Hx. destruct Hx as (c & <- & Hc).
      rewrite Forall_forall in Hcand. auto. }
  assert (Hdq : Forall (fun u => In u universe) (map (urijoin lib base) seeds)).
  { apply Forall_forall. intros x Hx. apply in_map_iff in Hx.
    destruct Hx as (c & <- & Hc). rewrite Forall_forall in Hseeds. auto. }
  exists (S (length queue + pending (sitemap_cost lib web) universe []
             + length seeds + pending (page_cost lib web) universe [])).
  intros fuel' Hle.
  destruct (sitemap_loop_ends fuel' queue [] [] Hqueue ltac:(lia)) as (found & ->).
  cbn [bind]. destruct (negb (is_nil found)); [discriminate|].
  destruct (bfs_loop_ends fuel' (map (urijoin lib base) seeds) [] found Hdq
              ltac:(rewrite length_map; lia)) as (found' & ->).
  cbn [bind]. discriminate.
Qed.

End DiscoveryEnds.

Lemma Forall_guard_mem (guard : str -> bool) (universe l : list str) :
  forallb (fun x => implb (guard x) (mem x universe)) l = true ->
  Forall (fun x => guard x = true -> In x universe) l.
Proof.
  intros H. apply Forall_forall. intros x Hx Hg.
  rewrite forallb_forall in H. specialize (H x Hx). rewrite Hg in H.
  now apply mem_In.
Qed.

Lemma Forall_mem_map (f : str -> str) (universe l : list str) :
  forallb (fun x => mem (f x) universe) l = true ->
  Forall (fun x => mem (f x) universe = true) l.
Proof.
  intros H. apply Forall_forall. intros x Hx.
  rewrite forallb_forall in H. now apply H.
Qed.

Lemma Forall_mem (universe l : list str) :
  forallb (fun x => mem x universe) l = true -> Forall (fun x => In x universe) l.
Proof.
  intros H. apply Forall_forall. intros x Hx.
  rewrite forallb_forall in H. apply mem_In. now apply H.
Qed.

Lemma Forall_links_mem (lib : PyLib) (base u : str) (universe hrefs : list str) :
  forallb (fun h => implb (negb (startswith (lit "#") (strip h))
                           && _is_docs_url (href_target lib u h) base)
                      (mem (href_target lib u h) universe)) hrefs = true ->
  Forall (fun h => startswith (lit "#") (strip h) = false ->
                   _is_docs_url (href_target lib u h) base = true ->
                   In (href_target lib u h) universe) hrefs.
Proof.
  intros H. apply Forall_forall. intros h Hh Hs Hd.
  rewrite forallb_forall in H. specialize (H h Hh). rewrite Hs, Hd in H.
  now apply mem_In.
Qed.

Lemma discover_doc_urls_ends_witness :
  exists fuel, forall fuel', (fuel <= fuel')%nat ->
    discover_doc_urls demo_lib_links demo_web_cyclic fuel' (lit "https://opentdf.io/")
      [lit "/introduction"] <> NoFuel.
Proof.
  apply (discover_doc_urls_ends demo_lib_links demo_web_cyclic (lit "https://opentdf.io")
           (map (urijoin demo_lib_links (lit "https://opentdf.io")) SITEMAP_CANDIDATES
            ++ [lit "https://opentdf.io/introduction";
                lit "https://opentdf.io/spec/a";
                lit "https://opentdf.io/spec/b"])).
  - apply nodupb_NoDup. vm_compute. reflexivity.
  - intros sm locs Hsm H. unfold _fetch_and_parse_sitemap, _fetch_text in H.
    vm_compute in Hsm.
    repeat (destruct Hsm as [<-|Hsm];
            [vm_compute in H; try discriminate; injection H as <-;
             apply (Forall_guard_mem
                      (fun loc => endswith (lit ".xml") loc || endswith (lit ".xml.gz") loc));
             vm_compute; reflexivity|]).
    contradiction.
  - intros u resp Hu H. vm_compute in Hu.
    repeat (destruct Hu as [<-|Hu];
            [vm_compute in H; try discriminate; injection H as <-;
             apply Forall_links_mem; vm_compute; reflexivity|]).
    contradiction.
  - vm_compute. reflexivity.
  - intros sm_urls H. vm_compute in H. injection H as <-.
    apply Forall_mem. vm_compute. reflexivity.
  - apply Forall_forall. intros c Hc. apply mem_In. revert c Hc.
    apply Forall_forall, Forall_mem_map. vm_compute. reflexivity.
  - apply Forall_forall. intros c Hc. apply mem_In. revert c Hc.
    apply Forall_forall, Forall_mem_map. vm_compute. reflexivity.
Defined.

(** ** Listing the repositories of the organisation *)

(** X19. [list_org_repos] pages until the first empty page.  When the
    pages from [page] on are the non-empty [pages] and the next page is
    empty, it returns their entries in order, as soon as the fuel exceeds
    the number of pages; no page after the empty one is requested. *)
Theorem list_org_repos_pages (gh : GitHub) (org : str) (pages : list (list str)) :
  forall (page fuel : nat),
  Forall (fun items => items <> []) pages ->
  (forall i items, nth_error pages i = Some items ->
     org_repos_page gh org (page + i) = Some items) ->
  org_repos_page gh org (page + length pages) = Some [] ->
  (length pages < fuel)%nat ->
  list_org_repos fuel gh org page = Ret (concat pages).
Proof.
  induction pages as [|items rest IH]; intros page fuel Hne Hpages Hlast Hfuel;
    (destruct fuel as [|fuel]; [cbn in Hfuel; lia|]); cbn [list_org_repos].
  - cbn [length] in Hlast. rewrite Nat.add_0_r in Hlast. now rewrite Hlast.
  - pose proof (Hpages 0%nat items eq_refl) as H0. rewrite Nat.add_0_r in H0.
    rewrite H0. inversion Hne as [|? ? Hitems Hrest]; subst.
    destruct items as [|x items]; [congruence|].
    rewrite (IH (S page) fuel Hrest).
    + reflexivity.
    + intros i its Hi. replace (S page + i)%nat with (page + S i)%nat by lia.
      now apply Hpages.
    + cbn [length] in Hlast.
      now replace (S page + length rest)%nat with (page + S (length rest))%nat by lia.
    + cbn [length] in Hfuel. lia.
Qed.

Lemma list_org_repos_pages_witness :
  list_org_repos 2 (demo_github []) (lit "opentdf") 1 = Ret [lit "platform"; lit "spec"].
Proof.
  apply (list_org_repos_pages (demo_github []) (lit "opentdf")
           [[lit "platform"; lit "spec"]] 1 2).
  - repeat constructor. discriminate.
  - intros [|[|i]] items H; cbn in H; try discriminate. now injection H as <-.
  - reflexivity.
  - cbn. lia.
Defined.

(** ** The attribution roll-up *)

Lemma attribution_loop_inv (records : list record) :
  forall at_lines seen_attr,
  NoDup at_lines -> (forall x, In x at_lines <-> In x seen_attr) ->
  NoDup (fst (attribution_loop records at_lines seen_attr))
  /\ forall x, In x (fst (attribution_loop records at_lines seen_attr))
       <-> In x at_lines \/ (x <> [] /\ exists r, In r records /\ rec_attribution r = x).
Proof.
  induction records as [|r rest IH]; intros al seen Hnd Hseen; cbn [attribution_loop].
  - split; [exact Hnd|]. intros x. cbn. split; [auto|].
    intros [H|(_ & r & [] & _)]. exact H.
  - cbn zeta. destruct (is_nil (rec_attribution r)) eqn:En; cbn [negb andb].
    + destruct (IH al seen Hnd Hseen) as (H1 & H2). split; [exact H1|].
      intros x. rewrite H2. split.
      * intros [H|(Hx & r' & Hr' & E)]; [now left|].
        right. split; [exact Hx|]. exists r'. split; [now right|exact E].
      * intros [H|(Hx & r' & [<-|Hr'] & E)]; [now left| |].
        -- subst x. destruct (rec_attribution r); [congruence|discriminate].
        -- right. split; [exact Hx|]. now exists r'.
    + destruct (mem (rec_attribution r) seen) eqn:Em; cbn [negb].
      * destruct (IH al seen Hnd Hseen) as (H1 & H2). split; [exact H1|].
        intros x. rewrite H2. split.
        -- intros [H|(Hx & r' & Hr' & E)]; [now left|].
           right. split; [exact Hx|]. exists r'. split; [now right|exact E].
        -- intros [H|(Hx & r' & [<-|Hr'] & E)]; [now left| |].
           ++ left. subst x. apply Hseen. now apply mem_In.
           ++ right. split; [exact Hx|]. now exists r'.
      * apply mem_not_In in Em.
        destruct (IH (al ++ [rec_attribution r]) (set_add (rec_attribution r) seen))
          as (H1 & H2).
        -- apply NoDup_app; [exact Hnd|repeat constructor; auto|].
           intros a Ha [<-|[]]. apply Em. now apply Hseen.
        -- intros x. rewrite in_app_iff, set_add_In, Hseen. cbn. intuition.
        -- split; [exact H1|]. intros x. rewrite H2, in_app_iff. cbn. split.
           ++ intros [[H|[<-|[]]]|(Hx & r' & Hr' & E)].
              ** now left.
              ** right. split; [destruct (rec_attribution r); [discriminate|congruence]|].
                 exists r. split; [now left|reflexivity].
              ** right. split; [exact Hx|]. exists r'. split; [now right|exact E].
           ++ intros [H|(Hx & r' & [<-|Hr'] & E)]; [now left;left| |].
              ** left. right. left. exact E.
              ** right. split; [exact Hx|]. now exists r'.
Qed.

(** X20. The attribution roll-up lists every non-empty attribution of
    the records exactly once, in ascending order: the lines are sorted,
    pairwise distinct, and a string is among them exactly when it is not
    empty and is the attribution of some record. *)
Theorem attribution_lines_spec (records : list record) :
  Sorted str_le (attribution_lines records)
  /\ NoDup (attribution_lines records)
  /\ forall a, In a (attribution_lines records)
       <-> a <> [] /\ exists r, In r records /\ rec_attribution r = a.
Proof.
  unfold attribution_lines.
  destruct (attribution_loop_inv records [] []) as (Hnd & Hin);
    [constructor|reflexivity|].
  split; [apply sorted_Sorted|]. split; [now apply sorted_NoDup|].
  intros a. split.
  - intros H. apply (Permutation_in _ (sorted_perm _)) in H.
    apply Hin in H. destruct H as [[]|H]. exact H.
  - intros H. apply (Permutation_in _ (Permutation_sym (sorted_perm _))).
    apply Hin. now right.
Qed.

(** ** The records of the corpus *)

Lemma combine_seq_nth {A : Type} (l : list A) :
  forall k i x, In (i, x) (combine (seq k (length l)) l) ->
  (k <= i)%nat /\ nth_error l (i - k) = Some x.
Proof.
  induction l as [|a l IH]; intros k i x H; [contradiction|].
  cbn [length seq combine] in H. destruct H as [H|H].
  - injection H as <- <-. split; [lia|]. now rewrite Nat.sub_diag.
  - apply IH in H. destruct H as (Hk & Hn). split; [lia|].
    replace (i - k)%nat with (S (i - S k)) by lia. exact Hn.
Qed.

Lemma chunk_records_nth (mk : nat -> str -> record) (chunks : list str) (r : record) :
  In r (chunk_records mk chunks) ->
  exists i ch, nth_error chunks i = Some ch /\ r = mk i ch.
Proof.
  unfold chunk_records. rewrite in_map_iff. intros ((i & ch) & <- & H).
  apply combine_seq_nth in H. rewrite Nat.sub_0_r in H. exists i, ch. now split.
Qed.

Lemma chunk_records_length (mk : nat -> str -> record) (chunks : list str) :
  length (chunk_records mk chunks) = length chunks.
Proof.
  unfold chunk_records. rewrite length_map, length_combine, length_seq. lia.
Qed.

Lemma chunk_records_indexes (mk : nat -> str -> record) (chunks : list str) :
  (forall i ch, rec_chunk_index (mk i ch) = i) ->
  map rec_chunk_index (chunk_records mk chunks) = seq 0 (length chunks).
Proof.
  intros Hmk. unfold chunk_records. rewrite map_map.
  generalize 0%nat. induction chunks as [|c cs IH]; intros k; [reflexivity|].
  cbn [length seq combine map fst snd]. now rewrite Hmk, IH.
Qed.

Lemma chunk_records_contents (mk : nat -> str -> record) (chunks : list str) :
  (forall i ch, rec_content (mk i ch) = ch) ->
  map rec_content (chunk_records mk chunks) = chunks.
Proof.
  intros Hmk. unfold chunk_records. rewrite map_map.
  generalize 0%nat. induction chunks as [|c cs IH]; intros k; [reflexivity|].
  cbn [length seq combine map fst snd]. now rewrite Hmk, IH.
Qed.

Lemma records_until_raise_Forall {A : Type} (P : record -> Prop)
    (body : A -> option (list record)) (items : list A) :
  (forall x recs, body x = Some recs -> Forall P recs) ->
  forall rs raised, records_until_raise body items = (rs, raised) -> Forall P rs.
Proof.
  intros Hbody. induction items as [|x rest IH]; intros rs raised H;
    cbn [records_until_raise] in H.
  - injection H as <- _. constructor.
  - destruct (body x) as [recs|] eqn:E.
    + destruct (records_until_raise body rest) as [rs' raised'].
      injection H as <- _. apply Forall_app. split; [now apply (Hbody x)|].
      now apply (IH rs' raised').
    + injection H as <- _. constructor.
Qed.

Section CorpusRecords.

Variables (lib : PyLib) (web : Web) (gh : GitHub) (cfg : Config) (fetched_at : str).

(** The records of a document are the chunks of one split, in order. *)
Lemma document_records_chunks (recs : list record) :
  document_records lib web gh cfg fetched_at recs ->
  recs = []
  \/ exists text target chunks mk,
       (target = target_chars cfg \/ target = code_target_chars cfg)
       /\ split_into_chunks text target (hard_max_chars cfg) (min_chars cfg) = Some chunks
       /\ recs = chunk_records mk chunks
       /\ forall i ch,
            rec_content (mk i ch) = ch
            /\ rec_chunk_index (mk i ch) = i
            /\ rec_chunk_count (mk i ch) = length chunks
            /\ rec_fetched_at (mk i ch) = fetched_at
            /\ rec_approx_tokens (mk i ch)
               = (if add_token_estimates cfg then Some (approx_tokens ch) else None)
            /\ rec_hash (mk i ch)
               = (if add_hash cfg then Some (sha256_text lib ch) else None).
Proof.
  intros [(u & H)|[(name & branch & sha & lic & node & H)|(repo_name & rel & H)]].
  - unfold doc_page_records in H.
    destruct (extract_doc_page lib web u) as [pg|]; [|discriminate].
    destruct (is_nil (page_content pg) || (len (page_content pg) <? 200));
      [injection H as <-; now left|].
    destruct (split_into_chunks _ _ _ _) as [chunks|] eqn:Es; [|discriminate].
    injection H as <-. right.
    exists (page_content pg), (target_chars cfg), chunks,
      (docs_record lib cfg fetched_at u pg (length chunks)).
    split; [now left|]. split; [exact Es|]. split; [reflexivity|].
    intros i ch. cbn. auto 10.
  - unfold node_records in H.
    destruct (negb (str_eqb (node_type node) (lit "blob")));
      [injection H as <-; now left|].
    cbn zeta in H.
    destruct (negb (is_nil (include_exts cfg)) && negb (mem _ (include_exts cfg)));
      [injection H as <-; now left|].
    destruct (negb (_ =? 0) && (_ <? _)); [injection H as <-; now left|].
    destruct (path_excluded _ _) as [[|]|]; try discriminate;
      [injection H as <-; now left|].
    destruct (get_raw_file gh (org cfg) name branch _) as [[|c raw]|];
      try (injection H as <-; now left).
    destruct (split_into_chunks _ _ _ _) as [[|c0 cchunks]|] eqn:Es; try discriminate;
      [injection H as <-; now left|].
    destruct sha as [sha|]; [|discriminate].
    injection H as <-. right.
    eexists _, (code_target_chars cfg), (c0 :: cchunks), _.
    split; [now right|]. split; [exact Es|]. split; [reflexivity|].
    intros i ch. cbn. auto 10.
  - unfold release_records in H.
    destruct (release_title rel) as [[|c t]|]; try (injection H as <-; now left).
    destruct (split_into_chunks _ _ _ _) as [chunks|] eqn:Es; [|discriminate].
    injection H as <-. right.
    eexists _, (target_chars cfg), chunks, _.
    split; [now left|]. split; [exact Es|]. split; [reflexivity|].
    intros i ch. cbn. auto 10.
Qed.

Lemma docs_phase_Forall (P : record -> Prop) (urls : list str) :
  (forall recs, document_records lib web gh cfg fetched_at recs -> Forall P recs) ->
  forall rs ws, docs_phase lib web cfg fetched_at urls = (rs, ws) -> Forall P rs.
Proof.
  intros HP. induction urls as [|u rest IH]; intros rs ws H; cbn [docs_phase] in H.
  - injection H as <- _. constructor.
  - destruct (docs_phase lib web cfg fetched_at rest) as [rs' ws'].
    destruct (doc_page_records lib web cfg fetched_at u) as [recs|] eqn:E;
      injection H as <- _; [|now apply (IH rs' ws')].
    apply Forall_app. split; [|now apply (IH rs' ws')].
    apply HP. left. now exists u.
Qed.

Lemma repos_phase_Forall (P : record -> Prop) (names : list str) :
  (forall recs, document_records lib web gh cfg fetched_at recs -> Forall P recs) ->
  forall rs ws, repos_phase lib gh cfg fetched_at names = (rs, ws) -> Forall P rs.
Proof.
  intros HP. induction names as [|name rest IH]; intros rs ws H; cbn [repos_phase] in H.
  - injection H as <- _. constructor.
  - destruct (repo_records lib gh cfg fetched_at name) as [rs1 ws1] eqn:E1.
    destruct (repos_phase lib gh cfg fetched_at rest) as [rs2 ws2].
    injection H as <- _. apply Forall_app. split; [|now apply (IH rs2 ws2)].
    unfold repo_records in E1.
    destruct (get_default_branch_sha gh (org cfg) name) as [[branch sha]|];
      [|injection E1 as <- _; constructor].
    destruct (list_repo_tree gh (org cfg) name sha) as [tree|];
      [|injection E1 as <- _; constructor].
    destruct (records_until_raise _ tree) as [rs raised] eqn:Er.
    injection E1 as <- _.
    eapply records_until_raise_Forall; [|exact Er].
    intros node recs Hn. apply HP. right. left. eauto 10.
Qed.

Lemma release_pages_Forall (P : record -> Prop) (repo_name : str) (fuel : nat) :
  (forall recs, document_records lib web gh cfg fetched_at recs -> Forall P recs) ->
  forall page rs raised,
  release_pages fuel lib gh cfg fetched_at repo_name page = Ret (rs, raised) ->
  Forall P rs.
Proof.
  intros HP. induction fuel as [|fuel IH]; intros page rs raised H;
    cbn [release_pages] in H; [discriminate|].
  destruct (releases_page gh (org cfg) repo_name page) as [[|rel rels]|];
    try (injection H as <- _; constructor).
  destruct (records_until_raise _ (rel :: rels)) as [rs1 raised1] eqn:Er.
  assert (H1 : Forall P rs1).
  { eapply records_until_raise_Forall; [|exact Er].
    intros x recs Hx. apply HP. right. right. eauto. }
  destruct raised1; [injection H as <- _; exact H1|].
  destruct (release_pages fuel lib gh cfg fetched_at repo_name (S page))
    as [[rs2 raised2]| |] eqn:E2; try discriminate.
  cbn in H. injection H as <- _. apply Forall_app. split; [exact H1|].
  now apply (IH (S page) rs2 raised2).
Qed.

Lemma releases_phase_Forall (P : record -> Prop) (fuel : nat) (repo_names : list str) :
  (forall recs, document_records lib web gh cfg fetched_at recs -> Forall P recs) ->
  forall rs ws,
  releases_phase fuel lib gh cfg fetched_at repo_names = Ret (rs, ws) -> Forall P rs.
Proof.
  intros HP. induction repo_names as [|repo_name rest IH]; intros rs ws H;
    cbn [releases_phase] in H.
  - injection H as <- _. constructor.
  - destruct (release_pages fuel lib gh cfg fetched_at repo_name 1)
      as [[rs1 raised]| |] eqn:E1; try discriminate.
    cbn [bind] in H.
    destruct (releases_phase fuel lib gh cfg fetched_at rest)
      as [[rs2 ws2]| |]; try discriminate.
    cbn in H. injection H as <- _. apply Forall_app. split.
    + now apply (release_pages_Forall P repo_name fuel HP 1 rs1 raised).
    + now apply (IH rs2 ws2).
Qed.

(** What holds of the records of every document holds of the corpus. *)
Lemma build_corpus_Forall (P : record -> Prop) (fuel : nat)
    (recs : list record) (warns : list warning) :
  (forall recs, document_records lib web gh cfg fetched_at recs -> Forall P recs) ->
  build_corpus lib web gh cfg fetched_at fuel = Ret (recs, warns) ->
  Forall P recs.
Proof.
  intros HP Hrun.
  destruct (build_corpus_parts _ _ _ _ _ _ _ _ Hrun)
    as (doc_urls & listed & drs & dws & rrs & rws & lrs & lws
        & _ & Hdp & _ & Hrp & Hlp & -> & _).
  apply Forall_app. split; [now apply (docs_phase_Forall P _ HP _ _ Hdp)|].
  apply Forall_app. split; [now apply (repos_phase_Forall P _ HP _ _ Hrp)|].
  now apply (releases_phase_Forall P _ _ HP _ _ Hlp).
Qed.

Lemma document_records_origin (recs : list record) :
  document_records lib web gh cfg fetched_at recs ->
  Forall (record_origin lib cfg fetched_at) recs.
Proof.
  intros H. apply document_records_chunks in H.
  destruct H as [->|(text & target & chunks & mk & Ht & Hs & -> & Hmk)]; [constructor|].
  apply Forall_forall. intros r Hr. apply chunk_records_nth in Hr.
  destruct Hr as (i & ch & Hn & ->).
  destruct (Hmk i ch) as (Hc & Hi & Hk & Hf & Ha & Hh).
  exists text, target, chunks. split; [exact Ht|]. split; [exact Hs|].
  unfold chunk_fields. rewrite Hc, Hi, Hk, Hf, Ha, Hh. auto 10.
Qed.

(** X21. The records of one document (a documentation page, a file, a
    release) are numbered from 0 in order, and each carries their number
    as its [chunk_count]. *)
Theorem document_records_ordinals (recs : list record) :
  document_records lib web gh cfg fetched_at recs ->
  map rec_chunk_index recs = seq 0 (length recs)
  /\ Forall (fun r => rec_chunk_count r = length recs) recs.
Proof.
  intros H. apply document_records_chunks in H.
  destruct H as [->|(text & target & chunks & mk & Ht & Hs & -> & Hmk)];
    [split; [reflexivity|constructor]|].
  rewrite chunk_records_length. split.
  - apply chunk_records_indexes. intros i ch. apply (Hmk i ch).
  - apply Forall_forall. intros r Hr. apply chunk_records_nth in Hr.
    destruct Hr as (i & ch & _ & ->). apply (Hmk i ch).
Qed.

(** X22. In the corpus, the index of every record is below its
    [chunk_count]. *)
Theorem build_corpus_chunk_index (fuel : nat) (recs : list record)
    (warns : list warning) :
  build_corpus lib web gh cfg fetched_at fuel = Ret (recs, warns) ->
  Forall (fun r => (rec_chunk_index r < rec_chunk_count r)%nat) recs.
Proof.
  apply build_corpus_Forall. intros rs Hrs.
  apply document_records_origin in Hrs. rewrite Forall_forall in *.
  intros r Hr. destruct (Hrs r Hr) as (text & target & chunks & _ & _ & Hn & -> & _).
  apply nth_error_Some. congruence.
Qed.

(** X23. In the corpus, the fields derived from the content are those
    the configuration asks for: every record carries the time stamp of
    the run, the token estimate of its own content when estimates are
    on, the hash of its own content when hashes are on, and [None]
    otherwise. *)
Theorem build_corpus_derived_fields (fuel : nat) (recs : list record)
    (warns : list warning) :
  build_corpus lib web gh cfg fetched_at fuel = Ret (recs, warns) ->
  Forall (fun r =>
            rec_fetched_at r = fetched_at
            /\ rec_approx_tokens r
               = (if add_token_estimates cfg then Some (approx_tokens (rec_content r))
                  else None)
            /\ rec_hash r
               = (if add_hash cfg then Some (sha256_text lib (rec_content r)) else None))
         recs.
Proof.
  apply build_corpus_Forall. intros rs Hrs.
  apply document_records_origin in Hrs. rewrite Forall_forall in *.
  intros r Hr. destruct (Hrs r Hr) as (text & target & chunks & _ & _ & _ & _ & H).
  exact H.
Qed.

Lemma split_into_chunks_le (text : str) (target_chars hard_max min_chars : Z)
    (cs : list str) :
  target_chars <= hard_max ->
  split_into_chunks text target_chars hard_max min_chars = Some cs ->
  Forall (fun c => len c <= hard_max) cs.
Proof.
  intros Hth. unfold split_into_chunks.
  destruct (len text <=? hard_max) eqn:E.
  - intros [= <-]. apply Z.leb_le in E. now repeat constructor.
  - destruct (chunk_loop _ _ _ _ _) as [st|] eqn:El; [|discriminate].
    apply chunk_loop_bounded in El; [|exact Hth|].
    + destruct El as (Hcs & Hcur & Hbuf).
      destruct (buf st) as [|x r] eqn:Eb; intros [= <-]; [exact Hcs|].
      apply Forall_app. split; [exact Hcs|]. constructor; [|constructor].
      destruct Hbuf as [Hbuf|Hbuf]; [discriminate|].
      apply Z.le_trans with (len (join NLNL (x :: r))); [apply len_strip|lia].
    + repeat split; simpl; auto. lia.
Qed.

(** X24. When both targets of the configuration are at most
    [hard_max_chars], no record of the corpus has a content longer than
    [hard_max_chars]. *)
Theorem build_corpus_content_bound (fuel : nat) (recs : list record)
    (warns : list warning) :
  target_chars cfg <= hard_max_chars cfg ->
  code_target_chars cfg <= hard_max_chars cfg ->
  build_corpus lib web gh cfg fetched_at fuel = Ret (recs, warns) ->
  Forall (fun r => len (rec_content r) <= hard_max_chars cfg) recs.
Proof.
  intros Ht Hc. apply build_corpus_Forall. intros rs Hrs.
  apply document_records_origin in Hrs. rewrite Forall_forall in *.
  intros r Hr. destruct (Hrs r Hr) as (text & target & chunks & Htg & Hs & Hn & _).
  apply split_into_chunks_le in Hs; [|destruct Htg as [->| ->]; assumption].
  rewrite Forall_forall in Hs. apply Hs. eapply nth_error_In. exact Hn.
Qed.

End CorpusRecords.

(** ** The three loops of the corpus: order, warnings, exceptions *)

Lemma records_until_raise_all {A : Type} (body : A -> option (list record))
    (items : list A) :
  (forall x, In x items -> body x <> None) ->
  records_until_raise body items
  = (flat_map (fun x => match body x with Some recs => recs | None => [] end) items,
     false).
Proof.
  induction items as [|x rest IH]; intros H; cbn [records_until_raise flat_map];
    [reflexivity|].
  destruct (body x) as [recs|] eqn:E; [|exfalso; apply (H x); [now left|exact E]].
  rewrite IH; [reflexivity|]. intros y Hy. apply H. now right.
Qed.

Lemma records_until_raise_raised {A : Type} (body : A -> option (list record))
    (items : list A) (rs : list record) :
  records_until_raise body items = (rs, true) -> exists x, In x items /\ body x = None.
Proof.
  revert rs. induction items as [|x rest IH]; intros rs H; cbn [records_until_raise] in H;
    [discriminate|].
  destruct (body x) as [recs|] eqn:E; [|exists x; split; [now left|exact E]].
  destruct (records_until_raise body rest) as [rs' raised'].
  injection H as _ ->. destruct (IH rs' eq_refl) as (y & Hy & Ey).
  exists y. split; [now right|exact Ey].
Qed.

Lemma path_excluded_total (globs : list str) (path : str) :
  exists b, path_excluded globs path = Some b.
Proof.
  induction globs as [|pat rest IH]; cbn [path_excluded]; [now eexists|].
  rewrite glob_fullmatch_tokens.
  destruct (rx_match (map glob_item (glob_tokens pat)) path); [now eexists|exact IH].
Qed.

Section CorpusPhases.

Variables (lib : PyLib) (web : Web) (gh : GitHub) (cfg : Config) (fetched_at : str).

(** X25. The corpus lists the records of the documentation first, then
    those of the repositories, then those of the releases; the warnings
    come in the same order. *)
Theorem build_corpus_order (fuel : nat) (recs : list record) (warns : list warning) :
  build_corpus lib web gh cfg fetched_at fuel = Ret (recs, warns) ->
  (exists docs repos rels,
     recs = docs ++ repos ++ rels
     /\ Forall (fun r => rec_source_type r = Docs) docs
     /\ Forall (fun r => rec_source_type r = Repo) repos
     /\ Forall (fun r => rec_source_type r = Release) rels)
  /\ (exists docs repos rels,
        warns = docs ++ repos ++ rels
        /\ Forall (fun w => exists u, w = WarnDocs u) docs
        /\ Forall (fun w => exists name, w = WarnRepo name) repos
        /\ Forall (fun w => exists repo_name, w = WarnReleases repo_name) rels).
Proof.
  intros Hrun.
  destruct (build_corpus_parts _ _ _ _ _ _ _ _ Hrun)
    as (doc_urls & listed & drs & dws & rrs & rws & lrs & lws
        & _ & Hdp & _ & Hrp & Hlp & -> & ->).
  destruct (docs_phase_keyed _ _ _ _ _ _ _ Hdp) as (Hkd & Hwd).
  destruct (repos_phase_kinds _ _ _ _ _ _ _ Hrp) as (Hkr & Hwr).
  destruct (releases_phase_kinds _ _ _ _ _ _ _ _ Hlp) as (Hkl & Hwl).
  split.
  - exists drs, rrs, lrs. split; [reflexivity|]. rewrite !Forall_forall.
    split; [|split; assumption].
    intros r Hr. destruct (keyed_In _ _ _ Hkd r Hr) as (u & _ & Hs & _). exact Hs.
  - exists dws, rws, lws. split; [reflexivity|]. rewrite !Forall_forall.
    split; [|split; assumption].
    intros w Hw. destruct (Hwd w Hw) as (u & -> & _). now exists u.
Qed.

Section NonZeroHardMax.

Hypothesis hard_max_nonzero : hard_max_chars cfg <> 0.

Lemma doc_page_records_none (u : str) :
  doc_page_records lib web cfg fetched_at u = None ->
  http_get_result (net web u) u = None.
Proof.
  unfold doc_page_records, extract_doc_page.
  destruct (http_get_result (net web u) u) as [r|]; [|reflexivity].
  cbn [page_content].
  destruct (is_nil _ || (len _ <? 200)); [discriminate|].
  destruct (chunk_loop_some (target_chars cfg) (hard_max_chars cfg) (min_chars cfg)
              (re_split_paras
                 (strip (clean_text (join NLNL (html_blocks lib (resp_text r))))))
              hard_max_nonzero (mkChunker [] [] 0)) as (st & Hst).
  unfold split_into_chunks. rewrite Hst.
  destruct (len _ <=? hard_max_chars cfg); [discriminate|].
  destruct (buf st); discriminate.
Qed.

Lemma docs_phase_warned (urls : list str) :
  Forall (fetch_failure web gh cfg) (snd (docs_phase lib web cfg fetched_at urls)).
Proof.
  induction urls as [|u rest IH]; cbn [docs_phase]; [constructor|].
  destruct (docs_phase lib web cfg fetched_at rest) as [rs ws].
  destruct (doc_page_records lib web cfg fetched_at u) as [recs|] eqn:E; [exact IH|].
  cbn [snd] in *. constructor; [|exact IH].
  cbn [fetch_failure]. now apply doc_page_records_none.
Qed.

Lemma split_into_chunks_some (text : str) (target : Z) :
  split_into_chunks text target (hard_max_chars cfg) (min_chars cfg) <> None.
Proof.
  destruct (chunk_loop_some target (hard_max_chars cfg) (min_chars cfg)
              (re_split_paras (strip text)) hard_max_nonzero (mkChunker [] [] 0))
    as (st & Hst).
  unfold split_into_chunks. rewrite Hst.
  destruct (len _ <=? hard_max_chars cfg); [discriminate|].
  destruct (buf st); discriminate.
Qed.

Lemma node_records_some (name branch sha : str) (lic : option str) (node : tree_node) :
  node_records lib gh cfg fetched_at name branch (Some sha) lic node <> None.
Proof.
  unfold node_records.
  destruct (negb (str_eqb (node_type node) (lit "blob"))); [discriminate|].
  cbn zeta.
  destruct (negb (is_nil (include_exts cfg)) && negb (mem _ (include_exts cfg)));
    [discriminate|].
  destruct (negb (_ =? 0) && (_ <? _)); [discriminate|].
  match goal with
  | |- context [path_excluded ?g ?p] =>
      destruct (path_excluded_total g p) as (b & ->)
  end.
  destruct b; [discriminate|].
  destruct (get_raw_file gh (org cfg) name branch _) as [[|c raw]|]; try discriminate.
  pose proof (split_into_chunks_some (clean_text (c :: raw)) (code_target_chars cfg)) as Hs.
  destruct (split_into_chunks _ _ _ _) as [[|c0 cchunks]|]; [discriminate..|contradiction].
Qed.

Lemma release_records_some (repo_name : str) (rel : release) :
  release_records lib gh cfg fetched_at repo_name rel <> None.
Proof.
  unfold release_records.
  destruct (release_title rel) as [[|c t]|]; try discriminate.
  match goal with
  | |- context [split_into_chunks ?text ?target _ _] =>
      pose proof (split_into_chunks_some text target) as Hs;
      destruct (split_into_chunks text target (hard_max_chars cfg) (min_chars cfg))
  end; [discriminate|contradiction].
Qed.

Lemma repo_records_warned (name : str) (w : warning) :
  In w (snd (repo_records lib gh cfg fetched_at name)) ->
  w = WarnRepo name /\ fetch_failure web gh cfg w.
Proof.
  unfold repo_records.
  destruct (get_default_branch_sha gh (org cfg) name) as [[branch sha]|] eqn:Eb.
  - destruct (list_repo_tree gh (org cfg) name sha) as [tree|] eqn:Et.
    + destruct (records_until_raise _ tree) as [rs raised] eqn:Er.
      destruct raised; [|contradiction].
      intros [<-|[]]. split; [reflexivity|]. cbn [fetch_failure].
      destruct sha as [sha|]; [|right; left; now exists branch].
      apply records_until_raise_raised in Er. destruct Er as (node & _ & En).
      now apply node_records_some in En.
    + intros [<-|[]]. split; [reflexivity|]. cbn [fetch_failure].
      right. right. now exists branch, sha.
  - intros [<-|[]]. split; [reflexivity|]. cbn [fetch_failure]. now left.
Qed.

Lemma repos_phase_warned (names : list str) :
  Forall (fetch_failure web gh cfg) (snd (repos_phase lib gh cfg fetched_at names)).
Proof.
  induction names as [|name rest IH]; cbn [repos_phase]; [constructor|].
  pose proof (repo_records_warned name) as H1.
  destruct (repo_records lib gh cfg fetched_at name) as [rs1 ws1].
  destruct (repos_phase lib gh cfg fetched_at rest) as [rs2 ws2].
  cbn [snd] in *. apply Forall_app. split; [|exact IH].
  apply Forall_forall. intros w Hw. now apply H1.
Qed.

Lemma release_pages_raised (repo_name : str) (fuel : nat) :
  forall page rs,
  release_pages fuel lib gh cfg fetched_at repo_name page = Ret (rs, true) ->
  exists p, releases_page gh (org cfg) repo_name p = None.
Proof.
  induction fuel as [|fuel IH]; intros page rs H; cbn [release_pages] in H;
    [discriminate|].
  destruct (releases_page gh (org cfg) repo_name page) as [[|rel rels]|] eqn:Ep;
    [discriminate| |now exists page].
  destruct (records_until_raise _ (rel :: rels)) as [rs1 raised1] eqn:Er.
  destruct raised1.
  - apply records_until_raise_raised in Er. destruct Er as (x & _ & Ex).
    now apply release_records_some in Ex.
  - destruct (release_pages fuel lib gh cfg fetched_at repo_name (S page))
      as [[rs2 raised2]| |] eqn:E2; try discriminate.
    cbn in H. injection H as _ ->. now apply (IH (S page) rs2).
Qed.

Lemma releases_phase_warned (fuel : nat) (repo_names : list str) :
  forall rs ws,
  releases_phase fuel lib gh cfg fetched_at repo_names = Ret (rs, ws) ->
  Forall (fetch_failure web gh cfg) ws.
Proof.
  induction repo_names as [|repo_name rest IH]; intros rs ws H;
    cbn [releases_phase] in H.
  - injection H as _ <-. constructor.
  - destruct (release_pages fuel lib gh cfg fetched_at repo_name 1)
      as [[rs1 raised]| |] eqn:E1; try discriminate.
    cbn [bind] in H.
    destruct (releases_phase fuel lib gh cfg fetched_at rest)
      as [[rs2 ws2]| |]; try discriminate.
    cbn in H. injection H as _ <-. apply Forall_app. split; [|now apply (IH rs2)].
    destruct raised; [|constructor]. constructor; [|constructor].
    cbn [fetch_failure]. now apply (release_pages_raised repo_name fuel 1 rs1).
Qed.

(** X27. With a hard maximum other than 0, every warning of a run stands
    for a fetch that failed: a page that cannot be fetched, a repository
    whose branch or tree cannot be fetched or whose branch reference has
    no sha, a page of releases that cannot be fetched.  No other step of
    the three loops raises. *)
Theorem build_corpus_warnings (fuel : nat) (recs : list record) (warns : list warning) :
  build_corpus lib web gh cfg fetched_at fuel = Ret (recs, warns) ->
  Forall (fetch_failure web gh cfg) warns.
Proof.
  intros Hrun.
  destruct (build_corpus_parts _ _ _ _ _ _ _ _ Hrun)
    as (doc_urls & listed & drs & dws & rrs & rws & lrs & lws
        & _ & Hdp & _ & Hrp & Hlp & _ & ->).
  apply Forall_app. split; [|apply Forall_app; split].
  - pose proof (docs_phase_warned doc_urls) as H. now rewrite Hdp in H.
  - pose proof (repos_phase_warned (ingested_repos cfg listed)) as H.
    now rewrite Hrp in H.
  - exact (releases_phase_warned fuel _ lrs lws Hlp).
Qed.

(** X28. With a hard maximum other than 0, a repository whose branch
    reference resolves to a sha and whose tree can be fetched is
    ingested without warning, and its records are those of its files in
    the order of the tree. *)
Theorem repo_records_complete (name branch sha : str) (tree : list tree_node) :
  get_default_branch_sha gh (org cfg) name = Some (branch, Some sha) ->
  list_repo_tree gh (org cfg) name (Some sha) = Some tree ->
  repo_records lib gh cfg fetched_at name
  = (flat_map (fun node =>
                 match node_records lib gh cfg fetched_at name branch (Some sha)
                         (or_else (get_repo_license gh (org cfg) name) None) node with
                 | Some recs => recs
                 | None => []
                 end) tree,
     []).
Proof.
  intros Hb Ht. unfold repo_records. rewrite Hb, Ht.
  rewrite records_until_raise_all; [reflexivity|].
  intros node _. apply node_records_some.
Qed.

End NonZeroHardMax.

(** Up to the write step, only the discovery and the listing of the
    repositories can end the run with an exception. *)
Lemma build_corpus_records_raise (fuel : nat) :
  build_corpus lib web gh cfg fetched_at fuel = Raise
  <-> discover_doc_urls lib web fuel (rstrip_chars (lit "/") (docs_base cfg))
        (doc_seeds cfg) = Raise
      \/ ((exists doc_urls,
             discover_doc_urls lib web fuel (rstrip_chars (lit "/") (docs_base cfg))
               (doc_seeds cfg) = Ret doc_urls)
          /\ list_org_repos fuel gh (org cfg) 1 = Raise).
Proof.
  unfold build_corpus. cbn zeta.
  destruct (discover_doc_urls lib web fuel _ (doc_seeds cfg)) as [doc_urls| |];
    cbn [bind].
  - destruct (docs_phase lib web cfg fetched_at doc_urls) as [drs dws].
    destruct (list_org_repos fuel gh (org cfg) 1) as [listed| |]; cbn [bind].
    + destruct (repos_phase _ _ _ _ _) as [rrs rws].
      assert (Hrel : releases_phase fuel lib gh cfg fetched_at (releases_include_from cfg)
                     <> Raise).
      { generalize (releases_include_from cfg). intros names.
        induction names as [|n rest IH]; cbn [releases_phase]; [discriminate|].
        assert (Hp : forall f page, release_pages f lib gh cfg fetched_at n page <> Raise).
        { intros f. induction f as [|f IHf]; intros page; cbn [release_pages];
            [discriminate|].
          destruct (releases_page gh (org cfg) n page) as [[|rel rels]|];
            try discriminate.
          destruct (records_until_raise _ (rel :: rels)) as [rs1 [|]]; [discriminate|].
          specialize (IHf (S page)).
          destruct (release_pages f lib gh cfg fetched_at n (S page)); cbn [bind];
            [discriminate|contradiction|discriminate]. }
        specialize (Hp fuel 1%nat).
        destruct (release_pages fuel lib gh cfg fetched_at n 1); cbn [bind];
          [|contradiction|discriminate].
        destruct (releases_phase fuel lib gh cfg fetched_at rest); cbn [bind];
          [discriminate|contradiction|discriminate]. }
      destruct (releases_phase fuel lib gh cfg fetched_at (releases_include_from cfg));
        cbn [bind]; split; try discriminate; try contradiction;
        intros [H|(_ & H)]; discriminate.
    + split; [intros _; right; split; [now exists doc_urls|reflexivity]|reflexivity].
    + split; [discriminate|]. intros [H|(_ & H)]; discriminate.
  - split; [now left|reflexivity].
  - split; [discriminate|]. intros [H|((u & H) & _)]; discriminate.
Qed.

(** X29. A run of [build_corpus] raises exactly when the discovery of
    the documentation raises, or, after a discovery that returns, the
    listing of the repositories of the organisation raises (the listing
    is not guarded, also when [include_repos] makes its result unused),
    or, once the records are computed, the corpus file or
    [ATTRIBUTION.txt] cannot be written.  No failure inside the three
    loops ends the run. *)
Theorem build_corpus_run_raises_iff (fuel : nat) (fs : Files) (out_path : str) :
  build_corpus_run lib web gh cfg fetched_at fuel fs out_path = Raise
  <-> discover_doc_urls lib web fuel (rstrip_chars (lit "/") (docs_base cfg))
        (doc_seeds cfg) = Raise
      \/ ((exists doc_urls,
             discover_doc_urls lib web fuel (rstrip_chars (lit "/") (docs_base cfg))
               (doc_seeds cfg) = Ret doc_urls)
          /\ list_org_repos fuel gh (org cfg) 1 = Raise)
      \/ (exists recs warns,
            build_corpus lib web gh cfg fetched_at fuel = Ret (recs, warns)
            /\ (write_jsonl fs out_path recs = false
                \/ write_text fs (lit "ATTRIBUTION.txt") (attribution_text recs) = false)).
Proof.
  unfold build_corpus_run.
  pose proof (build_corpus_records_raise fuel) as Hrec.
  destruct (build_corpus lib web gh cfg fetched_at fuel) as [[recs warns]| |] eqn:E;
    cbn [bind fst].
  - split.
    + intros H. right. right. exists recs, warns. split; [reflexivity|].
      destruct (write_jsonl fs out_path recs); [|now left].
      destruct (write_text fs (lit "ATTRIBUTION.txt") (attribution_text recs));
        [discriminate|now right].
    + intros [H|[H|(recs' & warns' & [= <- <-] & H)]].
      * apply (fun H => proj2 Hrec (or_introl H)) in H. discriminate.
      * apply (fun H => proj2 Hrec (or_intror H)) in H. discriminate.
      * destruct H as [-> | H]; [reflexivity|].
        destruct (write_jsonl fs out_path recs); [now rewrite H|reflexivity].
  - split; [intros _|reflexivity].
    destruct (proj1 Hrec eq_refl) as [H|H]; [now left|right; now left].
  - split; [discriminate|].
    intros [H|[H|(recs' & warns' & H & _)]]; [| |discriminate].
    + apply (fun H => proj2 Hrec (or_introl H)) in H. discriminate.
    + apply (fun H => proj2 Hrec (or_intror H)) in H. discriminate.
Qed.

End CorpusPhases.

(** ** The properties of the corpus on the scenarios *)

Lemma document_records_ordinals_witness :
  exists recs,
    doc_page_records demo_lib demo_web demo_config demo_now
      (lit "https://opentdf.io/introduction") = Some recs
    /\ map rec_chunk_index recs = seq 0 (length recs)
    /\ Forall (fun r => rec_chunk_count r = length recs) recs.
Proof.
  eexists. split; [vm_compute; reflexivity|].
  apply (document_records_ordinals demo_lib demo_web (demo_github []) demo_config demo_now).
  left. exists (lit "https://opentdf.io/introduction"). vm_compute. reflexivity.
Defined.

Lemma build_corpus_chunk_index_witness :
  exists recs warns,
    build_corpus demo_lib demo_web (demo_github [demo_release "v1.0" "v1.0.0"])
      demo_config demo_now 20 = Ret (recs, warns)
    /\ Forall (fun r => (rec_chunk_index r < rec_chunk_count r)%nat) recs.
Proof.
  eexists. eexists. split; [vm_compute; reflexivity|].
  eapply (build_corpus_chunk_index demo_lib demo_web
            (demo_github [demo_release "v1.0" "v1.0.0"]) demo_config demo_now 20).
  vm_compute. reflexivity.
Defined.

Lemma build_corpus_derived_fields_witness :
  exists recs warns,
    build_corpus demo_lib demo_web (demo_github [demo_release "v1.0" "v1.0.0"])
      demo_config demo_now 20 = Ret (recs, warns)
    /\ Forall (fun r =>
                 rec_fetched_at r = demo_now
                 /\ rec_approx_tokens r = Some (approx_tokens (rec_content r))
                 /\ rec_hash r = None) recs.
Proof.
  eexists. eexists. split; [vm_compute; reflexivity|].
  eapply (build_corpus_derived_fields demo_lib demo_web
            (demo_github [demo_release "v1.0" "v1.0.0"]) demo_config demo_now 20).
  vm_compute. reflexivity.
Defined.

Lemma build_corpus_content_bound_witness :
  exists recs warns,
    build_corpus demo_lib demo_web (demo_github [demo_release "v1.0" "v1.0.0"])
      demo_config demo_now 20 = Ret (recs, warns)
    /\ Forall (fun r => len (rec_content r) <= 1200) recs.
Proof.
  eexists. eexists. split; [vm_compute; reflexivity|].
  eapply (build_corpus_content_bound demo_lib demo_web
            (demo_github [demo_release "v1.0" "v1.0.0"]) demo_config demo_now 20).
  - cbn. lia.
  - cbn. lia.
  - vm_compute. reflexivity.
Defined.

Lemma build_corpus_order_witness :
  exists recs warns,
    build_corpus demo_lib demo_web (demo_github [demo_release "v1.0" "v1.0.0"])
      demo_config demo_now 20 = Ret (recs, warns)
    /\ exists docs repos rels,
         recs = docs ++ repos ++ rels
         /\ Forall (fun r => rec_source_type r = Docs) docs
         /\ Forall (fun r => rec_source_type r = Repo) repos
         /\ Forall (fun r => rec_source_type r = Release) rels.
Proof.
  eexists. eexists. split; [vm_compute; reflexivity|].
  eapply (build_corpus_order demo_lib demo_web
            (demo_github [demo_release "v1.0" "v1.0.0"]) demo_config demo_now 20).
  vm_compute. reflexivity.
Defined.

Lemma build_corpus_warnings_witness :
  exists recs,
    build_corpus demo_lib demo_web demo_github_listing_only demo_config demo_now 20
    = Ret (recs, [WarnRepo (lit "platform"); WarnRepo (lit "spec");
                  WarnReleases (lit "platform")])
    /\ Forall (fetch_failure demo_web demo_github_listing_only demo_config)
         [WarnRepo (lit "platform"); WarnRepo (lit "spec"); WarnReleases (lit "platform")].
Proof.
  eexists. split; [vm_compute; reflexivity|].
  eapply (build_corpus_warnings demo_lib demo_web demo_github_listing_only
            demo_config demo_now ltac:(cbn; discriminate) 20).
  vm_compute. reflexivity.
Defined.

Lemma repo_records_complete_witness :
  snd (repo_records demo_lib (demo_github []) demo_config demo_now (lit "platform")) = []
  /\ length (fst (repo_records demo_lib (demo_github []) demo_config demo_now
                    (lit "platform"))) = 2%nat.
Proof.
  rewrite (repo_records_complete demo_lib (demo_github []) demo_config demo_now
             ltac:(cbn; discriminate) (lit "platform") (lit "main")
             (lit "8f3a1c2d9e0b7a65")
             [mkNode (lit "tree") (Some (lit "docs")) None;
              mkNode (lit "blob") (Some (lit "README.md")) (Some 1802)]
             eq_refl eq_refl).
  split; [reflexivity|vm_compute; reflexivity].
Defined.

(** ** What the corpus holds *)

Lemma rstrip_chars_idem (chars s : str) :
  rstrip_chars chars (rstrip_chars chars s) = rstrip_chars chars s.
Proof.
  induction s as [|c t IH]; [reflexivity|]. cbn [rstrip_chars].
  destruct (rstrip_chars chars t) as [|x r] eqn:E.
  - destruct (existsb (N.eqb c) chars) eqn:Ec; [reflexivity|].
    cbn [rstrip_chars]. now rewrite Ec.
  - cbn [rstrip_chars]. cbn [rstrip_chars] in IH. rewrite IH. reflexivity.
Qed.

Section CorpusScope.

Variables (lib : PyLib) (web : Web) (gh : GitHub) (cfg : Config) (fetched_at : str).

Lemma discover_doc_urls_docs (fuel : nat) (base : str) (seeds urls : list str) :
  discover_doc_urls lib web fuel base seeds = Ret urls ->
  Forall (fun u => _is_docs_url u (rstrip_chars (lit "/") base) = true) urls.
Proof.
  unfold discover_doc_urls.
  destruct (sitemap_discovery lib web fuel (rstrip_chars (lit "/") base))
    as [found| |] eqn:E; try discriminate.
  cbn [bind]. destruct (sitemap_discovery_inv _ _ _ _ _ E) as (Hnd & Hall).
  destruct (negb (is_nil found)).
  - intros [= <-]. now apply sorted_Forall.
  - destruct (bfs_loop _ _ _ _ _ _ _) as [found'| |] eqn:Eb; try discriminate.
    cbn [bind]. intros [= <-]. apply sorted_Forall.
    now destruct (bfs_loop_inv _ _ _ _ _ _ _ _ Eb Hnd Hall).
Qed.

Lemma node_records_scope (name branch : str) (sha lic : option str) (node : tree_node)
    (recs : list record) :
  node_records lib gh cfg fetched_at name branch sha lic node = Some recs ->
  Forall (fun r =>
            rec_source_type r = Repo
            /\ exists path,
                 rec_repo r = Some (org cfg ++ lit "/" ++ name)
                 /\ rec_path r = Some path
                 /\ (include_exts cfg = []
                     \/ In (str_lower lib (splitext_ext path)) (include_exts cfg))
                 /\ path_excluded (exclude_path_globs cfg) path = Some false) recs.
Proof.
  unfold node_records.
  destruct (negb (str_eqb (node_type node) (lit "blob"))); [intros [= <-]; constructor|].
  cbn zeta.
  set (path := match node_path node with Some p => p | None => [] end).
  destruct (negb (is_nil (include_exts cfg))
            && negb (mem (str_lower lib (splitext_ext path)) (include_exts cfg))) eqn:Eext;
    [intros [= <-]; constructor|].
  destruct (negb (_ =? 0) && (_ <? _)); [intros [= <-]; constructor|].
  destruct (path_excluded (exclude_path_globs cfg) path) as [[|]|] eqn:Ex;
    try discriminate; [intros [= <-]; constructor|].
  destruct (get_raw_file gh (org cfg) name branch path) as [[|c raw]|];
    try (intros [= <-]; constructor).
  destruct (split_into_chunks _ _ _ _) as [[|c0 cchunks]|]; try discriminate;
    [intros [= <-]; constructor|].
  destruct sha as [sha|]; [|discriminate].
  intros [= <-]. apply Forall_forall. intros r Hr.
  apply chunk_records_In in Hr. destruct Hr as (i & ch & ->).
  split; [reflexivity|]. exists path. cbn [rec_repo rec_path repo_record].
  split; [reflexivity|]. split; [reflexivity|]. split; [|exact Ex].
  apply andb_false_iff in Eext. destruct Eext as [E|E].
  - left. destruct (include_exts cfg); [reflexivity|discriminate].
  - right. apply mem_In. now destruct (mem _ (include_exts cfg)).
Qed.

Lemma repos_phase_scope (names : list str) :
  forall rs ws,
  repos_phase lib gh cfg fetched_at names = (rs, ws) ->
  Forall (fun r =>
            rec_source_type r = Repo
            /\ exists name path,
                 In name names
                 /\ rec_repo r = Some (org cfg ++ lit "/" ++ name)
                 /\ rec_path r = Some path
                 /\ (include_exts cfg = []
                     \/ In (str_lower lib (splitext_ext path)) (include_exts cfg))
                 /\ path_excluded (exclude_path_globs cfg) path = Some false) rs.
Proof.
  induction names as [|name rest IH]; intros rs ws H; cbn [repos_phase] in H.
  - injection H as <- _. constructor.
  - destruct (repo_records lib gh cfg fetched_at name) as [rs1 ws1] eqn:E1.
    destruct (repos_phase lib gh cfg fetched_at rest) as [rs2 ws2].
    injection H as <- _. apply Forall_app. split.
    + unfold repo_records in E1.
      destruct (get_default_branch_sha gh (org cfg) name) as [[branch sha]|];
        [|injection E1 as <- _; constructor].
      destruct (list_repo_tree gh (org cfg) name sha) as [tree|];
        [|injection E1 as <- _; constructor].
      destruct (records_until_raise _ tree) as [rs raised] eqn:Er.
      injection E1 as <- _.
      eapply records_until_raise_Forall; [|exact Er].
      intros node recs Hn. apply node_records_scope in Hn.
      eapply Forall_impl; [|exact Hn].
      intros r (Hs & path & H1 & H2 & H3 & H4). split; [exact Hs|].
      exists name, path. split; [now left|auto].
    + eapply Forall_impl; [|apply (IH rs2 ws2 eq_refl)].
      intros r (Hs & name' & path & Hin & Hrest). split; [exact Hs|].
      exists name', path. split; [now right|exact Hrest].
Qed.

Lemma release_records_scope (repo_name : str) (rel : release) (recs : list record) :
  release_records lib gh cfg fetched_at repo_name rel = Some recs ->
  Forall (fun r => rec_source_type r = Release
                   /\ rec_repo r = Some (org cfg ++ lit "/" ++ repo_name)) recs.
Proof.
  unfold release_records.
  destruct (release_title rel) as [[|c t]|]; try (intros [= <-]; constructor).
  destruct (split_into_chunks _ _ _ _) as [chunks|]; [|discriminate].
  intros [= <-]. apply Forall_forall. intros r Hr.
  apply chunk_records_In in Hr. destruct Hr as (i & ch & ->). split; reflexivity.
Qed.

Lemma release_pages_scope (repo_name : str) (fuel : nat) :
  forall page rs raised,
  release_pages fuel lib gh cfg fetched_at repo_name page = Ret (rs, raised) ->
  Forall (fun r => rec_source_type r = Release
                   /\ rec_repo r = Some (org cfg ++ lit "/" ++ repo_name)) rs.
Proof.
  induction fuel as [|fuel IH]; intros page rs raised H;
    cbn [release_pages] in H; [discriminate|].
  destruct (releases_page gh (org cfg) repo_name page) as [[|rel rels]|];
    try (injection H as <- _; constructor).
  destruct (records_until_raise _ (rel :: rels)) as [rs1 raised1] eqn:Er.
  assert (H1 : Forall (fun r => rec_source_type r = Release
                         /\ rec_repo r = Some (org cfg ++ lit "/" ++ repo_name)) rs1).
  { eapply records_until_raise_Forall; [|exact Er].
    intros x recs Hx. now apply release_records_scope in Hx. }
  destruct raised1; [injection H as <- _; exact H1|].
  destruct (release_pages fuel lib gh cfg fetched_at repo_name (S page))
    as [[rs2 raised2]| |] eqn:E2; try discriminate.
  cbn in H. injection H as <- _. apply Forall_app. split; [exact H1|].
  now apply (IH (S page) rs2 raised2).
Qed.

Lemma releases_phase_scope (fuel : nat) (repo_names : list str) :
  forall rs ws,
  releases_phase fuel lib gh cfg fetched_at repo_names = Ret (rs, ws) ->
  Forall (fun r => rec_source_type r = Release
                   /\ exists repo_name,
                        rec_repo r = Some (org cfg ++ lit "/" ++ repo_name)
                        /\ In repo_name repo_names) rs.
Proof.
  induction repo_names as [|repo_name rest IH]; intros rs ws H;
    cbn [releases_phase] in H.
  - injection H as <- _. constructor.
  - destruct (release_pages fuel lib gh cfg fetched_at repo_name 1)
      as [[rs1 raised]| |] eqn:E1; try discriminate.
    cbn [bind] in H.
    destruct (releases_phase fuel lib gh cfg fetched_at rest)
      as [[rs2 ws2]| |]; try discriminate.
    cbn in H. injection H as <- _. apply Forall_app. split.
    + eapply Forall_impl; [|apply (release_pages_scope repo_name fuel 1 rs1 raised E1)].
      intros r (Hs & Hr). split; [exact Hs|]. exists repo_name. split; [exact Hr|now left].
    + eapply Forall_impl; [|apply (IH rs2 ws2 eq_refl)].
      intros r (Hs & n & Hr & Hn). split; [exact Hs|]. exists n. split; [exact Hr|now right].
Qed.

(** X30. The corpus holds only what the configuration selects.  Every
    record of the documentation is a page under the base in one of the
    documentation sections; every record of a repository is a file of an
    included repository that is not excluded, with an extension of
    [include_exts] (when that list is not empty) and a path no exclude
    glob matches; every record of a release belongs to a repository of
    [releases.include_from]. *)
Theorem build_corpus_scope (fuel : nat) (recs : list record) (warns : list warning) :
  build_corpus lib web gh cfg fetched_at fuel = Ret (recs, warns) ->
  exists listed,
    list_org_repos fuel gh (org cfg) 1 = Ret listed
    /\ Forall (in_scope lib cfg listed) recs.
Proof.
  intros Hrun.
  destruct (build_corpus_parts _ _ _ _ _ _ _ _ Hrun)
    as (doc_urls & listed & drs & dws & rrs & rws & lrs & lws
        & Hd & Hdp & Hl & Hrp & Hlp & -> & _).
  exists listed. split; [exact Hl|].
  apply Forall_app. split; [|apply Forall_app; split].
  - destruct (docs_phase_keyed _ _ _ _ _ _ _ Hdp) as (Hkd & _).
    apply discover_doc_urls_docs in Hd. rewrite Forall_forall in Hd.
    apply Forall_forall. intros r Hr.
    destruct (keyed_In _ _ _ Hkd r Hr) as (u & Hu & Hs & Hurl & _).
    unfold in_scope. rewrite Hs. exists u. split; [exact Hurl|].
    specialize (Hd u Hu).
    replace (rstrip_chars (lit "/") (rstrip_chars (lit "/") (docs_base cfg)))
      with (rstrip_chars (lit "/") (docs_base cfg)) in Hd; [exact Hd|].
    symmetry. apply rstrip_chars_idem.
  - eapply Forall_impl; [|apply (repos_phase_scope _ _ _ Hrp)].
    intros r (Hs & name & path & Hin & H1 & H2 & H3 & H4).
    unfold in_scope. rewrite Hs. exists name, path.
    unfold ingested_repos in Hin. apply filter_In in Hin. destruct Hin as (Hin & Hex).
    split; [exact H1|]. split; [exact H2|]. split; [exact Hin|].
    split; [|split; assumption].
    apply mem_not_In. now destruct (mem name (exclude_repos cfg)).
  - eapply Forall_impl; [|apply (releases_phase_scope _ _ _ _ Hlp)].
    intros r (Hs & n & Hr & Hn). unfold in_scope. rewrite Hs. now exists n.
Qed.

End CorpusScope.

Lemma build_corpus_scope_witness :
  exists listed,
    list_org_repos 20 (demo_github [demo_release "v1.0" "v1.0.0"]) (org demo_config) 1
    = Ret listed
    /\ exists recs warns,
         build_corpus demo_lib demo_web (demo_github [demo_release "v1.0" "v1.0.0"])
           demo_config demo_now 20 = Ret (recs, warns)
         /\ Forall (in_scope demo_lib demo_config listed) recs.
Proof.
  destruct (build_corpus_scope demo_lib demo_web
              (demo_github [demo_release "v1.0" "v1.0.0"]) demo_config demo_now 20
              _ _ ltac:(vm_compute; reflexivity)) as (listed & Hl & Hs).
  exists listed. split; [exact Hl|]. eexists. eexists. split; [vm_compute; reflexivity|].
  exact Hs.
Defined.
